(** * auditctl: the hash-chained audit log

    A shallow embedding of [src/lib/logger.ts] (computeEntryHash,
    sanitizeInputs, AuditLogger), of [src/lib/storage/file.ts]
    (FileStorage) and of what the commands of [src/commands] compute
    (the export formats, replay, verify), with the properties of the
    entry chain, of its verifier, of the queries and of the exports.

    Conventions.
    - A JavaScript string is a [string]: the bytes of its UTF-8 encoding
      (well-formed text, no lone surrogate).
    - A JavaScript number is an integer [Z] (durations in milliseconds,
      amounts, counts, offsets), printed as its decimal digits, which is
      what the code prints for an integer of magnitude below 10^21.
      Fractions, the negative zero, NaN and the infinities are not
      represented; [JSON.stringify] prints the last three like [null]
      or [0], so the text it prints does not determine the value, and
      nothing below infers a value from its text.
    - [undefined] and [null] for an optional field are [None]. *)

From Stdlib Require Import ZArith NArith List String Ascii Bool Lia Arith.
From Stdlib Require Import DecimalString DecimalNat DecimalZ.
Import ListNotations.

Local Open Scope string_scope.
Local Open Scope list_scope.

(* ================================================================== *)
(** * Bytes, hexadecimal digits *)

Module Hex.
Local Open Scope Z_scope.

(** One lowercase hexadecimal digit for the low nibble of [n]. *)
Definition digit (n : Z) : ascii :=
  let d := Z.land n 15 in
  if d <? 10 then ascii_of_N (Z.to_N (48 + d))
  else ascii_of_N (Z.to_N (87 + d)).

(** The eight digits of a 32-bit word, most significant first. *)
Definition word32 (w : Z) : string :=
  String (digit (Z.shiftr w 28)) (String (digit (Z.shiftr w 24))
 (String (digit (Z.shiftr w 20)) (String (digit (Z.shiftr w 16))
 (String (digit (Z.shiftr w 12)) (String (digit (Z.shiftr w 8))
 (String (digit (Z.shiftr w 4)) (String (digit w) EmptyString))))))).

(** The two digits of a byte. *)
Definition byte (b : Z) : string :=
  String (digit (Z.shiftr b 4)) (String (digit b) EmptyString).

(** [isLowerHex c]: [c] is one of 0-9 a-f. *)
Definition isLowerHex (c : ascii) : bool :=
  let n := Z.of_N (N_of_ascii c) in
  ((48 <=? n) && (n <=? 57)) || ((97 <=? n) && (n <=? 102)).

Fixpoint allLowerHex (s : string) : bool :=
  match s with
  | EmptyString => true
  | String c r => isLowerHex c && allLowerHex r
  end.
End Hex.

(** The bytes of a string, as numbers 0..255. *)
Fixpoint bytes_of_string (s : string) : list Z :=
  match s with
  | EmptyString => []
  | String c r => Z.of_N (N_of_ascii c) :: bytes_of_string r
  end.

(* ================================================================== *)
(** * SHA-256 (FIPS 180-4), the digest behind
      [crypto.createHash('sha256').update(content).digest('hex')] *)

Module SHA256.
Local Open Scope Z_scope.

Definition wrap32 (x : Z) : Z := Z.land x 4294967295.
Definition add32 (x y : Z) : Z := wrap32 (x + y).
Definition rotr (n x : Z) : Z :=
  Z.lor (Z.shiftr x n) (wrap32 (Z.shiftl x (32 - n))).
Definition not32 (x : Z) : Z := Z.lxor x 4294967295.

Definition Ch (x y z : Z) : Z := Z.lxor (Z.land x y) (Z.land (not32 x) z).
Definition Maj (x y z : Z) : Z :=
  Z.lxor (Z.lxor (Z.land x y) (Z.land x z)) (Z.land y z).
Definition bigSigma0 (x : Z) : Z :=
  Z.lxor (Z.lxor (rotr 2 x) (rotr 13 x)) (rotr 22 x).
Definition bigSigma1 (x : Z) : Z :=
  Z.lxor (Z.lxor (rotr 6 x) (rotr 11 x)) (rotr 25 x).
Definition smallSigma0 (x : Z) : Z :=
  Z.lxor (Z.lxor (rotr 7 x) (rotr 18 x)) (Z.shiftr x 3).
Definition smallSigma1 (x : Z) : Z :=
  Z.lxor (Z.lxor (rotr 17 x) (rotr 19 x)) (Z.shiftr x 10).

(** The first 32 bits of the fractional part of the square root
    ([cube = false]) or cube root ([cube = true]) of [p]: the root of
    [p] scaled by [2 ^ 64] or [2 ^ 96] is found bit by bit. *)
Fixpoint root_search (cube : bool) (x : Z) (bits : nat) (r : Z) : Z :=
  match bits with
  | O => r
  | S b =>
      let c := r + Z.shiftl 1 (Z.of_nat b) in
      root_search cube x b
        (if (if cube then c * c * c else c * c) <=? x then c else r)
  end.

Definition frac_root (cube : bool) (p : Z) : Z :=
  wrap32 (root_search cube (Z.shiftl p (if cube then 96 else 64)) 36 0).

Definition primes64 : list Z :=
  [ 2; 3; 5; 7; 11; 13; 17; 19; 23; 29; 31; 37; 41; 43; 47; 53; 59; 61; 67;
    71; 73; 79; 83; 89; 97; 101; 103; 107; 109; 113; 127; 131; 137; 139;
    149; 151; 157; 163; 167; 173; 179; 181; 191; 193; 197; 199; 211; 223;
    227; 229; 233; 239; 241; 251; 257; 263; 269; 271; 277; 281; 283; 293;
    307; 311 ].

(** The round constants (the cube roots of the first 64 primes). *)
Definition K : list Z :=
  [
    1116352408; 1899447441; 3049323471; 3921009573; 961987163; 1508970993;
    2453635748; 2870763221; 3624381080; 310598401; 607225278; 1426881987;
    1925078388; 2162078206; 2614888103; 3248222580; 3835390401; 4022224774;
    264347078; 604807628; 770255983; 1249150122; 1555081692; 1996064986;
    2554220882; 2821834349; 2952996808; 3210313671; 3336571891; 3584528711;
    113926993; 338241895; 666307205; 773529912; 1294757372; 1396182291;
    1695183700; 1986661051; 2177026350; 2456956037; 2730485921; 2820302411;
    3259730800; 3345764771; 3516065817; 3600352804; 4094571909; 275423344;
    430227734; 506948616; 659060556; 883997877; 958139571; 1322822218;
    1537002063; 1747873779; 1955562222; 2024104815; 2227730452; 2361852424;
    2428436474; 2756734187; 3204031479; 3329325298 ].

(** The eight working words. *)
Record Regs : Type := mkRegs
  { ra : Z; rb : Z; rc : Z; rd : Z; re : Z; rf : Z; rg : Z; rh : Z }.

(** The initial hash value (the square roots of the first 8 primes). *)
Definition H0 : Regs :=
  {| ra := 1779033703; rb := 3144134277; rc := 1013904242; rd := 2773480762;
     re := 1359893119; rf := 2600822924; rg := 528734635; rh := 1541459225 |}.

(** Padding: 0x80, zeros up to 56 mod 64, the bit length on 8 bytes. *)
Definition be64 (n : Z) : list Z :=
  map (fun i => Z.land (Z.shiftr n (8 * i)) 255) [7; 6; 5; 4; 3; 2; 1; 0].

Definition pad (msg : list Z) : list Z :=
  let len := Z.of_nat (List.length msg) in
  let zeros := Z.to_nat ((55 - len) mod 64) in
  msg ++ [128] ++ repeat 0 zeros ++ be64 (8 * len).

(** Big-endian 32-bit words of a byte list (a trailing partial group is
    dropped; padded messages have none). *)
Fixpoint words (bs : list Z) : list Z :=
  match bs with
  | b0 :: b1 :: b2 :: b3 :: r =>
      (Z.shiftl b0 24 + Z.shiftl b1 16 + Z.shiftl b2 8 + b3) :: words r
  | _ => []
  end.

(** The message schedule, newest word first: [extend n rev_w] adds [n]
    words to the reversed schedule [rev_w]. *)
Fixpoint extend (n : nat) (rev_w : list Z) : list Z :=
  match n with
  | O => rev_w
  | S n' =>
      let w2 := nth 1 rev_w 0 in
      let w7 := nth 6 rev_w 0 in
      let w15 := nth 14 rev_w 0 in
      let w16 := nth 15 rev_w 0 in
      extend n'
        (add32 (add32 (smallSigma1 w2) w7) (add32 (smallSigma0 w15) w16)
           :: rev_w)
  end.

Definition schedule (block : list Z) : list Z :=
  rev (extend 48 (rev block)).

Definition round (r : Regs) (kw : Z * Z) : Regs :=
  let t1 := add32 (add32 (add32 (rh r) (bigSigma1 (re r)))
                         (add32 (Ch (re r) (rf r) (rg r)) (fst kw)))
                  (snd kw) in
  let t2 := add32 (bigSigma0 (ra r)) (Maj (ra r) (rb r) (rc r)) in
  mkRegs (add32 t1 t2) (ra r) (rb r) (rc r)
         (add32 (rd r) t1) (re r) (rf r) (rg r).

Definition compress (h : Regs) (block : list Z) : Regs :=
  let r := fold_left round (combine K (schedule block)) h in
  mkRegs (add32 (ra h) (ra r)) (add32 (rb h) (rb r))
         (add32 (rc h) (rc r)) (add32 (rd h) (rd r))
         (add32 (re h) (re r)) (add32 (rf h) (rf r))
         (add32 (rg h) (rg r)) (add32 (rh h) (rh r)).

(** Process the word stream sixteen words at a time. *)
Fixpoint blocks (fuel : nat) (ws : list Z) (h : Regs) : Regs :=
  match fuel with
  | O => h
  | S fuel' =>
      match ws with
      | [] => h
      | _ => blocks fuel' (skipn 16 ws) (compress h (firstn 16 ws))
      end
  end.

Definition digest (msg : list Z) : Regs :=
  let ws := words (pad msg) in
  blocks (List.length ws) ws H0.

Definition hex (r : Regs) : string :=
  Hex.word32 (ra r) ++ Hex.word32 (rb r) ++ Hex.word32 (rc r)
  ++ Hex.word32 (rd r) ++ Hex.word32 (re r) ++ Hex.word32 (rf r)
  ++ Hex.word32 (rg r) ++ Hex.word32 (rh r).

(** [createHash('sha256').update(content).digest('hex')] *)
Definition sha256_hex (content : string) : string :=
  hex (digest (bytes_of_string content)).
End SHA256.

Lemma K_cube_roots : SHA256.K = map (SHA256.frac_root true) SHA256.primes64.
Proof. vm_compute. reflexivity. Qed.

Lemma H0_square_roots :
  let h := SHA256.H0 in
  [SHA256.ra h; SHA256.rb h; SHA256.rc h; SHA256.rd h;
   SHA256.re h; SHA256.rf h; SHA256.rg h; SHA256.rh h]
  = map (SHA256.frac_root false) (firstn 8 SHA256.primes64).
Proof. vm_compute. reflexivity. Qed.

(** The standard test vectors. *)
Example sha256_abc :
  SHA256.sha256_hex "abc"
  = "ba7816bf8f01cfea414140de5dae2223b00361a396177a9cb410ff61f20015ad".
Proof. vm_compute. reflexivity. Qed.

Example sha256_empty :
  SHA256.sha256_hex EmptyString
  = "e3b0c44298fc1c149afbf4c8996fb92427ae41e4649b934ca495991b7852b855".
Proof. vm_compute. reflexivity. Qed.

Example sha256_two_blocks :
  SHA256.sha256_hex "abcdbcdecdefdefgefghfghighijhijkijkljklmklmnlmnomnopnopq"
  = "248d6a61d20638b8e5c026930c3e6039a33ce45964ff2167f6ecedd419db06c1".
Proof. vm_compute. reflexivity. Qed.

(* ================================================================== *)
(** * Strings: the [String.prototype] methods the code calls *)

Module Str.
Definition code (c : ascii) : N := N_of_ascii c.

(** [s.includes(sub)] *)
Fixpoint includes (s sub : string) : bool :=
  String.prefix sub s
  || match s with
     | EmptyString => false
     | String _ r => includes r sub
     end.

(** [s.toLowerCase()]. On UTF-8 bytes: the Latin capitals A-Z map to
    a-z; of the letters beyond ASCII, exactly two have a lowercase form
    that contains an ASCII letter, U+212A KELVIN SIGN (to "k") and
    U+0130 (to "i" followed by U+0307); every other byte is kept, which
    leaves all ASCII content of the result exact. *)
Definition lowerAscii (c : ascii) : ascii :=
  if ((65 <=? code c) && (code c <=? 90))%N
  then ascii_of_N (code c + 32) else c.

Definition kelvin_sign : string :=
  String (ascii_of_N 226) (String (ascii_of_N 132)
    (String (ascii_of_N 170) EmptyString)).
Definition capital_i_dot : string :=
  String (ascii_of_N 196) (String (ascii_of_N 176) EmptyString).
Definition small_i_dot : string :=
  String "i" (String (ascii_of_N 204) (String (ascii_of_N 135) EmptyString)).

(** [skip] counts the bytes of a multi-byte letter already rewritten. *)
Fixpoint lower_from (skip : nat) (s : string) : string :=
  match s with
  | EmptyString => EmptyString
  | String c r =>
      match skip with
      | S k => lower_from k r
      | O =>
          if String.prefix kelvin_sign s then String "k" (lower_from 2 r)
          else if String.prefix capital_i_dot s
          then (small_i_dot ++ lower_from 1 r)%string
          else String (lowerAscii c) (lower_from 0 r)
      end
  end.

Definition toLowerCase (s : string) : string := lower_from 0 s.

(** The number of bytes of the white space character or line terminator
    at the head of [s], as [String.prototype.trim] knows them, 0 when
    there is none: TAB to CR and SP; U+00A0; U+1680; U+2000 to U+200A,
    U+2028, U+2029, U+202F; U+205F; U+3000; U+FEFF. *)
Definition space_width (s : string) : nat :=
  match s with
  | String c r =>
      if ((code c =? 32) || ((9 <=? code c) && (code c <=? 13)))%N then 1
      else
        match r with
        | String c1 r1 =>
            if ((code c =? 194) && (code c1 =? 160))%N then 2
            else
              match r1 with
              | String c2 _ =>
                  if (((code c =? 225) && (code c1 =? 154) && (code c2 =? 128))
                      || ((code c =? 226) && (code c1 =? 128)
                          && (((128 <=? code c2) && (code c2 <=? 138))
                              || (code c2 =? 168) || (code c2 =? 169)
                              || (code c2 =? 175)))
                      || ((code c =? 226) && (code c1 =? 129) && (code c2 =? 159))
                      || ((code c =? 227) && (code c1 =? 128) && (code c2 =? 128))
                      || ((code c =? 239) && (code c1 =? 187) && (code c2 =? 191)))%N
                  then 3 else 0
              | EmptyString => 0
              end
        | EmptyString => 0
        end
  | EmptyString => 0
  end.

(** [line.trim()] is the empty string: the line is white space only.
    [skip] counts the bytes of a character already recognised. *)
Fixpoint blank_from (skip : nat) (s : string) : bool :=
  match s with
  | EmptyString => true
  | String _ r =>
      match skip with
      | S k => blank_from k r
      | O =>
          match space_width s with
          | O => false
          | S k => blank_from k r
          end
      end
  end.

Definition isBlank (s : string) : bool := blank_from 0 s.

(** Truthiness of a string: non-empty. *)
Definition truthy (s : string) : bool :=
  match s with EmptyString => false | _ => true end.

(** Nothing but the white space that [JSON.parse] skips: SP, TAB, LF, CR. *)
Fixpoint jsonBlank (s : string) : bool :=
  match s with
  | EmptyString => true
  | String c r =>
      ((code c =? 32) || (code c =? 9) || (code c =? 10) || (code c =? 13))%N
      && jsonBlank r
  end.
End Str.

(** [a || b] on an optional string: [a] when it is defined and non-empty. *)
Definition or_else_str (a : option string) (b : string) : string :=
  match a with
  | Some s => if Str.truthy s then s else b
  | None => b
  end.

Definition or_else_opt_str (a b : option string) : option string :=
  match a with
  | Some s => if Str.truthy s then Some s else b
  | None => b
  end.

(** [a !== b] and [a === b] on optional strings ([undefined] is [None]). *)
Definition opt_str_eqb (a b : option string) : bool :=
  match a, b with
  | Some x, Some y => String.eqb x y
  | None, None => true
  | _, _ => false
  end.

(* ================================================================== *)
(** * JSON values and [JSON.stringify] *)

#[local] Set Warnings "-register-all".
Inductive JSON : Type :=
| JNull
| JBool (b : bool)
| JNum (n : Z)
| JStr (s : string)
| JArr (items : list JSON)
| JObj (props : list (string * JSON)).

(** A [Record<string, unknown>]: the own properties in property order. *)
Definition JRecord : Type := list (string * JSON).

Module Json.
(** [Number.prototype.toString] of an integer of magnitude below 10^21:
    its decimal digits. *)
Definition number (n : Z) : string := NilEmpty.string_of_int (Z.to_int n).

(** [ToString] of an array position. *)
Definition index_key (i : N) : string :=
  NilEmpty.string_of_uint (N.to_uint i).

(** QuoteJSONString: the two-character escapes, [\u00xx] for the other
    control characters, everything else verbatim. *)
Definition dquote : ascii := ascii_of_N 34.

Definition escape (c : ascii) : string :=
  let n := Str.code c in
  if (n =? 34)%N then String "\" (String dquote EmptyString)
  else if (n =? 92)%N then "\\"
  else if (n =? 8)%N then "\b"
  else if (n =? 9)%N then "\t"
  else if (n =? 10)%N then "\n"
  else if (n =? 12)%N then "\f"
  else if (n =? 13)%N then "\r"
  else if (n <? 32)%N then ("\u00" ++ Hex.byte (Z.of_N n))%string
  else String c EmptyString.

Fixpoint escape_all (s : string) : string :=
  match s with
  | EmptyString => EmptyString
  | String c r => (escape c ++ escape_all r)%string
  end.

Definition quote (s : string) : string :=
  (String dquote (escape_all s) ++ String dquote EmptyString)%string.

(** [JSON.stringify(v)] without indentation. *)
Fixpoint stringify (v : JSON) : string :=
  match v with
  | JNull => "null"
  | JBool true => "true"
  | JBool false => "false"
  | JNum n => number n
  | JStr s => quote s
  | JArr items =>
      ("[" ++ String.concat "," (map stringify items) ++ "]")%string
  | JObj props =>
      ("{" ++ String.concat ","
               (map (fun kv => (quote (fst kv) ++ ":" ++ stringify (snd kv))%string)
                    props)
           ++ "}")%string
  end.

Definition strings (l : list string) : JSON := JArr (map JStr l).

(** A property that is left out when its value is [undefined]. *)
Definition prop (k : string) (v : option JSON) : JRecord :=
  match v with
  | Some j => [(k, j)]
  | None => []
  end.
End Json.

(* ================================================================== *)
(** * JavaScript objects: own properties in property order *)

Module Obj.

(** An array index: a canonical numeric string below 2^32 - 1. *)
Definition array_index (k : string) : option N :=
  match NilEmpty.uint_of_string k with
  | Some d =>
      let n := N.of_uint d in
      if String.eqb (Json.index_key n) k && (n <? 4294967295)%N
      then Some n else None
  | None => None
  end.

Definition has (o : JRecord) (k : string) : bool :=
  existsb (fun kv => String.eqb (fst kv) k) o.

Fixpoint get (o : JRecord) (k : string) : option JSON :=
  match o with
  | [] => None
  | (k', v) :: r => if String.eqb k' k then Some v else get r k
  end.

Definition replace (o : JRecord) (k : string) (v : JSON) : JRecord :=
  map (fun kv => if String.eqb (fst kv) k then (fst kv, v) else kv) o.

(** A new array-index key goes after the smaller array indices and before
    everything else. *)
Fixpoint insert_index (n : N) (k : string) (v : JSON) (o : JRecord) : JRecord :=
  match o with
  | [] => [(k, v)]
  | kv :: r =>
      match array_index (fst kv) with
      | Some m => if (m <? n)%N then kv :: insert_index n k v r
                  else (k, v) :: o
      | None => (k, v) :: o
      end
  end.

(** CreateDataProperty, as done by an object literal and by spread: an
    existing key keeps its place, a new array index is sorted in, any
    other new key goes last. *)
Definition define (o : JRecord) (k : string) (v : JSON) : JRecord :=
  if has o k then replace o k v
  else match array_index k with
       | Some n => insert_index n k v o
       | None => o ++ [(k, v)]
       end.

(** The assignment [o[k] = v] on an ordinary object. The key
    ["__proto__"] reaches the setter inherited from [Object.prototype],
    which changes the prototype (or does nothing) and never creates an own
    property. *)
Definition assign (o : JRecord) (k : string) (v : JSON) : JRecord :=
  if String.eqb k "__proto__" then o else define o k v.

(** The positions of an array, as keys. *)
Fixpoint index_from (i : N) (items : list JSON) : JRecord :=
  match items with
  | [] => []
  | v :: r => (Json.index_key i, v) :: index_from (N.succ i) r
  end.

(** [Object.entries(v)] for an object or an array. *)
Definition entries (v : JSON) : JRecord :=
  match v with
  | JObj props => props
  | JArr items => index_from 0 items
  | _ => []
  end.

End Obj.

(* ================================================================== *)
(** * The entry model ([src/types.ts]) *)

Record ComplianceInfo : Type := mkCompliance
  { regulations : list string;
    riskFlags : list string;
    humanReviewRequired : bool;
    checksPerformed : option (list string);
    exemptions : option (list string) }.

Record AuditEntry : Type := mkEntry
  { auditId : string;
    timestamp : string;
    tool : string;
    command : string;
    toolVersion : string;
    inputs : JRecord;
    outputs : JRecord;
    rationale : string;
    warnings : list string;
    compliance : ComplianceInfo;
    operator : string;
    sessionId : option string;
    parentAuditId : option string;
    loanId : option string;
    durationMs : option Z;
    previousHash : option string;
    entryHash : option string }.

(** [Partial<ComplianceInfo>] *)
Module Partial.
Record t : Type := mk
  { regulations : option (list string);
    riskFlags : option (list string);
    humanReviewRequired : option bool;
    checksPerformed : option (list string);
    exemptions : option (list string) }.
End Partial.

(** [AuditEntryOptions] *)
Module Options.
Record t : Type := mk
  { tool : string;
    command : string;
    toolVersion : string;
    inputs : JRecord;
    outputs : JRecord;
    rationale : string;
    warnings : option (list string);
    compliance : option Partial.t;
    operator : option string;
    sessionId : option string;
    parentAuditId : option string;
    loanId : option string;
    durationMs : option Z }.
End Options.

(** [AuditQueryOptions] *)
Module Query.
Record t : Type := mk
  { loanId : option string;
    tool : option string;
    command : option string;
    operator : option string;
    sessionId : option string;
    startDate : option string;
    endDate : option string;
    hasRiskFlags : option bool;
    humanReviewRequired : option bool;
    limit : option Z;
    offset : option Z }.
End Query.

(** [IntegrityFailure] *)
Module Failure.
Record t : Type := mk
  { auditId : string;
    timestamp : string;
    reason : string;
    expectedHash : option string;
    actualHash : option string }.
End Failure.

(** [IntegrityResult] *)
Module Result.
Record t : Type := mk
  { valid : bool;
    entriesChecked : nat;
    validEntries : nat;
    invalidEntries : nat;
    failures : list Failure.t }.
End Result.

(* ================================================================== *)
(** * [src/lib/logger.ts] *)

Definition defaultComplianceInfo : ComplianceInfo :=
  mkCompliance [] [] false None None.

(** The object literal that [computeEntryHash] serializes: sixteen keys in
    this order, a key with an [undefined] value left out by
    [JSON.stringify]. A compliance block is written in the order
    regulations, riskFlags, humanReviewRequired, checksPerformed,
    exemptions, the order of the interface [ComplianceInfo] (the code
    writes the last two in the order in which the caller's object has
    them). *)
Definition compliance_json (c : ComplianceInfo) : JSON :=
  JObj ([ ("regulations", Json.strings (regulations c));
          ("riskFlags", Json.strings (riskFlags c));
          ("humanReviewRequired", JBool (humanReviewRequired c)) ]
        ++ Json.prop "checksPerformed" (option_map Json.strings (checksPerformed c))
        ++ Json.prop "exemptions" (option_map Json.strings (exemptions c))).

Definition hashed_props (entry : AuditEntry) : JRecord :=
  [ ("auditId", JStr (auditId entry));
    ("timestamp", JStr (timestamp entry));
    ("tool", JStr (tool entry));
    ("command", JStr (command entry));
    ("toolVersion", JStr (toolVersion entry));
    ("inputs", JObj (inputs entry));
    ("outputs", JObj (outputs entry));
    ("rationale", JStr (rationale entry));
    ("warnings", Json.strings (warnings entry));
    ("compliance", compliance_json (compliance entry));
    ("operator", JStr (operator entry)) ]
  ++ Json.prop "sessionId" (option_map JStr (sessionId entry))
  ++ Json.prop "parentAuditId" (option_map JStr (parentAuditId entry))
  ++ Json.prop "loanId" (option_map JStr (loanId entry))
  ++ Json.prop "durationMs" (option_map JNum (durationMs entry))
  ++ Json.prop "previousHash" (option_map JStr (previousHash entry)).

Definition hash_content (entry : AuditEntry) : JSON :=
  JObj (hashed_props entry).

(** The text that is hashed. *)
Definition canonical (entry : AuditEntry) : string :=
  Json.stringify (hash_content entry).

Definition computeEntryHash (entry : AuditEntry) : string :=
  let content := canonical entry in
  SHA256.sha256_hex content.

(** ** sanitizeInputs *)

Definition sensitiveKeys : list string :=
  [ "ssn"; "social_security"; "socialSecurity"; "ssn_last4"; "password";
    "secret"; "token"; "api_key"; "apiKey"; "account_number";
    "accountNumber"; "routing_number"; "routingNumber" ].

Definition REDACTED : string := "[REDACTED]".

(** [sensitiveKeys.some((sk) => lowerKey.includes(sk.toLowerCase()))] *)
Definition isSensitive (key : string) : bool :=
  let lowerKey := Str.toLowerCase key in
  existsb (fun sk => Str.includes lowerKey (Str.toLowerCase sk)) sensitiveKeys.

(** [typeof value === 'object' && value !== null] *)
Definition isObject (value : JSON) : bool :=
  match value with
  | JArr _ | JObj _ => true
  | _ => false
  end.

(** The assignments [sanitized[key] = ...] of the loop, in order. *)
Definition assign_all (kvs : JRecord) : JRecord :=
  fold_left (fun sanitized kv => Obj.assign sanitized (fst kv) (snd kv)) kvs [].

(** [sanitizeInputs(inputs)]. The argument is the typed top-level record
    or, in the recursive call, any value whose [typeof] is ['object']: a
    mapping or an array, which [Object.entries] enumerates by position. *)
Fixpoint sanitizeInputs (inputs : JSON) : JRecord :=
  let visit := fun (key : string) (value : JSON) =>
    if isSensitive key then JStr REDACTED
    else match value with
         | JArr _ | JObj _ => JObj (sanitizeInputs value)
         | _ => value
         end in
  match inputs with
  | JObj props =>
      assign_all (map (fun kv => (fst kv, visit (fst kv) (snd kv))) props)
  | JArr items =>
      assign_all
        ((fix each (i : N) (l : list JSON) : JRecord :=
            match l with
            | [] => []
            | v :: r =>
                (Json.index_key i, visit (Json.index_key i) v)
                  :: each (N.succ i) r
            end) 0%N items)
  | _ => []
  end.

(** ** AuditLogger *)

Module Logger.
Record t : Type := mk
  { defaultOperator : string;
    sessionId : option string }.

(** The constructor: [options?.defaultOperator || 'system']. *)
Definition create (defaultOperator sessionId : option string) : t :=
  mk (or_else_str defaultOperator "system") sessionId.
End Logger.

Inductive Decision : Type := approved | declined | referred | countered.

Definition decision_name (d : Decision) : string :=
  match d with
  | approved => "approved"
  | declined => "declined"
  | referred => "referred"
  | countered => "countered"
  end.

Definition is_declined (d : Decision) : bool :=
  match d with declined => true | _ => false end.

(** [{ ...defaultComplianceInfo, ...options.compliance }] *)
Definition merge_compliance (c : option Partial.t) : ComplianceInfo :=
  match c with
  | None => defaultComplianceInfo
  | Some p =>
      mkCompliance
        (match Partial.regulations p with
         | Some r => r | None => regulations defaultComplianceInfo end)
        (match Partial.riskFlags p with
         | Some r => r | None => riskFlags defaultComplianceInfo end)
        (match Partial.humanReviewRequired p with
         | Some b => b | None => humanReviewRequired defaultComplianceInfo end)
        (Partial.checksPerformed p)
        (Partial.exemptions p)
  end.

(** The entry that [log] builds from the options, the hash of the last
    stored entry, and the identifier and time stamp that [uuidv4()] and
    [new Date().toISOString()] return for this call. *)
Definition entryWithoutHash (lg : Logger.t) (options : Options.t)
    (previousHash : option string) (id now : string) : AuditEntry :=
  mkEntry id now
    (Options.tool options)
    (Options.command options)
    (Options.toolVersion options)
    (sanitizeInputs (JObj (Options.inputs options)))
    (Options.outputs options)
    (Options.rationale options)
    (match Options.warnings options with Some w => w | None => [] end)
    (merge_compliance (Options.compliance options))
    (or_else_str (Options.operator options) (Logger.defaultOperator lg))
    (or_else_opt_str (Options.sessionId options) (Logger.sessionId lg))
    (Options.parentAuditId options)
    (Options.loanId options)
    (Options.durationMs options)
    previousHash
    None.

Definition with_entryHash (e : AuditEntry) (h : option string) : AuditEntry :=
  mkEntry (auditId e) (timestamp e) (tool e) (command e) (toolVersion e)
    (inputs e) (outputs e) (rationale e) (warnings e) (compliance e)
    (operator e) (sessionId e) (parentAuditId e) (loanId e) (durationMs e)
    (previousHash e) h.

(** [{ ...entryWithoutHash, entryHash }] *)
Definition seal (e : AuditEntry) : AuditEntry :=
  with_entryHash e (Some (computeEntryHash e)).

(* ================================================================== *)
(** * [src/lib/storage/file.ts]: the append-only JSONL file *)

(** A line of the log file, with what [line.trim()] and
    [JSON.parse(line)] make of it: white space only, text on which
    [JSON.parse] throws, or the text of an entry, which [JSON.parse]
    turns into that entry. The line [JSON.stringify(entry)] written by
    [append] after a line feed is taken to be of this kind: line feeds
    and carriage returns inside the strings of the entry are written
    escaped, and the entry is taken to hold no other character at which
    [readline] would end a line (U+2028 and U+2029 are written as they
    are).

    The text after the last line feed of a file that does not end with
    one is its unterminated last line: [readline] yields it like any
    other line, and [appendFile] writes right after it, on the same
    line. It is kept with its text and with what [JSON.parse] makes of
    that text ([None] when it throws). *)
Inductive Line : Type :=
| Blank
| Malformed (text : string)
| Stored (entry : AuditEntry)
| Unterminated (text : string) (parsed : option AuditEntry).

(** The file, top to bottom. A missing file reads as the empty one. *)
Definition File : Type := list Line.

(** What the reading loop makes of a line: an unterminated line is
    trimmed and parsed like the others. *)
Definition as_read (line : Line) : Line :=
  match line with
  | Unterminated text parsed =>
      if Str.isBlank text then Blank
      else match parsed with
           | Some e => Stored e
           | None => Malformed text
           end
  | _ => line
  end.

(** [JSON.stringify(entry)] for an entry built by [log]: the sixteen keys
    of [entryWithoutHash], then entryHash. *)
Definition entry_text (entry : AuditEntry) : string :=
  Json.stringify
    (JObj (hashed_props entry
           ++ Json.prop "entryHash" (option_map JStr (entryHash entry)))).

Section Text.

(** [JSON.parse(line)], taken as an [AuditEntry] the way the code does:
    the entry read, or [None] when [JSON.parse] throws. *)
Variable JSON_parse : string -> option AuditEntry.

(** What the reading loop makes of the text of a line. *)
Definition classify (line : string) : Line :=
  if Str.isBlank line then Blank
  else match JSON_parse line with
       | Some e => Stored e
       | None => Malformed line
       end.

(** The lines that [readline] yields for the file. *)
Definition load (lines : list string) : File := map classify lines.

End Text.

(** An object on the heap: [JSON.parse] allocates a new one at every
    call, and [Array.prototype.indexOf] compares objects by identity. *)
Record Ref : Type := mkRef { oid : nat; val :> AuditEntry }.

Module FileStorage.

(** [fs.promises.appendFile(this.filePath, JSON.stringify(entry) + '\n')]:
    the text goes right after the last byte of the file. In an empty
    file, or after a line feed, it is a new line, which reads back as
    the entry. After an unterminated last line it continues that line,
    and the line feed ends the two together: [JSON.parse] reads the
    whole line as the entry when what stood there is white space of
    JSON, and throws on it otherwise (a second value after a first one,
    or a value inside text that no bracket closes after it). *)
Fixpoint append (file : File) (entry : AuditEntry) : File :=
  match file with
  | [] => [Stored entry]
  | [Unterminated text _] =>
      [if Str.jsonBlank text then Stored entry
       else Malformed (text ++ entry_text entry)]
  | line :: rest => line :: append rest entry
  end.

(** The state of the reading loop: the array [entries] and the warnings
    printed by [console.error] so far. *)
Definition read_line (st : list Ref * list string) (line : Line)
  : list Ref * list string :=
  match as_read line with
  | Stored e => (fst st ++ [mkRef (List.length (fst st)) e], snd st)
  | Malformed text =>
      (fst st,
       snd st ++ [("Warning: Invalid JSON line in audit log: " ++ text)%string])
  | _ => st
  end.

Definition read (file : File) : list Ref * list string :=
  fold_left read_line file ([], []).

Definition readAllEntries (file : File) : list Ref := fst (read file).

Definition warningsPrinted (file : File) : list string := snd (read file).

(** [entries.find((e) => e.auditId === auditId) || null] *)
Definition getById (file : File) (id : string) : option Ref :=
  let entries := readAllEntries file in
  find (fun e : Ref => String.eqb (auditId e) id) entries.

(** [entries.length > 0 ? entries[entries.length - 1] : null] *)
Definition getLastEntry (file : File) : option Ref :=
  let entries := readAllEntries file in
  if (0 <? List.length entries)%nat
  then nth_error entries (List.length entries - 1)
  else None.

(** [entries.indexOf(entry)]: the first position holding that very
    object, or -1. *)
Fixpoint indexOf_from (i : Z) (entries : list Ref) (entry : Ref) : Z :=
  match entries with
  | [] => (-1)%Z
  | x :: r =>
      if Nat.eqb (oid x) (oid entry) then i
      else indexOf_from (i + 1)%Z r entry
  end.

Definition indexOf (entries : list Ref) (entry : Ref) : Z :=
  indexOf_from 0%Z entries entry.

(** [a.slice(start, end)] *)
Definition slice {A : Type} (a : list A) (first last : Z) : list A :=
  let len := Z.of_nat (List.length a) in
  let clamp := fun i : Z =>
    if (i <? 0)%Z then Z.max (len + i) 0 else Z.min i len in
  let k := clamp first in
  let final := clamp last in
  firstn (Z.to_nat (Z.max (final - k) 0)) (skipn (Z.to_nat k) a).

(** A filter option that is set: a non-empty string. *)
Definition given (o : option string) : option string :=
  match o with
  | Some s => if Str.truthy s then Some s else None
  | None => None
  end.

Definition reason_previous : string := "Previous hash mismatch".
Definition reason_entry : string := "Entry hash mismatch - possible tampering".

Section WithClock.

(** [new Date(s).getTime()]: the milliseconds since the epoch, or [None]
    for NaN. A comparison with NaN is false. *)
Variable getTime : string -> option Z.

Definition time_ge (a b : option Z) : bool :=
  match a, b with
  | Some x, Some y => (y <=? x)%Z
  | _, _ => false
  end.

Definition time_le (a b : option Z) : bool :=
  match a, b with
  | Some x, Some y => (x <=? y)%Z
  | _, _ => false
  end.

Definition query (file : File) (options : Query.t) : list Ref :=
  let entries := readAllEntries file in
  let filtered := entries in
  let filtered :=
    match given (Query.loanId options) with
    | Some v => filter (fun e : Ref => opt_str_eqb (loanId e) (Some v)) filtered
    | None => filtered
    end in
  let filtered :=
    match given (Query.tool options) with
    | Some v => filter (fun e : Ref => String.eqb (tool e) v) filtered
    | None => filtered
    end in
  let filtered :=
    match given (Query.command options) with
    | Some v => filter (fun e : Ref => String.eqb (command e) v) filtered
    | None => filtered
    end in
  let filtered :=
    match given (Query.operator options) with
    | Some v => filter (fun e : Ref => String.eqb (operator e) v) filtered
    | None => filtered
    end in
  let filtered :=
    match given (Query.sessionId options) with
    | Some v => filter (fun e : Ref => opt_str_eqb (sessionId e) (Some v)) filtered
    | None => filtered
    end in
  let filtered :=
    match given (Query.startDate options) with
    | Some v =>
        let start := getTime v in
        filter (fun e : Ref => time_ge (getTime (timestamp e)) start) filtered
    | None => filtered
    end in
  let filtered :=
    match given (Query.endDate options) with
    | Some v =>
        let stop := getTime v in
        filter (fun e : Ref => time_le (getTime (timestamp e)) stop) filtered
    | None => filtered
    end in
  let filtered :=
    match Query.hasRiskFlags options with
    | Some true =>
        filter (fun e : Ref => (0 <? List.length (riskFlags (compliance e)))%nat)
               filtered
    | _ => filtered
    end in
  let filtered :=
    match Query.humanReviewRequired options with
    | Some b =>
        filter (fun e : Ref => Bool.eqb (humanReviewRequired (compliance e)) b)
               filtered
    | None => filtered
    end in
  let offset :=
    match Query.offset options with
    | Some n => if (n =? 0)%Z then 0%Z else n
    | None => 0%Z
    end in
  let limit :=
    match Query.limit options with
    | Some n => if (n =? 0)%Z then Z.of_nat (List.length filtered) else n
    | None => Z.of_nat (List.length filtered)
    end in
  slice filtered offset (offset + limit)%Z.

Definition count (file : File) (options : option Query.t) : nat :=
  match options with
  | Some o => List.length (query file o)
  | None => List.length (readAllEntries file)
  end.

(** One turn of the verification loop on [entry]: the state is the array
    [failures] and the counter [validEntries]. [None] is the TypeError
    of reading [previousEntry.entryHash] when [entries[entryIndex - 1]]
    is [undefined]. *)
Definition check (entries : list Ref) (st : list Failure.t * nat)
    (entry : Ref) : option (list Failure.t * nat) :=
  let failures := fst st in
  let validEntries := snd st in
  let entryIndex := indexOf entries entry in
  let verify_hash :=
    let computedHash := computeEntryHash entry in
    if negb (opt_str_eqb (Some computedHash) (entryHash entry))
    then (failures
            ++ [Failure.mk (auditId entry) (timestamp entry) reason_entry
                  (entryHash entry) (Some computedHash)],
          validEntries)
    else (failures, S validEntries) in
  if (0 <? entryIndex)%Z then
    match nth_error entries (Z.to_nat (entryIndex - 1)) with
    | None => None
    | Some previousEntry =>
        if negb (opt_str_eqb (previousHash entry) (entryHash previousEntry))
        then Some (failures
                     ++ [Failure.mk (auditId entry) (timestamp entry)
                           reason_previous
                           (entryHash previousEntry) (previousHash entry)],
                   validEntries)
        else Some verify_hash
    end
  else Some verify_hash.

Definition check_all (entries toCheck : list Ref)
  : option (list Failure.t * nat) :=
  fold_left
    (fun acc entry =>
       match acc with
       | Some st => check entries st entry
       | None => None
       end)
    toCheck (Some ([], 0)).

(** The entries that are reported on. *)
Definition toCheck (entries : list Ref) (fromDate : option string) : list Ref :=
  match given fromDate with
  | Some d =>
      let fromTime := getTime d in
      filter (fun e : Ref => time_ge (getTime (timestamp e)) fromTime) entries
  | None => entries
  end.

Definition verifyIntegrity (file : File) (fromDate : option string)
  : option Result.t :=
  let entries := readAllEntries file in
  let checked := toCheck entries fromDate in
  match check_all entries checked with
  | Some (failures, validEntries) =>
      Some (Result.mk (Nat.eqb (List.length failures) 0)
                      (List.length checked)
                      validEntries
                      (List.length failures)
                      failures)
  | None => None
  end.

End WithClock.

End FileStorage.

(** ** AuditLogger.log and AuditLogger.logDecision *)

(** [log(options)]: the entry returned and the file after the append. *)
Definition log (lg : Logger.t) (file : File) (options : Options.t)
    (id now : string) : AuditEntry * File :=
  let lastEntry := FileStorage.getLastEntry file in
  let previousHash :=
    match lastEntry with
    | Some e => entryHash e
    | None => None
    end in
  let entry := seal (entryWithoutHash lg options previousHash id now) in
  (entry, FileStorage.append file entry).

Definition with_outputs_compliance (o : Options.t) (out : JRecord)
    (c : option Partial.t) : Options.t :=
  Options.mk (Options.tool o) (Options.command o) (Options.toolVersion o)
    (Options.inputs o) out (Options.rationale o) (Options.warnings o) c
    (Options.operator o) (Options.sessionId o) (Options.parentAuditId o)
    (Options.loanId o) (Options.durationMs o).

(** The outputs that [logDecision] passes on. *)
Definition decision_outputs (options : Options.t) (decision : Decision)
    (declineReasons : option (list string)) : JRecord :=
  let outputs :=
    Obj.define (Options.outputs options) "decision"
               (JStr (decision_name decision)) in
  if is_declined decision
  then Obj.assign outputs "adverseActionReasons"
         (Json.strings (match declineReasons with
                        | Some r => r
                        | None => ["Unspecified reason"]
                        end))
  else outputs.

(** The compliance block that [logDecision] passes on. *)
Definition decision_compliance (options : Options.t) (decision : Decision)
  : Partial.t :=
  let c := Options.compliance options in
  Partial.mk
    (Some ((match c with
            | Some p => match Partial.regulations p with
                        | Some r => r | None => [] end
            | None => []
            end) ++ ["ECOA"; "Reg B"]))
    (match c with Some p => Partial.riskFlags p | None => None end)
    (Some (is_declined decision
           || match c with
              | Some p => match Partial.humanReviewRequired p with
                          | Some b => b | None => false end
              | None => false
              end
           || false))
    (match c with Some p => Partial.checksPerformed p | None => None end)
    (match c with Some p => Partial.exemptions p | None => None end).

Definition logDecision (lg : Logger.t) (file : File) (options : Options.t)
    (decision : Decision) (declineReasons : option (list string))
    (id now : string) : AuditEntry * File :=
  log lg file
    (with_outputs_compliance options
       (decision_outputs options decision declineReasons)
       (Some (decision_compliance options decision)))
    id now.

(** ** AuditLogger.startSession and AuditLogger.getSessionId *)

(** [startSession(sessionId)]: a new logger on the same storage, made by
    the constructor from this logger's default operator and from
    [sessionId || uuidv4()]; [fresh] is what [uuidv4()] returns. *)
Definition startSession (lg : Logger.t) (sessionId : option string)
    (fresh : string) : Logger.t :=
  Logger.create (Some (Logger.defaultOperator lg))
                (Some (or_else_str sessionId fresh)).

(** [getSessionId()] *)
Definition getSessionId (lg : Logger.t) : option string := Logger.sessionId lg.

(* ================================================================== *)
(** * The commands ([src/commands]) *)

(** ** auditctl export *)

(** The line feed. *)
Definition newline : string := String (ascii_of_N 10) EmptyString.

(** [JSON.stringify(v, null, gap)]: with a gap that is not empty, the
    members of an array or object that is not empty go on lines of their
    own, indented by one more gap, and a colon is followed by a space. *)
Fixpoint stringify_indented (gap indent : string) (v : JSON) : string :=
  let inner := (indent ++ gap)%string in
  let wrap := fun (opening closing : string) (partial : list string) =>
    match partial with
    | [] => (opening ++ closing)%string
    | _ =>
        if Str.truthy gap
        then (opening ++ newline ++ inner
              ++ String.concat ("," ++ newline ++ inner) partial
              ++ newline ++ indent ++ closing)%string
        else (opening ++ String.concat "," partial ++ closing)%string
    end in
  match v with
  | JNull => "null"
  | JBool true => "true"
  | JBool false => "false"
  | JNum n => Json.number n
  | JStr s => Json.quote s
  | JArr items => wrap "[" "]" (map (stringify_indented gap inner) items)
  | JObj props =>
      wrap "{" "}"
        (map (fun kv =>
                (Json.quote (fst kv) ++ ":"
                 ++ (if Str.truthy gap then " " else "")
                 ++ stringify_indented gap inner (snd kv))%string)
             props)
  end.

Module ExportFormats.

(** *** formatAsCFPB *)

(** [e.outputs && typeof e.outputs === 'object' && 'decision' in e.outputs] *)
Definition is_decision (e : AuditEntry) : bool :=
  Obj.has (outputs e) "decision".

(** The record exported for a decision; a key whose value is [undefined]
    is left out by [JSON.stringify]. *)
Definition cfpb_entry (e : AuditEntry) : JRecord :=
  [ ("auditId", JStr (auditId e));
    ("timestamp", JStr (timestamp e)) ]
  ++ Json.prop "loanId" (option_map JStr (loanId e))
  ++ Json.prop "decision" (Obj.get (outputs e) "decision")
  ++ Json.prop "adverseActionReasons"
       (Obj.get (outputs e) "adverseActionReasons")
  ++ [ ("rationale", JStr (rationale e));
       ("ecoapCompliant",
        JBool (existsb (String.eqb "ECOA") (regulations (compliance e))));
       ("riskFlags", Json.strings (riskFlags (compliance e))) ].

(** The object [output]; [now] is [new Date().toISOString()]. *)
Definition cfpb_output (now : string) (entries : list AuditEntry) : JRecord :=
  [ ("exportDate", JStr now);
    ("exportFormat", JStr "CFPB Fair Lending Analysis");
    ("totalDecisions",
     JNum (Z.of_nat (List.length (filter is_decision entries))));
    ("entries",
     JArr (map (fun e => JObj (cfpb_entry e)) (filter is_decision entries))) ].

Definition formatAsCFPB (now : string) (entries : list AuditEntry) : string :=
  stringify_indented "  " "" (JObj (cfpb_output now entries)).

(** *** formatAsOCC *)

Section Summaries.

(** The text of a native function of [Object.prototype], by its name. *)
Variable native_source : string -> string.

(** The function-valued properties of [Object.prototype]. *)
Definition prototype_functions : list string :=
  [ "constructor"; "hasOwnProperty"; "isPrototypeOf"; "propertyIsEnumerable";
    "toLocaleString"; "toString"; "valueOf"; "__defineGetter__";
    "__defineSetter__"; "__lookupGetter__"; "__lookupSetter__" ].

(** What [summary[key]] reads on an object that has no such key of its
    own, as the string that [+ 1] makes of it: nothing, the text of an
    inherited function, or that of [Object.prototype] itself. *)
Definition inherited (key : string) : option string :=
  if String.eqb key "__proto__" then Some "[object Object]"
  else if existsb (String.eqb key) prototype_functions
       then Some (native_source key)
       else None.

(** [summary[key] = (summary[key] || 0) + 1]. The values that this stores
    are numbers and, for a key that [Object.prototype] has, strings. *)
Definition increment (summary : JRecord) (key : string) : JRecord :=
  Obj.assign summary key
    match Obj.get summary key with
    | Some (JNum n) => JNum (n + 1)
    | Some (JStr s) => if Str.truthy s then JStr (s ++ "1")%string else JNum 1
    | Some _ => JNum 1
    | None =>
        match inherited key with
        | Some text => JStr (text ++ "1")%string
        | None => JNum 1
        end
    end.

(** The loop that builds [byTool] and [byRegulation]. *)
Definition summarize (entries : list AuditEntry) : JRecord * JRecord :=
  fold_left
    (fun (acc : JRecord * JRecord) (e : AuditEntry) =>
       (increment (fst acc) (tool e),
        fold_left increment (regulations (compliance e)) (snd acc)))
    entries ([], []).

Definition occ_entry (e : AuditEntry) : JRecord :=
  [ ("auditId", JStr (auditId e));
    ("timestamp", JStr (timestamp e));
    ("tool", JStr (tool e));
    ("command", JStr (command e));
    ("toolVersion", JStr (toolVersion e));
    ("operator", JStr (operator e)) ]
  ++ Json.prop "loanId" (option_map JStr (loanId e))
  ++ [ ("rationale", JStr (rationale e));
       ("warnings", Json.strings (warnings e));
       ("compliance", compliance_json (compliance e)) ]
  ++ Json.prop "integrityHash" (option_map JStr (entryHash e)).

Definition occ_output (now : string) (entries : list AuditEntry) : JRecord :=
  let bound := fun (i : nat) =>
    if (0 <? List.length entries)%nat
    then match nth_error entries i with
         | Some e => JStr (timestamp e)
         | None => JNull
         end
    else JNull in
  [ ("exportDate", JStr now);
    ("exportFormat", JStr "OCC Examination Ready");
    ("totalEntries", JNum (Z.of_nat (List.length entries)));
    ("dateRange",
     JObj [ ("start", bound 0);
            ("end", bound (List.length entries - 1)) ]);
    ("summary",
     JObj [ ("byTool", JObj (fst (summarize entries)));
            ("byRegulation", JObj (snd (summarize entries)));
            ("riskFlagged",
             JNum (Z.of_nat
                     (List.length
                        (filter (fun e => (0 <? List.length
                                                  (riskFlags (compliance e)))%nat)
                                entries))));
            ("humanReviewRequired",
             JNum (Z.of_nat
                     (List.length
                        (filter (fun e => humanReviewRequired (compliance e))
                                entries)))) ]);
    ("entries", JArr (map (fun e => JObj (occ_entry e)) entries)) ].

Definition formatAsOCC (now : string) (entries : list AuditEntry) : string :=
  stringify_indented "  " "" (JObj (occ_output now entries)).

End Summaries.

End ExportFormats.

(** *** formatAsCSV *)

Module Csv.

(** [String.prototype.replace] of every double quote by two of them. *)
Fixpoint double_quotes (s : string) : string :=
  match s with
  | EmptyString => EmptyString
  | String c r =>
      if Ascii.eqb c Json.dquote
      then String Json.dquote (String Json.dquote (double_quotes r))
      else String c (double_quotes r)
  end.

(** A cell between double quotes. *)
Definition cell (s : string) : string :=
  String Json.dquote (s ++ String Json.dquote EmptyString)%string.

Definition headers : list string :=
  [ "audit_id"; "timestamp"; "tool"; "command"; "tool_version"; "operator";
    "loan_id"; "session_id"; "rationale"; "warnings"; "regulations";
    "risk_flags"; "human_review_required"; "duration_ms"; "entry_hash" ].

Definition row (e : AuditEntry) : list string :=
  [ auditId e;
    timestamp e;
    tool e;
    command e;
    toolVersion e;
    operator e;
    or_else_str (loanId e) "";
    or_else_str (sessionId e) "";
    cell (double_quotes (rationale e));
    cell (String.concat "; " (warnings e));
    cell (String.concat "; " (regulations (compliance e)));
    cell (String.concat "; " (riskFlags (compliance e)));
    if humanReviewRequired (compliance e) then "true" else "false";
    or_else_str (option_map Json.number (durationMs e)) "";
    or_else_str (entryHash e) "" ].

(** [formatAsCSV(entries)] *)
Definition formatAsCSV (entries : list AuditEntry) : string :=
  String.concat newline
    (String.concat "," headers
       :: map (fun e => String.concat "," (row e)) entries).

End Csv.

(** ** auditctl replay *)

Module Replay.

(** The verification block that the command reports. *)
Record Verification : Type := mkVerification
  { hashValid : bool;
    computedHash : string;
    storedHash : option string }.

(** What the command does for [--id]: no entry with that id, or the
    entry found and the verification of its hash. *)
Inductive Outcome : Type :=
| NotFound
| Replayed (entry : Ref) (verification : Verification).

Definition run (file : File) (id : string) : Outcome :=
  match FileStorage.getById file id with
  | None => NotFound
  | Some entry =>
      let computedHash := computeEntryHash entry in
      let hashValid := opt_str_eqb (Some computedHash) (entryHash entry) in
      Replayed entry (mkVerification hashValid computedHash (entryHash entry))
  end.

(** The exit status: [process.exit(1)] when the entry is not found or its
    hash does not match, 0 otherwise. *)
Definition exit_status (o : Outcome) : Z :=
  match o with
  | NotFound => 1
  | Replayed _ v => if hashValid v then 0 else 1
  end.

End Replay.

(** ** auditctl verify *)

Module Verify.

(** The exit status of [auditctl verify --from fromDate]: 1 when the
    result is not valid (or when the verification throws), 0 otherwise. *)
Definition exit_status (getTime : string -> option Z) (file : File)
    (fromDate : option string) : Z :=
  match FileStorage.verifyIntegrity getTime file fromDate with
  | Some result => if Result.valid result then 0 else 1
  | None => 1
  end.

End Verify.

(* ================================================================== *)
(** * Properties *)

(** ** The digest is 64 lowercase hexadecimal characters *)

Lemma length_append (s t : string) :
  String.length (s ++ t) = String.length s + String.length t.
Proof. induction s as [|c s IH]; simpl; [reflexivity | now rewrite IH]. Qed.

Lemma allLowerHex_append (s t : string) :
  Hex.allLowerHex (s ++ t)
  = Hex.allLowerHex s && Hex.allLowerHex t.
Proof.
  induction s as [|c s IH]; simpl; [reflexivity|].
  now rewrite IH, andb_assoc.
Qed.

Lemma digit_isLowerHex (n : Z) : Hex.isLowerHex (Hex.digit n) = true.
Proof.
  unfold Hex.digit.
  assert (H : (0 <= Z.land n 15 < 16)%Z).
  { change 15%Z with (Z.ones 4). rewrite Z.land_ones by lia.
    apply Z.mod_pos_bound. reflexivity. }
  set (d := Z.land n 15) in *.
  assert (E : (d = 0 \/ d = 1 \/ d = 2 \/ d = 3 \/ d = 4 \/ d = 5 \/ d = 6
               \/ d = 7 \/ d = 8 \/ d = 9 \/ d = 10 \/ d = 11 \/ d = 12
               \/ d = 13 \/ d = 14 \/ d = 15)%Z) by lia.
  repeat (destruct E as [E|E]; [rewrite E; reflexivity|]).
  rewrite E; reflexivity.
Qed.

Lemma word32_shape (w : Z) :
  String.length (Hex.word32 w) = 8 /\ Hex.allLowerHex (Hex.word32 w) = true.
Proof.
  split; [reflexivity|].
  unfold Hex.word32. cbn [Hex.allLowerHex].
  rewrite !digit_isLowerHex. reflexivity.
Qed.

Lemma sha256_hex_shape (content : string) :
  String.length (SHA256.sha256_hex content) = 64
  /\ Hex.allLowerHex (SHA256.sha256_hex content) = true.
Proof.
  unfold SHA256.sha256_hex, SHA256.hex.
  generalize (SHA256.digest (bytes_of_string content)); intros r.
  split.
  - rewrite !length_append.
    repeat rewrite (proj1 (word32_shape _)). reflexivity.
  - rewrite !allLowerHex_append.
    repeat rewrite (proj2 (word32_shape _)). reflexivity.
Qed.

Lemma hash_content_with_entryHash (e : AuditEntry) (h : option string) :
  hash_content (with_entryHash e h) = hash_content e.
Proof. reflexivity. Qed.

(** C7. computeEntryHash is a function of the sixteen hashed fields only:
    two entries that agree on everything but their stored entryHash get
    the same digest (in particular the same entry always gets the same
    digest, and the entryHash field is no part of the hash input); the
    digest is 64 characters long, each one of 0-9 a-f. *)
Theorem computeEntryHash_pure_hex64 :
  forall e e' : AuditEntry,
    with_entryHash e None = with_entryHash e' None ->
    computeEntryHash e = computeEntryHash e'
    /\ String.length (computeEntryHash e) = 64
    /\ Hex.allLowerHex (computeEntryHash e) = true
    /\ (forall h, computeEntryHash (with_entryHash e h) = computeEntryHash e).
Proof.
  intros e e' H.
  split; [|split; [|split]].
  - unfold computeEntryHash, canonical.
    rewrite <- (hash_content_with_entryHash e None).
    rewrite <- (hash_content_with_entryHash e' None).
    now rewrite H.
  - apply sha256_hex_shape.
  - apply sha256_hex_shape.
  - intros h. unfold computeEntryHash, canonical.
    now rewrite hash_content_with_entryHash.
Qed.

(** ** Induction on JSON values *)

(** Induction on a JSON value and on the values inside it. *)
Lemma JSON_induction (P : JSON -> Prop) :
  P JNull -> (forall b, P (JBool b)) -> (forall n, P (JNum n)) ->
  (forall s, P (JStr s)) ->
  (forall items, Forall P items -> P (JArr items)) ->
  (forall props, Forall (fun kv => P (snd kv)) props -> P (JObj props)) ->
  forall v, P v.
Proof.
  intros HN HB HZ HS HA HO.
  fix IH 1. intros [ | b | n | s | items | props ].
  - exact HN.
  - apply HB.
  - apply HZ.
  - apply HS.
  - apply HA. induction items as [|x items IHl]; constructor; [apply IH | exact IHl].
  - apply HO. induction props as [|kv props IHl]; constructor;
      [apply IH | exact IHl].
Qed.


Lemma append_assoc (a b c : string) : ((a ++ b) ++ c = a ++ (b ++ c))%string.
Proof. induction a as [|x a IH]; cbn; [reflexivity | now rewrite IH]. Qed.

Arguments computeEntryHash : simpl never.

(** ** Reading the file *)

(** The entries of the lines that hold one, top to bottom. *)
Definition stored (file : File) : list AuditEntry :=
  flat_map (fun l => match as_read l with Stored e => [e] | _ => [] end) file.

(** The text of the lines on which [JSON.parse] throws. *)
Definition malformed (file : File) : list string :=
  flat_map (fun l => match as_read l with Malformed t => [t] | _ => [] end)
           file.

Definition is_malformed (l : Line) : bool :=
  match as_read l with Malformed _ => true | _ => false end.

Definition warning (text : string) : string :=
  ("Warning: Invalid JSON line in audit log: " ++ text)%string.

(** Objects allocated one after the other, the first with identity [i]. *)
Fixpoint refs_from (i : nat) (es : list AuditEntry) : list Ref :=
  match es with
  | [] => []
  | e :: r => mkRef i e :: refs_from (S i) r
  end.

Lemma refs_from_app (es es' : list AuditEntry) (i : nat) :
  refs_from i (es ++ es')
  = refs_from i es ++ refs_from (i + List.length es) es'.
Proof.
  revert i; induction es as [|e es IH]; intros i; simpl.
  - now rewrite Nat.add_0_r.
  - rewrite IH. do 3 f_equal. lia.
Qed.

Lemma refs_from_length (es : list AuditEntry) (i : nat) :
  List.length (refs_from i es) = List.length es.
Proof. revert i; induction es; intros; simpl; auto. Qed.

Lemma refs_from_val (es : list AuditEntry) (i : nat) :
  map val (refs_from i es) = es.
Proof. revert i; induction es; intros; simpl; [|rewrite IHes]; auto. Qed.

Lemma refs_from_nth (es : list AuditEntry) (i n : nat) (r : Ref) :
  nth_error (refs_from i es) n = Some r ->
  oid r = i + n /\ nth_error es n = Some (val r).
Proof.
  revert i n; induction es as [|e es IH]; intros i n H.
  - destruct n; discriminate.
  - destruct n as [|n]; simpl in H.
    + injection H as <-. simpl. split; [lia | reflexivity].
    + apply IH in H. simpl. split; [lia | tauto].
Qed.

Lemma refs_from_nth_some (es : list AuditEntry) (i n : nat) (e : AuditEntry) :
  nth_error es n = Some e ->
  nth_error (refs_from i es) n = Some (mkRef (i + n) e).
Proof.
  revert i n; induction es as [|x es IH]; intros i n H.
  - destruct n; discriminate.
  - destruct n as [|n]; simpl in *.
    + injection H as ->. now rewrite Nat.add_0_r.
    + rewrite (IH (S i) n H). do 2 f_equal. lia.
Qed.

Lemma refs_from_In (es : list AuditEntry) (i : nat) (r : Ref) :
  In r (refs_from i es) ->
  exists n, nth_error (refs_from i es) n = Some r /\ oid r = i + n.
Proof.
  intros H. apply In_nth_error in H. destruct H as [n H].
  exists n. split; [exact H|]. now apply refs_from_nth in H.
Qed.

Lemma read_from (file : File) (st : list Ref * list string) :
  fold_left FileStorage.read_line file st
  = (fst st ++ refs_from (List.length (fst st)) (stored file),
     snd st ++ map warning (malformed file)).
Proof.
  revert st; induction file as [|l file IH]; intros [es ws]; simpl.
  - now rewrite !app_nil_r.
  - rewrite IH. unfold FileStorage.read_line.
    destruct (as_read l) as [|t|e|t p]; simpl.
    + reflexivity.
    + now rewrite <- app_assoc.
    + rewrite <- app_assoc, length_app. simpl.
      now rewrite Nat.add_1_r.
    + reflexivity.
Qed.

Lemma readAllEntries_refs (file : File) :
  FileStorage.readAllEntries file = refs_from 0 (stored file).
Proof.
  unfold FileStorage.readAllEntries, FileStorage.read.
  now rewrite read_from.
Qed.

Lemma warningsPrinted_malformed (file : File) :
  FileStorage.warningsPrinted file = map warning (malformed file).
Proof.
  unfold FileStorage.warningsPrinted, FileStorage.read.
  now rewrite read_from.
Qed.

Lemma stored_app (f g : File) : stored (f ++ g) = stored f ++ stored g.
Proof. unfold stored. apply flat_map_app. Qed.

Lemma stored_without_malformed (file : File) :
  stored (filter (fun l => negb (is_malformed l)) file) = stored file.
Proof.
  induction file as [|l file IH]; [reflexivity|].
  cbn [filter]. unfold is_malformed at 1.
  destruct (as_read l) eqn:E; cbn [negb]; unfold stored in *;
    cbn [flat_map]; rewrite ?E, IH; reflexivity.
Qed.

(** A line that is parsed and on which [JSON.parse] throws. *)
Definition rejected (JSON_parse : string -> option AuditEntry)
    (line : string) : bool :=
  negb (Str.isBlank line)
  && match JSON_parse line with Some _ => false | None => true end.

(** The entry of a line, if the line has one. *)
Definition entry_of (JSON_parse : string -> option AuditEntry)
    (line : string) : list AuditEntry :=
  if Str.isBlank line then []
  else match JSON_parse line with Some e => [e] | None => [] end.

Lemma is_malformed_classify (JSON_parse : string -> option AuditEntry)
    (line : string) :
  is_malformed (classify JSON_parse line) = rejected JSON_parse line.
Proof.
  unfold classify, rejected.
  destruct (Str.isBlank line); [reflexivity|].
  now destruct (JSON_parse line).
Qed.

Lemma stored_load (JSON_parse : string -> option AuditEntry)
    (lines : list string) :
  stored (load JSON_parse lines) = flat_map (entry_of JSON_parse) lines.
Proof.
  unfold stored, load. induction lines as [|l lines IH]; [reflexivity|].
  cbn [map flat_map]. rewrite IH. f_equal.
  unfold classify, entry_of.
  destruct (Str.isBlank l); [reflexivity|]. now destruct (JSON_parse l).
Qed.

Lemma malformed_load (JSON_parse : string -> option AuditEntry)
    (lines : list string) :
  malformed (load JSON_parse lines) = filter (rejected JSON_parse) lines.
Proof.
  unfold malformed, load. induction lines as [|l lines IH]; [reflexivity|].
  cbn [map flat_map filter]. rewrite IH.
  unfold classify, rejected.
  destruct (Str.isBlank l); [reflexivity|]. now destruct (JSON_parse l).
Qed.

Lemma load_without_rejected (JSON_parse : string -> option AuditEntry)
    (lines : list string) :
  load JSON_parse (filter (fun l => negb (rejected JSON_parse l)) lines)
  = filter (fun l => negb (is_malformed l)) (load JSON_parse lines).
Proof.
  unfold load. induction lines as [|l lines IH]; [reflexivity|].
  cbn [map filter]. rewrite is_malformed_classify.
  destruct (rejected JSON_parse l); cbn [negb map]; now rewrite IH.
Qed.

(** The file ends with a line feed, or is empty: its last line is not
    an unterminated one. *)
Definition terminated (file : File) : bool :=
  match List.last file Blank with
  | Unterminated _ _ => false
  | _ => true
  end.

Lemma last_cons {A : Type} (x y : A) (l : list A) (d : A) :
  List.last (x :: y :: l) d = List.last (y :: l) d.
Proof. reflexivity. Qed.

(** After a line feed the entry is a line of its own. *)
Lemma append_terminated (file : File) (entry : AuditEntry) :
  terminated file = true ->
  FileStorage.append file entry = file ++ [Stored entry].
Proof.
  unfold terminated. induction file as [|l file IH]; [reflexivity|].
  destruct file as [|l' file].
  - cbn. destruct l; [reflexivity | reflexivity | reflexivity | discriminate].
  - rewrite last_cons. intros H. specialize (IH H).
    assert (E : FileStorage.append (l :: l' :: file) entry
                = l :: FileStorage.append (l' :: file) entry)
      by (now destruct l).
    rewrite E, IH. reflexivity.
Qed.

Lemma terminated_snoc (file : File) (l : Line) :
  terminated (file ++ [l])
  = match l with Unterminated _ _ => false | _ => true end.
Proof. unfold terminated. now rewrite last_last. Qed.

(** An append always leaves a file that ends with a line feed. *)
Lemma terminated_append (file : File) (entry : AuditEntry) :
  terminated (FileStorage.append file entry) = true.
Proof.
  induction file as [|l file IH]; [reflexivity|].
  destruct file as [|l' file].
  - destruct l as [ | t | e | t p]; try reflexivity.
    cbn. now destruct (Str.jsonBlank t).
  - assert (E : FileStorage.append (l :: l' :: file) entry
                = l :: FileStorage.append (l' :: file) entry)
      by (now destruct l).
    rewrite E. unfold terminated in *.
    destruct (FileStorage.append (l' :: file) entry) as [|x r] eqn:A.
    + destruct l'; destruct file; discriminate A.
    + now rewrite last_cons.
Qed.

Lemma terminated_load (JSON_parse : string -> option AuditEntry)
    (lines : list string) :
  terminated (load JSON_parse lines) = true.
Proof.
  destruct lines as [|l lines] using rev_ind; [reflexivity|].
  unfold load. rewrite map_app. cbn [map]. rewrite terminated_snoc.
  unfold classify. destruct (Str.isBlank l); [reflexivity|].
  now destruct (JSON_parse l).
Qed.

(** The line that [append] writes is not blank; when [JSON.parse] reads
    it back as the entry written, the file after the append is the file
    before it with that entry at the end. *)
Lemma load_appended (JSON_parse : string -> option AuditEntry)
    (lines : list string) (entry : AuditEntry) :
  JSON_parse (entry_text entry) = Some entry ->
  load JSON_parse (lines ++ [entry_text entry])
  = FileStorage.append (load JSON_parse lines) entry.
Proof.
  intros H. rewrite append_terminated by apply terminated_load.
  unfold load. rewrite map_app. f_equal.
  cbn [map]. unfold classify. rewrite H.
  now replace (Str.isBlank (entry_text entry)) with false by reflexivity.
Qed.

(** C9. Reading a file some of whose lines [JSON.parse] rejects: the
    entries returned are those of all the other lines, in file order (a
    line of white space is not parsed and holds no entry); there is one
    warning for each rejected line and nothing else is printed; and the
    entries read, every query, every count and every verification are
    the same as on the file without the rejected lines. The read itself
    always returns. *)
Theorem malformed_lines_are_skipped :
  forall (getTime : string -> option Z)
         (JSON_parse : string -> option AuditEntry) (lines : list string),
    let file := load JSON_parse lines in
    let kept :=
      load JSON_parse
           (filter (fun l => negb (rejected JSON_parse l)) lines) in
    map val (FileStorage.readAllEntries file)
    = flat_map (entry_of JSON_parse) lines
    /\ FileStorage.warningsPrinted file
       = map warning (filter (rejected JSON_parse) lines)
    /\ FileStorage.readAllEntries file = FileStorage.readAllEntries kept
    /\ (forall o, FileStorage.query getTime file o
                  = FileStorage.query getTime kept o)
    /\ (forall o, FileStorage.count getTime file o
                  = FileStorage.count getTime kept o)
    /\ (forall d, FileStorage.verifyIntegrity getTime file d
                  = FileStorage.verifyIntegrity getTime kept d).
Proof.
  intros getTime JSON_parse lines file kept.
  assert (E : FileStorage.readAllEntries file = FileStorage.readAllEntries kept).
  { rewrite !readAllEntries_refs. unfold kept, file.
    now rewrite load_without_rejected, stored_without_malformed. }
  split; [|split; [|split; [|split; [|split]]]].
  - rewrite readAllEntries_refs, refs_from_val. apply stored_load.
  - rewrite warningsPrinted_malformed. f_equal. apply malformed_load.
  - exact E.
  - intros o. unfold FileStorage.query. now rewrite E.
  - intros [o|]; unfold FileStorage.count, FileStorage.query; now rewrite E.
  - intros d. unfold FileStorage.verifyIntegrity. now rewrite E.
Qed.

(** ** Queries *)

Lemma filter_filter {A : Type} (p q : A -> bool) (l : list A) :
  filter q (filter p l) = filter (fun x => p x && q x) l.
Proof.
  induction l as [|x l IH]; simpl; [reflexivity|].
  destruct (p x); simpl; [destruct (q x)|]; now rewrite IH.
Qed.

Lemma filter_all {A : Type} (l : list A) : filter (fun _ => true) l = l.
Proof. induction l; simpl; congruence. Qed.

Lemma filter_when {A B : Type} (c : option B) (f : B -> A -> bool) (l : list A) :
  match c with Some v => filter (f v) l | None => l end
  = filter (fun e => match c with Some v => f v e | None => true end) l.
Proof. destruct c; [reflexivity | now rewrite filter_all]. Qed.

Lemma filter_when_true {A : Type} (c : option bool) (p : A -> bool) (l : list A) :
  match c with Some true => filter p l | _ => l end
  = filter (fun e => match c with Some true => p e | _ => true end) l.
Proof. destruct c as [[|]|]; now rewrite ?filter_all. Qed.

Lemma slice_all {A : Type} (l : list A) (first : Z) :
  (0 <= first)%Z ->
  FileStorage.slice l first (first + Z.of_nat (List.length l))
  = skipn (Z.to_nat first) l.
Proof.
  intros H. unfold FileStorage.slice.
  set (len := Z.of_nat (List.length l)).
  assert (Hlen : (0 <= len)%Z) by (unfold len; lia).
  replace (first <? 0)%Z with false by (symmetry; apply Z.ltb_ge; lia).
  replace (first + len <? 0)%Z with false by (symmetry; apply Z.ltb_ge; lia).
  replace (Z.min (first + len) len) with len by lia.
  destruct (Z.le_gt_cases first len) as [Hle|Hgt].
  - replace (Z.min first len) with first by lia.
    apply firstn_all2. rewrite length_skipn. unfold len in *. lia.
  - replace (Z.min first len) with len by lia.
    replace (Z.max (len - len) 0) with 0%Z by lia. simpl.
    rewrite skipn_all2 by (unfold len in *; lia).
    reflexivity.
Qed.

Lemma slice_nil {A : Type} (first last : Z) :
  FileStorage.slice (@nil A) first last = [].
Proof.
  unfold FileStorage.slice. rewrite skipn_nil. apply firstn_nil.
Qed.

Section QuerySpec.

Variable getTime : string -> option Z.

(** The conjunction of the filters that are set, on one entry. *)
Definition matches (o : Query.t) (e : AuditEntry) : bool :=
  match FileStorage.given (Query.loanId o) with
  | Some v => opt_str_eqb (loanId e) (Some v) | None => true end
  && match FileStorage.given (Query.tool o) with
     | Some v => String.eqb (tool e) v | None => true end
  && match FileStorage.given (Query.command o) with
     | Some v => String.eqb (command e) v | None => true end
  && match FileStorage.given (Query.operator o) with
     | Some v => String.eqb (operator e) v | None => true end
  && match FileStorage.given (Query.sessionId o) with
     | Some v => opt_str_eqb (sessionId e) (Some v) | None => true end
  && match FileStorage.given (Query.startDate o) with
     | Some v => FileStorage.time_ge (getTime (timestamp e)) (getTime v)
     | None => true end
  && match FileStorage.given (Query.endDate o) with
     | Some v => FileStorage.time_le (getTime (timestamp e)) (getTime v)
     | None => true end
  && match Query.hasRiskFlags o with
     | Some true => (0 <? List.length (riskFlags (compliance e)))%nat
     | _ => true end
  && match Query.humanReviewRequired o with
     | Some b => Bool.eqb (humanReviewRequired (compliance e)) b
     | None => true end.

(** The page: [offset || 0] and [limit || filtered.length]. *)
Definition page_offset (o : Query.t) : Z :=
  match Query.offset o with Some n => n | None => 0%Z end.

Definition page_limit (o : Query.t) (matching : nat) : Z :=
  match Query.limit o with
  | Some n => if (n =? 0)%Z then Z.of_nat matching else n
  | None => Z.of_nat matching
  end.

Lemma query_filter_page (file : File) (o : Query.t) :
  let matching :=
    filter (fun e : Ref => matches o e) (FileStorage.readAllEntries file) in
  FileStorage.query getTime file o
  = FileStorage.slice matching (page_offset o)
      (page_offset o + page_limit o (List.length matching)).
Proof.
  unfold FileStorage.query. cbv zeta.
  match goal with
  | |- FileStorage.slice ?X _ _ = _ =>
      assert (E : X = filter (fun e : Ref => matches o e)
                        (FileStorage.readAllEntries file))
  end.
  { rewrite (filter_when (FileStorage.given (Query.loanId o))
               (fun v (e : Ref) => opt_str_eqb (loanId e) (Some v))).
    rewrite (filter_when (FileStorage.given (Query.tool o))
               (fun v (e : Ref) => String.eqb (tool e) v)).
    rewrite (filter_when (FileStorage.given (Query.command o))
               (fun v (e : Ref) => String.eqb (command e) v)).
    rewrite (filter_when (FileStorage.given (Query.operator o))
               (fun v (e : Ref) => String.eqb (operator e) v)).
    rewrite (filter_when (FileStorage.given (Query.sessionId o))
               (fun v (e : Ref) => opt_str_eqb (sessionId e) (Some v))).
    rewrite (filter_when (FileStorage.given (Query.startDate o))
               (fun v (e : Ref) =>
                  FileStorage.time_ge (getTime (timestamp e)) (getTime v))).
    rewrite (filter_when (FileStorage.given (Query.endDate o))
               (fun v (e : Ref) =>
                  FileStorage.time_le (getTime (timestamp e)) (getTime v))).
    rewrite (filter_when_true (Query.hasRiskFlags o)
               (fun e : Ref =>
                  (0 <? List.length (riskFlags (compliance e)))%nat)).
    rewrite (filter_when (Query.humanReviewRequired o)
               (fun b (e : Ref) =>
                  Bool.eqb (humanReviewRequired (compliance e)) b)).
    rewrite !filter_filter.
    apply filter_ext. intros a. unfold matches.
    rewrite ?andb_assoc. reflexivity. }
  rewrite E.
  unfold page_offset, page_limit.
  destruct (Query.offset o) as [n|]; [|reflexivity].
  destruct (Z.eqb_spec n 0) as [->|_]; reflexivity.
Qed.

End QuerySpec.

(** C8. [query] returns the entries that satisfy every filter that is set
    (a non-empty loanId, tool, command, operator or sessionId to be equal
    to, a start and an end date as bounds on the time stamp, hasRiskFlags
    for a non-empty riskFlags list, humanReviewRequired to be equal to),
    in the order of the file, and then cuts the page
    [slice(offset, offset + limit)] out of them; with no limit the page
    runs to the last match, so all matches are returned when there is no
    offset either; when nothing matches, on an empty log or otherwise, the
    result is the empty list. *)
Theorem query_conjunctive_filter_then_page :
  forall (getTime : string -> option Z) (file : File) (o : Query.t),
    let entries := FileStorage.readAllEntries file in
    let matching := filter (fun e : Ref => matches getTime o e) entries in
    map val entries = stored file
    /\ FileStorage.query getTime file o
       = FileStorage.slice matching (page_offset o)
           (page_offset o + page_limit o (List.length matching))
    /\ (page_limit o (List.length matching) = Z.of_nat (List.length matching) ->
        (0 <= page_offset o)%Z ->
        FileStorage.query getTime file o
        = skipn (Z.to_nat (page_offset o)) matching)
    /\ (page_limit o (List.length matching) = Z.of_nat (List.length matching) ->
        page_offset o = 0%Z ->
        FileStorage.query getTime file o = matching)
    /\ (matching = [] -> FileStorage.query getTime file o = []).
Proof.
  intros getTime file o entries matching.
  pose proof (query_filter_page getTime file o) as Q. cbv zeta in Q.
  fold entries in Q. fold matching in Q.
  split; [|split; [|split; [|split]]].
  - unfold entries. rewrite readAllEntries_refs. apply refs_from_val.
  - exact Q.
  - intros Hl Ho. rewrite Q, Hl. now apply slice_all.
  - intros Hl Ho. rewrite Q, Hl, Ho.
    rewrite slice_all by lia. reflexivity.
  - intros Hm. rewrite Q, Hm. apply slice_nil.
Qed.

(** ** The verifier *)

(** Object identity: the entries read from a file are allocated in line
    order, so [indexOf] finds each one at its own position. *)
Lemma indexOf_from_refs (es : list AuditEntry) (i n : nat) (k : Z) (r : Ref) :
  nth_error (refs_from i es) n = Some r ->
  FileStorage.indexOf_from k (refs_from i es) r = (k + Z.of_nat n)%Z.
Proof.
  revert i n k; induction es as [|e es IH]; intros i n k H.
  - destruct n; discriminate.
  - pose proof (refs_from_nth _ _ _ _ H) as [Hoid _].
    destruct n as [|n]; simpl in *.
    + injection H as <-. simpl. rewrite Nat.eqb_refl. lia.
    + destruct (Nat.eqb_spec i (oid r)) as [E|_]; [lia|].
      rewrite (IH (S i) n (k + 1)%Z H). lia.
Qed.

Lemma indexOf_read (file : File) (n : nat) (r : Ref) :
  nth_error (FileStorage.readAllEntries file) n = Some r ->
  FileStorage.indexOf (FileStorage.readAllEntries file) r = Z.of_nat n.
Proof.
  rewrite readAllEntries_refs. intros H. unfold FileStorage.indexOf.
  now rewrite (indexOf_from_refs _ _ _ _ _ H).
Qed.

(** The entry stored just before [entry], as the loop finds it. *)
Definition predecessor (entries : list Ref) (entry : Ref) : option Ref :=
  let entryIndex := FileStorage.indexOf entries entry in
  if (0 <? entryIndex)%Z
  then nth_error entries (Z.to_nat (entryIndex - 1))
  else None.

Lemma predecessor_read (file : File) (n : nat) (r : Ref) :
  nth_error (FileStorage.readAllEntries file) n = Some r ->
  predecessor (FileStorage.readAllEntries file) r
  = match n with
    | O => None
    | S m => nth_error (FileStorage.readAllEntries file) m
    end.
Proof.
  intros H. unfold predecessor. rewrite (indexOf_read _ _ _ H).
  destruct n as [|m]; [reflexivity|].
  replace (0 <? Z.of_nat (S m))%Z with true by (symmetry; apply Z.ltb_lt; lia).
  f_equal. lia.
Qed.

Lemma predecessor_defined (file : File) (n : nat) (r : Ref) :
  nth_error (FileStorage.readAllEntries file) (S n) = Some r ->
  exists p, nth_error (FileStorage.readAllEntries file) n = Some p.
Proof.
  intros H.
  destruct (nth_error (FileStorage.readAllEntries file) n) as [p|] eqn:E.
  - now exists p.
  - apply nth_error_None in E.
    assert (nth_error (FileStorage.readAllEntries file) (S n) <> None)
      by congruence.
    apply nth_error_Some in H0. lia.
Qed.

Definition previous_failure (p e : AuditEntry) : Failure.t :=
  Failure.mk (auditId e) (timestamp e) FileStorage.reason_previous
             (entryHash p) (previousHash e).

Definition hash_failure (e : AuditEntry) : Failure.t :=
  Failure.mk (auditId e) (timestamp e) FileStorage.reason_entry
             (entryHash e) (Some (computeEntryHash e)).

Definition chained (p e : AuditEntry) : bool :=
  opt_str_eqb (previousHash e) (entryHash p).

Definition sealed (e : AuditEntry) : bool :=
  opt_str_eqb (Some (computeEntryHash e)) (entryHash e).

(** The rule for one entry, given the entry stored just before it (none
    for the first entry of the file): the failures it is reported with. *)
Definition verdict (previous : option AuditEntry) (e : AuditEntry)
  : list Failure.t :=
  match previous with
  | Some p =>
      if chained p e
      then (if sealed e then [] else [hash_failure e])
      else [previous_failure p e]
  | None => if sealed e then [] else [hash_failure e]
  end.

Definition passes (previous : option AuditEntry) (e : AuditEntry) : nat :=
  match verdict previous e with [] => 1 | _ => 0 end.

Lemma verdict_length (previous : option AuditEntry) (e : AuditEntry) :
  List.length (verdict previous e) + passes previous e = 1.
Proof.
  unfold passes, verdict.
  destruct previous as [p|]; [destruct (chained p e)|];
    try destruct (sealed e); reflexivity.
Qed.

(** One turn of the loop on an entry of the file, in terms of the entry
    stored just before it. *)
Lemma check_read (file : File) (st : list Failure.t * nat) (n : nat) (e : Ref) :
  nth_error (FileStorage.readAllEntries file) n = Some e ->
  FileStorage.check (FileStorage.readAllEntries file) st e
  = Some (fst st
            ++ verdict (option_map val
                          (predecessor (FileStorage.readAllEntries file) e)) e,
          snd st
            + passes (option_map val
                        (predecessor (FileStorage.readAllEntries file) e)) e).
Proof.
  intros H.
  rewrite (predecessor_read _ _ _ H).
  unfold FileStorage.check. cbv zeta.
  rewrite (indexOf_read _ _ _ H).
  destruct n as [|m].
  - simpl (0 <? Z.of_nat 0)%Z. cbv iota.
    unfold passes, verdict, option_map, sealed.
    destruct (opt_str_eqb (Some (computeEntryHash e)) (entryHash e));
      cbn [negb fst snd]; f_equal; f_equal;
      rewrite ?app_nil_r, ?Nat.add_0_r, ?Nat.add_1_r; reflexivity.
  - replace (0 <? Z.of_nat (S m))%Z with true
      by (symmetry; apply Z.ltb_lt; lia).
    replace (Z.to_nat (Z.of_nat (S m) - 1)) with m by lia.
    destruct (predecessor_defined _ _ _ H) as [p Hp].
    rewrite Hp.
    unfold passes, verdict, option_map, chained, sealed.
    destruct (opt_str_eqb (previousHash e) (entryHash p));
      [destruct (opt_str_eqb (Some (computeEntryHash e)) (entryHash e))|];
      cbn [negb fst snd]; f_equal; f_equal;
      rewrite ?app_nil_r, ?Nat.add_0_r, ?Nat.add_1_r; reflexivity.
Qed.

(** The failures and the number of passes over a list of entries. *)
Definition report (entries checked : list Ref) : list Failure.t :=
  flat_map (fun e : Ref => verdict (option_map val (predecessor entries e)) e)
           checked.

Definition tally (entries checked : list Ref) : nat :=
  list_sum (map (fun e : Ref => passes (option_map val (predecessor entries e)) e)
                checked).

Lemma report_tally_length (entries checked : list Ref) :
  List.length (report entries checked) + tally entries checked
  = List.length checked.
Proof.
  unfold report, tally. induction checked as [|e l IH]; [reflexivity|].
  simpl. rewrite length_app.
  pose proof (verdict_length (option_map val (predecessor entries e)) e).
  lia.
Qed.

Lemma report_cons (entries : list Ref) (e : Ref) (l : list Ref) :
  report entries (e :: l)
  = verdict (option_map val (predecessor entries e)) e ++ report entries l.
Proof. reflexivity. Qed.

Lemma tally_cons (entries : list Ref) (e : Ref) (l : list Ref) :
  tally entries (e :: l)
  = passes (option_map val (predecessor entries e)) e + tally entries l.
Proof. reflexivity. Qed.

Lemma report_app (entries l l' : list Ref) :
  report entries (l ++ l') = report entries l ++ report entries l'.
Proof. unfold report. apply flat_map_app. Qed.

Lemma tally_app (entries l l' : list Ref) :
  tally entries (l ++ l') = tally entries l + tally entries l'.
Proof. unfold tally. rewrite map_app. apply list_sum_app. Qed.

Lemma check_fold (file : File) (checked : list Ref) (st : list Failure.t * nat) :
  (forall e, In e checked -> In e (FileStorage.readAllEntries file)) ->
  fold_left
    (fun acc entry =>
       match acc with
       | Some s => FileStorage.check (FileStorage.readAllEntries file) s entry
       | None => None
       end)
    checked (Some st)
  = Some (fst st ++ report (FileStorage.readAllEntries file) checked,
          snd st + tally (FileStorage.readAllEntries file) checked).
Proof.
  revert st.
  induction checked as [|e l IH]; intros st Hin.
  - simpl. unfold report, tally. simpl.
    rewrite app_nil_r, Nat.add_0_r. now destruct st.
  - destruct (In_nth_error _ e (Hin e (or_introl eq_refl))) as [n Hn].
    cbn [fold_left].
    rewrite (check_read file st n e Hn).
    rewrite IH by (intros x Hx; apply Hin; now right).
    cbn [fst snd]. unfold report, tally. cbn [flat_map map list_sum].
    now rewrite <- app_assoc, <- Nat.add_assoc.
Qed.

Lemma check_all_read (file : File) (checked : list Ref) :
  (forall e, In e checked -> In e (FileStorage.readAllEntries file)) ->
  FileStorage.check_all (FileStorage.readAllEntries file) checked
  = Some (report (FileStorage.readAllEntries file) checked,
          tally (FileStorage.readAllEntries file) checked).
Proof.
  intros Hin. unfold FileStorage.check_all.
  now rewrite (check_fold file checked ([], 0) Hin).
Qed.

Lemma toCheck_incl (getTime : string -> option Z) (entries : list Ref)
    (fromDate : option string) (e : Ref) :
  In e (FileStorage.toCheck getTime entries fromDate) -> In e entries.
Proof.
  unfold FileStorage.toCheck.
  destruct (FileStorage.given fromDate); [|auto].
  intros H. now apply filter_In in H.
Qed.

(** The result of a verification, in closed form. *)
Lemma verifyIntegrity_closed (getTime : string -> option Z) (file : File)
    (fromDate : option string) :
  FileStorage.verifyIntegrity getTime file fromDate
  = Some (Result.mk
            (Nat.eqb (List.length
                        (report (FileStorage.readAllEntries file)
                           (FileStorage.toCheck getTime
                              (FileStorage.readAllEntries file) fromDate))) 0)
            (List.length (FileStorage.toCheck getTime
                            (FileStorage.readAllEntries file) fromDate))
            (tally (FileStorage.readAllEntries file)
               (FileStorage.toCheck getTime
                  (FileStorage.readAllEntries file) fromDate))
            (List.length
               (report (FileStorage.readAllEntries file)
                  (FileStorage.toCheck getTime
                     (FileStorage.readAllEntries file) fromDate)))
            (report (FileStorage.readAllEntries file)
               (FileStorage.toCheck getTime
                  (FileStorage.readAllEntries file) fromDate))).
Proof.
  unfold FileStorage.verifyIntegrity.
  rewrite (check_all_read file); [reflexivity|].
  intros e. apply toCheck_incl.
Qed.

(** C3. A verification always returns a result. It reads the whole file;
    the entries reported on are those at or after [fromDate] (all of them
    without one), and [entriesChecked] counts exactly these; each of them
    is judged against the entry stored just before it in the whole file,
    inside the date range or not; [validEntries + invalidEntries] is
    [entriesChecked]; and [valid] holds exactly when [invalidEntries] is
    zero. *)
Theorem verifyIntegrity_full_set_and_counts :
  forall (getTime : string -> option Z) (file : File)
         (fromDate : option string),
  exists r : Result.t,
    FileStorage.verifyIntegrity getTime file fromDate = Some r
    /\ (let entries := FileStorage.readAllEntries file in
        let checked := FileStorage.toCheck getTime entries fromDate in
        map val entries = stored file
        /\ checked
           = match FileStorage.given fromDate with
             | Some d =>
                 filter (fun e : Ref =>
                           FileStorage.time_ge (getTime (timestamp e))
                                               (getTime d)) entries
             | None => entries
             end
        /\ Result.entriesChecked r = List.length checked
        /\ Result.failures r
           = flat_map (fun e : Ref =>
                         verdict (option_map val (predecessor entries e)) e)
                      checked
        /\ (forall n e, nth_error entries n = Some e ->
                        predecessor entries e
                        = match n with
                          | O => None
                          | S m => nth_error entries m
                          end)
        /\ Result.invalidEntries r = List.length (Result.failures r)
        /\ Result.validEntries r + Result.invalidEntries r
           = Result.entriesChecked r
        /\ (Result.valid r = true <-> Result.invalidEntries r = 0)).
Proof.
  intros getTime file fromDate.
  rewrite verifyIntegrity_closed.
  eexists. split; [reflexivity|]. cbv zeta. cbn [Result.entriesChecked
    Result.failures Result.invalidEntries Result.validEntries Result.valid].
  split; [rewrite readAllEntries_refs; apply refs_from_val|].
  split; [reflexivity|].
  split; [reflexivity|].
  split; [reflexivity|].
  split; [intros n e H; now apply predecessor_read|].
  split; [reflexivity|].
  split.
  - rewrite Nat.add_comm. apply report_tally_length.
  - apply Nat.eqb_eq.
Qed.

(** C5. An entry that is reported on and is not the first of the file is
    compared with the entry stored just before it. When its previousHash
    differs from that entry's entryHash, its turn of the loop adds one
    failure, "Previous hash mismatch" with the preceding entryHash as
    expectedHash and the stored previousHash as actualHash, and leaves
    validEntries as it was; in the result this is the only failure of the
    entry (its own hash is not looked at), between the failures of the
    entries checked before and after it. *)
Theorem previous_hash_mismatch_reported_once :
  forall (getTime : string -> option Z) (file : File)
         (fromDate : option string) (before after : list Ref)
         (p e : Ref) (n : nat),
    let entries := FileStorage.readAllEntries file in
    FileStorage.toCheck getTime entries fromDate = before ++ e :: after ->
    nth_error entries n = Some p ->
    nth_error entries (S n) = Some e ->
    opt_str_eqb (previousHash e) (entryHash p) = false ->
    let failure :=
      Failure.mk (auditId e) (timestamp e) "Previous hash mismatch"
                 (entryHash p) (previousHash e) in
    (forall st, FileStorage.check entries st e
                = Some (fst st ++ [failure], snd st))
    /\ exists fb vb fa va,
        FileStorage.check_all entries before = Some (fb, vb)
        /\ FileStorage.check_all entries after = Some (fa, va)
        /\ FileStorage.verifyIntegrity getTime file fromDate
           = Some (Result.mk false
                     (List.length (before ++ e :: after))
                     (vb + va)
                     (List.length (fb ++ failure :: fa))
                     (fb ++ failure :: fa)).
Proof.
  intros getTime file fromDate before after p e n entries Hc Hp He Hne failure.
  subst entries.
  assert (Hv : verdict (option_map val
                 (predecessor (FileStorage.readAllEntries file) e)) e
               = [failure]).
  { rewrite (predecessor_read _ _ _ He), Hp. cbn [option_map verdict].
    unfold chained. now rewrite Hne. }
  assert (Hpass : passes (option_map val
                 (predecessor (FileStorage.readAllEntries file) e)) e = 0).
  { unfold passes. now rewrite Hv. }
  assert (Hin : forall x, In x (before ++ e :: after) ->
                          In x (FileStorage.readAllEntries file)).
  { intros x Hx. rewrite <- Hc in Hx. now apply toCheck_incl in Hx. }
  split.
  - intros st. rewrite (check_read file st (S n) e He), Hv, Hpass.
    now rewrite Nat.add_0_r.
  - exists (report (FileStorage.readAllEntries file) before),
           (tally (FileStorage.readAllEntries file) before),
           (report (FileStorage.readAllEntries file) after),
           (tally (FileStorage.readAllEntries file) after).
    split; [|split].
    + apply check_all_read. intros x Hx. apply Hin, in_or_app. now left.
    + apply check_all_read. intros x Hx. apply Hin, in_or_app.
      right. now right.
    + rewrite verifyIntegrity_closed, Hc.
      rewrite report_app, tally_app, report_cons, tally_cons, Hv, Hpass.
      cbn [app Nat.add].
      replace (Nat.eqb (List.length
                 (report (FileStorage.readAllEntries file) before
                    ++ failure
                    :: report (FileStorage.readAllEntries file) after)) 0)
        with false; [reflexivity|].
      symmetry. apply Nat.eqb_neq. rewrite length_app. cbn [List.length]. lia.
Qed.

(** C4, as the code has it. An entry that is reported on, whose link to
    the entry before it holds (or that is the first of the file), and
    whose recomputed hash differs from its stored entryHash, gets one
    failure, "Entry hash mismatch - possible tampering", whose
    expectedHash is the stored entryHash and whose actualHash is the
    recomputed hash; validEntries is left as it was. *)
Theorem entry_hash_mismatch_record :
  forall (getTime : string -> option Z) (file : File)
         (fromDate : option string) (before after : list Ref) (e : Ref),
    let entries := FileStorage.readAllEntries file in
    FileStorage.toCheck getTime entries fromDate = before ++ e :: after ->
    (forall p, predecessor entries e = Some p ->
               opt_str_eqb (previousHash e) (entryHash p) = true) ->
    opt_str_eqb (Some (computeEntryHash e)) (entryHash e) = false ->
    let failure :=
      Failure.mk (auditId e) (timestamp e)
                 "Entry hash mismatch - possible tampering"
                 (entryHash e) (Some (computeEntryHash e)) in
    (forall st, FileStorage.check entries st e
                = Some (fst st ++ [failure], snd st))
    /\ exists fb vb fa va,
        FileStorage.check_all entries before = Some (fb, vb)
        /\ FileStorage.check_all entries after = Some (fa, va)
        /\ FileStorage.verifyIntegrity getTime file fromDate
           = Some (Result.mk false
                     (List.length (before ++ e :: after))
                     (vb + va)
                     (List.length (fb ++ failure :: fa))
                     (fb ++ failure :: fa)).
Proof.
  intros getTime file fromDate before after e entries Hc Hlink Hne failure.
  subst entries.
  assert (Hin : forall x, In x (before ++ e :: after) ->
                          In x (FileStorage.readAllEntries file)).
  { intros x Hx. rewrite <- Hc in Hx. now apply toCheck_incl in Hx. }
  destruct (In_nth_error _ e (Hin e (in_elt e before after))) as [n He].
  assert (Hv : verdict (option_map val
                 (predecessor (FileStorage.readAllEntries file) e)) e
               = [failure]).
  { destruct (predecessor (FileStorage.readAllEntries file) e) as [p|] eqn:Ep;
      cbn [option_map verdict]; unfold chained, sealed.
    - now rewrite (Hlink p eq_refl), Hne.
    - now rewrite Hne. }
  assert (Hpass : passes (option_map val
                 (predecessor (FileStorage.readAllEntries file) e)) e = 0).
  { unfold passes. now rewrite Hv. }
  split.
  - intros st. rewrite (check_read file st n e He), Hv, Hpass.
    now rewrite Nat.add_0_r.
  - exists (report (FileStorage.readAllEntries file) before),
           (tally (FileStorage.readAllEntries file) before),
           (report (FileStorage.readAllEntries file) after),
           (tally (FileStorage.readAllEntries file) after).
    split; [|split].
    + apply check_all_read. intros x Hx. apply Hin, in_or_app. now left.
    + apply check_all_read. intros x Hx. apply Hin, in_or_app.
      right. now right.
    + rewrite verifyIntegrity_closed, Hc.
      rewrite report_app, tally_app, report_cons, tally_cons, Hv, Hpass.
      cbn [app Nat.add].
      replace (Nat.eqb (List.length
                 (report (FileStorage.readAllEntries file) before
                    ++ failure
                    :: report (FileStorage.readAllEntries file) after)) 0)
        with false; [reflexivity|].
      symmetry. apply Nat.eqb_neq. rewrite length_app. cbn [List.length]. lia.
Qed.

(** ** A sample log *)

Definition sample_logger : Logger.t := Logger.create (Some "test-user") None.

Definition sample_options (cmd : string) (n : Z) : Options.t :=
  Options.mk "finctl" cmd "0.1.0"
    [("base", JNum n); ("ssn", JStr "123-45-6789")]
    [("monthlyIncome", JNum 7083)]
    "W-2 base income calculation"
    None None None None None (Some "LOAN-2026-001") None.

Definition sample_log1 : AuditEntry * File :=
  log sample_logger [] (sample_options "income w2" 85000)
      "id-1" "2026-01-01T00:00:00.000Z".

Definition sample_log2 : AuditEntry * File :=
  log sample_logger (snd sample_log1) (sample_options "dti" 7083)
      "id-2" "2026-01-02T00:00:00.000Z".

Definition sample_log3 : AuditEntry * File :=
  log sample_logger (snd sample_log2) (sample_options "ltv" 80)
      "id-3" "2026-01-03T00:00:00.000Z".

Definition sample_file : File := snd sample_log3.

(** A clock for the three sample days, in days since 2026-01-01. *)
Definition sample_clock (s : string) : option Z :=
  if String.eqb s "2026-01-01T00:00:00.000Z" then Some 0%Z
  else if String.eqb s "2026-01-02T00:00:00.000Z" then Some 1%Z
  else if String.eqb s "2026-01-03T00:00:00.000Z" then Some 2%Z
  else if String.eqb s "2026-01-02" then Some 1%Z
  else None.

Example sample_file_is_valid :
  FileStorage.verifyIntegrity sample_clock sample_file None
  = Some (Result.mk true 3 3 0 []).
Proof. vm_compute. reflexivity. Qed.

(** The second entry with its command rewritten, its stored hashes kept. *)
Definition sample_rewritten : AuditEntry :=
  let e := fst sample_log2 in
  mkEntry (auditId e) (timestamp e) (tool e) "income 1099" (toolVersion e)
    (inputs e) (outputs e) (rationale e) (warnings e) (compliance e)
    (operator e) (sessionId e) (parentAuditId e) (loanId e) (durationMs e)
    (previousHash e) (entryHash e).

Definition sample_rewritten_file : File :=
  [Stored (fst sample_log1); Stored sample_rewritten; Stored (fst sample_log3)].

(** C4, as the claim states it, fails on the sample log with its second
    entry rewritten: the entry is linked to the first one, its recomputed
    hash differs from the stored one, and in the failure record it is
    expectedHash that holds the stored hash and actualHash the recomputed
    one. *)
Lemma entry_hash_mismatch_fields_swapped :
  exists f : Failure.t,
    FileStorage.verifyIntegrity sample_clock sample_rewritten_file None
    = Some (Result.mk false 3 2 1 [f])
    /\ previousHash sample_rewritten = entryHash (fst sample_log1)
    /\ Failure.reason f = "Entry hash mismatch - possible tampering"
    /\ Failure.expectedHash f <> Some (computeEntryHash sample_rewritten)
    /\ Failure.actualHash f <> entryHash sample_rewritten.
Proof.
  eexists. split; [vm_compute; reflexivity|].
  split; [vm_compute; reflexivity|].
  split; [reflexivity|].
  split; vm_compute; discriminate.
Qed.

(** ** Tampering with a valid chain *)

(** Rewriting one of the sixteen stored fields that the hash covers. *)
Inductive Mutation : Type :=
| SetAuditId (v : string)
| SetTimestamp (v : string)
| SetTool (v : string)
| SetCommand (v : string)
| SetToolVersion (v : string)
| SetInputs (v : JRecord)
| SetOutputs (v : JRecord)
| SetRationale (v : string)
| SetWarnings (v : list string)
| SetCompliance (v : ComplianceInfo)
| SetOperator (v : string)
| SetSessionId (v : option string)
| SetParentAuditId (v : option string)
| SetLoanId (v : option string)
| SetDurationMs (v : option Z)
| SetPreviousHash (v : option string).

Definition mutate (m : Mutation) (e : AuditEntry) : AuditEntry :=
  match m with
  | SetAuditId v =>
      mkEntry v (timestamp e) (tool e) (command e) (toolVersion e)
        (inputs e) (outputs e) (rationale e) (warnings e) (compliance e)
        (operator e) (sessionId e) (parentAuditId e) (loanId e)
        (durationMs e) (previousHash e) (entryHash e)
  | SetTimestamp v =>
      mkEntry (auditId e) v (tool e) (command e) (toolVersion e)
        (inputs e) (outputs e) (rationale e) (warnings e) (compliance e)
        (operator e) (sessionId e) (parentAuditId e) (loanId e)
        (durationMs e) (previousHash e) (entryHash e)
  | SetTool v =>
      mkEntry (auditId e) (timestamp e) v (command e) (toolVersion e)
        (inputs e) (outputs e) (rationale e) (warnings e) (compliance e)
        (operator e) (sessionId e) (parentAuditId e) (loanId e)
        (durationMs e) (previousHash e) (entryHash e)
  | SetCommand v =>
      mkEntry (auditId e) (timestamp e) (tool e) v (toolVersion e)
        (inputs e) (outputs e) (rationale e) (warnings e) (compliance e)
        (operator e) (sessionId e) (parentAuditId e) (loanId e)
        (durationMs e) (previousHash e) (entryHash e)
  | SetToolVersion v =>
      mkEntry (auditId e) (timestamp e) (tool e) (command e) v
        (inputs e) (outputs e) (rationale e) (warnings e) (compliance e)
        (operator e) (sessionId e) (parentAuditId e) (loanId e)
        (durationMs e) (previousHash e) (entryHash e)
  | SetInputs v =>
      mkEntry (auditId e) (timestamp e) (tool e) (command e) (toolVersion e)
        v (outputs e) (rationale e) (warnings e) (compliance e)
        (operator e) (sessionId e) (parentAuditId e) (loanId e)
        (durationMs e) (previousHash e) (entryHash e)
  | SetOutputs v =>
      mkEntry (auditId e) (timestamp e) (tool e) (command e) (toolVersion e)
        (inputs e) v (rationale e) (warnings e) (compliance e)
        (operator e) (sessionId e) (parentAuditId e) (loanId e)
        (durationMs e) (previousHash e) (entryHash e)
  | SetRationale v =>
      mkEntry (auditId e) (timestamp e) (tool e) (command e) (toolVersion e)
        (inputs e) (outputs e) v (warnings e) (compliance e)
        (operator e) (sessionId e) (parentAuditId e) (loanId e)
        (durationMs e) (previousHash e) (entryHash e)
  | SetWarnings v =>
      mkEntry (auditId e) (timestamp e) (tool e) (command e) (toolVersion e)
        (inputs e) (outputs e) (rationale e) v (compliance e)
        (operator e) (sessionId e) (parentAuditId e) (loanId e)
        (durationMs e) (previousHash e) (entryHash e)
  | SetCompliance v =>
      mkEntry (auditId e) (timestamp e) (tool e) (command e) (toolVersion e)
        (inputs e) (outputs e) (rationale e) (warnings e) v
        (operator e) (sessionId e) (parentAuditId e) (loanId e)
        (durationMs e) (previousHash e) (entryHash e)
  | SetOperator v =>
      mkEntry (auditId e) (timestamp e) (tool e) (command e) (toolVersion e)
        (inputs e) (outputs e) (rationale e) (warnings e) (compliance e)
        v (sessionId e) (parentAuditId e) (loanId e)
        (durationMs e) (previousHash e) (entryHash e)
  | SetSessionId v =>
      mkEntry (auditId e) (timestamp e) (tool e) (command e) (toolVersion e)
        (inputs e) (outputs e) (rationale e) (warnings e) (compliance e)
        (operator e) v (parentAuditId e) (loanId e)
        (durationMs e) (previousHash e) (entryHash e)
  | SetParentAuditId v =>
      mkEntry (auditId e) (timestamp e) (tool e) (command e) (toolVersion e)
        (inputs e) (outputs e) (rationale e) (warnings e) (compliance e)
        (operator e) (sessionId e) v (loanId e)
        (durationMs e) (previousHash e) (entryHash e)
  | SetLoanId v =>
      mkEntry (auditId e) (timestamp e) (tool e) (command e) (toolVersion e)
        (inputs e) (outputs e) (rationale e) (warnings e) (compliance e)
        (operator e) (sessionId e) (parentAuditId e) v
        (durationMs e) (previousHash e) (entryHash e)
  | SetDurationMs v =>
      mkEntry (auditId e) (timestamp e) (tool e) (command e) (toolVersion e)
        (inputs e) (outputs e) (rationale e) (warnings e) (compliance e)
        (operator e) (sessionId e) (parentAuditId e) (loanId e)
        v (previousHash e) (entryHash e)
  | SetPreviousHash v =>
      mkEntry (auditId e) (timestamp e) (tool e) (command e) (toolVersion e)
        (inputs e) (outputs e) (rationale e) (warnings e) (compliance e)
        (operator e) (sessionId e) (parentAuditId e) (loanId e)
        (durationMs e) v (entryHash e)
  end.


(** A valid chain: every entry carries the hash of its own content, and
    every entry but the first carries the entryHash of the one before. *)
Fixpoint chain_from (previous : option AuditEntry) (es : list AuditEntry)
  : bool :=
  match es with
  | [] => true
  | e :: r =>
      match previous with Some p => chained p e | None => true end
      && sealed e && chain_from (Some e) r
  end.

Definition valid_chain (es : list AuditEntry) : bool := chain_from None es.

(** The failures of a whole file, entry after entry. *)
Fixpoint report_chain (previous : option AuditEntry) (es : list AuditEntry)
  : list Failure.t :=
  match es with
  | [] => []
  | e :: r => verdict previous e ++ report_chain (Some e) r
  end.

Definition last_or {A : Type} (d : option A) (l : list A) : option A :=
  match rev l with
  | x :: _ => Some x
  | [] => d
  end.

Lemma last_or_snoc {A : Type} (d : option A) (l : list A) (x : A) :
  last_or d (l ++ [x]) = Some x.
Proof. unfold last_or. now rewrite rev_app_distr. Qed.

Lemma opt_str_eqb_eq (a b : option string) :
  opt_str_eqb a b = true <-> a = b.
Proof.
  destruct a as [x|], b as [y|]; simpl; try (split; congruence).
  rewrite String.eqb_eq. split; congruence.
Qed.

Lemma opt_str_eqb_neq (a b : option string) :
  opt_str_eqb a b = false <-> a <> b.
Proof.
  rewrite <- opt_str_eqb_eq. destruct (opt_str_eqb a b); split; congruence.
Qed.

Lemma report_chain_app (previous : option AuditEntry) (l l' : list AuditEntry) :
  report_chain previous (l ++ l')
  = report_chain previous l ++ report_chain (last_or previous l) l'.
Proof.
  revert previous; induction l as [|e l IH]; intros previous; [reflexivity|].
  cbn [app report_chain]. rewrite IH, <- app_assoc. do 2 f_equal.
  unfold last_or. cbn [rev].
  destruct (rev l) as [|x r] eqn:E; [reflexivity|].
  now rewrite <- app_comm_cons.
Qed.

Lemma chain_from_app (previous : option AuditEntry) (l l' : list AuditEntry) :
  chain_from previous (l ++ l')
  = chain_from previous l && chain_from (last_or previous l) l'.
Proof.
  revert previous; induction l as [|e l IH]; intros previous; [reflexivity|].
  cbn [app chain_from]. rewrite IH, <- !andb_assoc. do 3 f_equal.
  unfold last_or. cbn [rev].
  destruct (rev l) as [|x r] eqn:E; [reflexivity|].
  now rewrite <- app_comm_cons.
Qed.

Lemma chain_report (previous : option AuditEntry) (es : list AuditEntry) :
  chain_from previous es = true -> report_chain previous es = [].
Proof.
  revert previous; induction es as [|e es IH]; intros previous H;
    [reflexivity|].
  cbn [chain_from] in H. apply andb_prop in H as [H H3].
  apply andb_prop in H as [H1 H2].
  cbn [report_chain]. rewrite (IH _ H3), app_nil_r.
  unfold verdict. destruct previous as [p|]; now rewrite ?H1, H2.
Qed.


(** The report of a whole file is the report of its chain. *)
Lemma report_suffix (file : File) (pre l : list AuditEntry) :
  stored file = pre ++ l ->
  report (FileStorage.readAllEntries file) (refs_from (List.length pre) l)
  = report_chain (last_or None pre) l.
Proof.
  revert pre; induction l as [|e l IH]; intros pre H; [reflexivity|].
  cbn [refs_from report_chain]. rewrite report_cons.
  assert (Hn : nth_error (FileStorage.readAllEntries file) (List.length pre)
               = Some (mkRef (List.length pre) e)).
  { rewrite readAllEntries_refs.
    apply (refs_from_nth_some (stored file) 0 (List.length pre) e).
    rewrite H, nth_error_app2 by lia. now rewrite Nat.sub_diag. }
  rewrite (predecessor_read _ _ _ Hn).
  replace (S (List.length pre)) with (List.length (pre ++ [e]))
    by (rewrite length_app; simpl; lia).
  rewrite (IH (pre ++ [e])) by (now rewrite <- app_assoc).
  rewrite last_or_snoc. f_equal. cbn [val]. f_equal.
  destruct pre as [|x pre] using rev_ind; [reflexivity|].
  rewrite last_or_snoc, length_app. cbn [List.length].
  replace (List.length pre + 1) with (S (List.length pre)) by lia.
  rewrite readAllEntries_refs.
  rewrite (refs_from_nth_some (stored file) 0 (List.length pre) x).
  - reflexivity.
  - rewrite H, <- app_assoc, nth_error_app2 by lia.
    now rewrite Nat.sub_diag.
Qed.

Lemma verifyIntegrity_whole (getTime : string -> option Z) (file : File) :
  FileStorage.verifyIntegrity getTime file None
  = Some (Result.mk
            (Nat.eqb (List.length (report_chain None (stored file))) 0)
            (List.length (stored file))
            (List.length (stored file)
               - List.length (report_chain None (stored file)))
            (List.length (report_chain None (stored file)))
            (report_chain None (stored file))).
Proof.
  rewrite verifyIntegrity_closed.
  unfold FileStorage.toCheck. cbn [FileStorage.given].
  pose proof (report_tally_length (FileStorage.readAllEntries file)
                (FileStorage.readAllEntries file)) as L.
  assert (R : report (FileStorage.readAllEntries file)
                (FileStorage.readAllEntries file)
              = report_chain None (stored file)).
  { rewrite readAllEntries_refs at 2.
    apply (report_suffix file [] (stored file)). reflexivity. }
  assert (Hlen : List.length (FileStorage.readAllEntries file)
                 = List.length (stored file)).
  { rewrite readAllEntries_refs. apply refs_from_length. }
  rewrite R, Hlen in *.
  replace (tally (FileStorage.readAllEntries file)
                 (FileStorage.readAllEntries file))
    with (List.length (stored file)
            - List.length (report_chain None (stored file))) by lia.
  reflexivity.
Qed.

Lemma computeEntryHash_with_entryHash (e : AuditEntry) (h : option string) :
  computeEntryHash (with_entryHash e h) = computeEntryHash e.
Proof. unfold computeEntryHash, canonical. now rewrite hash_content_with_entryHash. Qed.






(** ** Writing the chain *)

(** A call of the logger. Every logger shares the one file. *)
Inductive Call : Type :=
| CallLog (lg : Logger.t) (options : Options.t) (id now : string)
| CallLogDecision (lg : Logger.t) (options : Options.t) (decision : Decision)
    (declineReasons : option (list string)) (id now : string).

Definition perform (file : File) (c : Call) : AuditEntry * File :=
  match c with
  | CallLog lg o id now => log lg file o id now
  | CallLogDecision lg o d r id now => logDecision lg file o d r id now
  end.

(** Calls made one after the other: the entries returned, in order, and
    the file at the end. *)
Fixpoint perform_all (file : File) (calls : list Call)
  : list AuditEntry * File :=
  match calls with
  | [] => ([], file)
  | c :: r =>
      let done := perform file c in
      let rest := perform_all (snd done) r in
      (fst done :: fst rest, snd rest)
  end.

(** Each entry carries [link], then the entryHash of the one before. *)
Fixpoint linked (link : option string) (es : list AuditEntry) : Prop :=
  match es with
  | [] => True
  | e :: r => previousHash e = link /\ linked (entryHash e) r
  end.

Definition last_hash (es : list AuditEntry) : option string :=
  match last_or None es with
  | Some l => entryHash l
  | None => None
  end.

Lemma getLastEntry_last (file : File) :
  option_map val (FileStorage.getLastEntry file) = last_or None (stored file).
Proof.
  unfold FileStorage.getLastEntry. rewrite readAllEntries_refs.
  rewrite refs_from_length.
  destruct (stored file) as [|x es] using rev_ind; [reflexivity|].
  rewrite last_or_snoc, length_app. cbn [List.length].
  replace (0 <? List.length es + 1)%nat with true
    by (symmetry; apply Nat.ltb_lt; lia).
  replace (List.length es + 1 - 1) with (List.length es) by lia.
  rewrite (refs_from_nth_some (es ++ [x]) 0 (List.length es) x).
  - reflexivity.
  - rewrite nth_error_app2 by lia. now rewrite Nat.sub_diag.
Qed.

(** What [log] returns: an entry linked to the last entry that can be
    read, and carrying the hash of its own content. *)
Lemma log_links (lg : Logger.t) (file : File) (o : Options.t)
    (id now : string) :
  previousHash (fst (log lg file o id now)) = last_hash (stored file)
  /\ sealed (fst (log lg file o id now)) = true.
Proof.
  unfold log. cbn [fst]. unfold seal, sealed.
  rewrite computeEntryHash_with_entryHash.
  cbn [previousHash entryHash with_entryHash entryWithoutHash].
  split.
  - unfold last_hash. rewrite <- getLastEntry_last.
    now destruct (FileStorage.getLastEntry file).
  - cbn [opt_str_eqb]. apply String.eqb_refl.
Qed.

(** On a file that ends with a line feed, [log] adds the line of the
    entry that it returns. *)
Lemma log_appends (lg : Logger.t) (file : File) (o : Options.t)
    (id now : string) :
  terminated file = true ->
  snd (log lg file o id now) = file ++ [Stored (fst (log lg file o id now))].
Proof. intros T. unfold log. cbn [fst snd]. now apply append_terminated. Qed.

Lemma log_terminates (lg : Logger.t) (file : File) (o : Options.t)
    (id now : string) :
  terminated (snd (log lg file o id now)) = true.
Proof. unfold log. cbn [snd]. apply terminated_append. Qed.

Lemma perform_links (file : File) (c : Call) :
  previousHash (fst (perform file c)) = last_hash (stored file)
  /\ sealed (fst (perform file c)) = true.
Proof. destruct c; apply log_links. Qed.

Lemma perform_appends (file : File) (c : Call) :
  terminated file = true ->
  snd (perform file c) = file ++ [Stored (fst (perform file c))].
Proof. destruct c; apply log_appends. Qed.

Lemma perform_terminates (file : File) (c : Call) :
  terminated (snd (perform file c)) = true.
Proof. destruct c; apply log_terminates. Qed.

Lemma last_hash_snoc (es : list AuditEntry) (e : AuditEntry) :
  last_hash (es ++ [e]) = entryHash e.
Proof. unfold last_hash. now rewrite last_or_snoc. Qed.

Lemma perform_all_linked (calls : list Call) (file : File) :
  terminated file = true ->
  stored (snd (perform_all file calls))
  = stored file ++ fst (perform_all file calls)
  /\ linked (last_hash (stored file)) (fst (perform_all file calls))
  /\ Forall (fun e => sealed e = true) (fst (perform_all file calls)).
Proof.
  revert file; induction calls as [|c calls IH]; intros file T.
  - cbn. rewrite app_nil_r. auto.
  - cbn [perform_all fst snd].
    pose proof (perform_appends file c T) as Hs.
    destruct (perform_links file c) as (Hp & Hh).
    destruct (IH (snd (perform file c)) (perform_terminates file c))
      as (IH1 & IH2 & IH3).
    assert (Hst : stored (snd (perform file c))
                  = stored file ++ [fst (perform file c)]).
    { rewrite Hs, stored_app. reflexivity. }
    rewrite Hst in IH1, IH2. rewrite last_hash_snoc in IH2.
    split; [|split].
    + rewrite IH1, <- app_assoc. reflexivity.
    + cbn [linked]. split; assumption.
    + constructor; assumption.
Qed.

Lemma linked_nth (link : option string) (es : list AuditEntry) :
  linked link es ->
  (forall e, nth_error es 0 = Some e -> previousHash e = link)
  /\ (forall k p e, nth_error es k = Some p -> nth_error es (S k) = Some e ->
                    previousHash e = entryHash p).
Proof.
  revert link; induction es as [|x es IH]; intros link H.
  - split; [intros e E; discriminate|].
    intros k p e Hp. destruct k; discriminate.
  - destruct H as [H1 H2]. destruct (IH _ H2) as [I1 I2]. split.
    + intros e E. cbn in E. now injection E as <-.
    + intros k p e Hp He. destruct k as [|k].
      * cbn in Hp, He. injection Hp as <-. now apply I1.
      * cbn in Hp, He. now apply (I2 k).
Qed.

Lemma sealed_entryHash (e : AuditEntry) :
  sealed e = true -> entryHash e = Some (computeEntryHash e).
Proof. unfold sealed. intros H. apply opt_str_eqb_eq in H. now symmetry. Qed.

(** C2. Calls of [log] (or of [logDecision], which calls it) made one
    after the other on a log that starts empty: every entry carries as
    entryHash the hash that [computeEntryHash] gives for it; the first
    entry has no previousHash; every later entry has as its previousHash
    the entryHash of the entry of the call before, which is the computed
    hash of that entry; and the file holds exactly these entries in the
    order of the calls. *)
Theorem log_chain_linkage :
  forall calls : list Call,
    let es := fst (perform_all [] calls) in
    (forall e, nth_error es 0 = Some e -> previousHash e = None)
    /\ (forall k p e,
          nth_error es k = Some p -> nth_error es (S k) = Some e ->
          previousHash e = entryHash p
          /\ previousHash e = Some (computeEntryHash p))
    /\ (forall e, In e es -> entryHash e = Some (computeEntryHash e))
    /\ stored (snd (perform_all [] calls)) = es.
Proof.
  intros calls es.
  destruct (perform_all_linked calls [] eq_refl) as (H1 & H2 & H3).
  destruct (linked_nth _ _ H2) as [L1 L2].
  rewrite Forall_forall in H3.
  split; [exact L1|]. split; [|split; [|exact H1]].
  - intros k p e Hp He. pose proof (L2 k p e Hp He) as L.
    split; [exact L|]. rewrite L. apply sealed_entryHash, H3.
    now apply nth_error_In in Hp.
  - intros e He. now apply sealed_entryHash, H3.
Qed.

Lemma linked_chain (previous : option AuditEntry) (es : list AuditEntry) :
  linked match previous with Some p => entryHash p | None => None end es ->
  Forall (fun e => sealed e = true) es ->
  chain_from previous es = true.
Proof.
  revert previous; induction es as [|e es IH]; intros previous L S;
    [reflexivity|].
  destruct L as [L1 L2]. inversion S as [|? ? S1 S2]; subst.
  cbn [chain_from]. rewrite S1, (IH (Some e) L2 S2), !andb_true_r.
  destruct previous as [p|]; [|reflexivity].
  unfold chained. now apply opt_str_eqb_eq.
Qed.

Lemma perform_all_length (calls : list Call) (file : File) :
  List.length (fst (perform_all file calls)) = List.length calls.
Proof.
  revert file; induction calls as [|c calls IH]; intros file; [reflexivity|].
  cbn [perform_all fst List.length]. now rewrite IH.
Qed.

(** A log written by the logger alone verifies: every entry is checked,
    every entry is valid, and there is no failure. *)
Theorem written_log_verifies :
  forall (getTime : string -> option Z) (calls : list Call),
    FileStorage.verifyIntegrity getTime (snd (perform_all [] calls)) None
    = Some (Result.mk true (List.length calls) (List.length calls) 0 []).
Proof.
  intros getTime calls.
  destruct (perform_all_linked calls [] eq_refl) as (H1 & H2 & H3).
  cbn [stored flat_map app as_read] in H1, H2.
  rewrite verifyIntegrity_whole, H1.
  rewrite (chain_report None _ (linked_chain None _ H2 H3)).
  rewrite perform_all_length. cbn [List.length Nat.eqb].
  now rewrite Nat.sub_0_r.
Qed.

(** ** Own properties: reading after writing *)

Lemma get_replace_same (o : JRecord) (k : string) (v : JSON) :
  Obj.has o k = true -> Obj.get (Obj.replace o k v) k = Some v.
Proof.
  unfold Obj.replace.
  induction o as [|[a x] o IH]; intros H; [discriminate|].
  cbn in *. destruct (String.eqb a k) eqn:E; cbn; rewrite E; auto.
Qed.

Lemma get_replace_other (o : JRecord) (k k' : string) (v : JSON) :
  k <> k' -> Obj.get (Obj.replace o k' v) k = Obj.get o k.
Proof.
  intros N. unfold Obj.replace.
  induction o as [|[a x] o IH]; [reflexivity|].
  cbn. destruct (String.eqb_spec a k') as [->|_]; cbn.
  - destruct (String.eqb_spec k' k) as [<-|_]; [contradiction|exact IH].
  - now rewrite IH.
Qed.

Lemma get_insert_same (o : JRecord) (n : N) (k : string) (v : JSON) :
  Obj.has o k = false -> Obj.get (Obj.insert_index n k v o) k = Some v.
Proof.
  induction o as [|[a x] o IH]; intros H; cbn.
  - now rewrite String.eqb_refl.
  - cbn in H. apply orb_false_elim in H as [H1 H2].
    destruct (Obj.array_index a) as [m|]; [destruct (m <? n)%N|];
      cbn; rewrite ?H1, ?String.eqb_refl; auto.
Qed.

Lemma get_insert_other (o : JRecord) (n : N) (k k' : string) (v : JSON) :
  k <> k' -> Obj.get (Obj.insert_index n k' v o) k = Obj.get o k.
Proof.
  intros N. apply String.eqb_neq in N. rewrite String.eqb_sym in N.
  induction o as [|[a x] o IH]; cbn.
  - now rewrite N.
  - destruct (Obj.array_index a) as [m|]; [destruct (m <? n)%N|];
      cbn; rewrite ?N, ?IH; reflexivity.
Qed.

Lemma get_app_same (o : JRecord) (k : string) (v : JSON) :
  Obj.has o k = false -> Obj.get (o ++ [(k, v)]) k = Some v.
Proof.
  induction o as [|[a x] o IH]; intros H; cbn.
  - now rewrite String.eqb_refl.
  - cbn in H. apply orb_false_elim in H as [H1 H2]. rewrite H1. auto.
Qed.

Lemma get_app_other (o : JRecord) (k k' : string) (v : JSON) :
  k <> k' -> Obj.get (o ++ [(k', v)]) k = Obj.get o k.
Proof.
  intros N. apply String.eqb_neq in N. rewrite String.eqb_sym in N.
  induction o as [|[a x] o IH]; cbn; [now rewrite N|].
  now rewrite IH.
Qed.

Lemma get_define_same (o : JRecord) (k : string) (v : JSON) :
  Obj.get (Obj.define o k v) k = Some v.
Proof.
  unfold Obj.define. destruct (Obj.has o k) eqn:H.
  - now apply get_replace_same.
  - destruct (Obj.array_index k).
    + now apply get_insert_same.
    + now apply get_app_same.
Qed.

Lemma get_define_other (o : JRecord) (k k' : string) (v : JSON) :
  k <> k' -> Obj.get (Obj.define o k' v) k = Obj.get o k.
Proof.
  intros N. unfold Obj.define. destruct (Obj.has o k').
  - now apply get_replace_other.
  - destruct (Obj.array_index k').
    + now apply get_insert_other.
    + now apply get_app_other.
Qed.

Lemma get_assign_same (o : JRecord) (k : string) (v : JSON) :
  k <> "__proto__" -> Obj.get (Obj.assign o k v) k = Some v.
Proof.
  intros N. unfold Obj.assign. apply String.eqb_neq in N. rewrite N.
  apply get_define_same.
Qed.

Lemma get_assign_other (o : JRecord) (k k' : string) (v : JSON) :
  k <> k' -> Obj.get (Obj.assign o k' v) k = Obj.get o k.
Proof.
  intros N. unfold Obj.assign. destruct (String.eqb k' "__proto__");
    [reflexivity | now apply get_define_other].
Qed.

(** ** logDecision *)

Lemma logDecision_entry (lg : Logger.t) (file : File) (o : Options.t)
    (d : Decision) (reasons : option (list string)) (id now : string) :
  outputs (fst (logDecision lg file o d reasons id now))
  = decision_outputs o d reasons
  /\ compliance (fst (logDecision lg file o d reasons id now))
     = merge_compliance (Some (decision_compliance o d)).
Proof. split; reflexivity. Qed.

(** What a declined decision always gets: the two regulations, the review
    flag, the decision, and as adverseActionReasons the caller's list when
    there is one (as it is, empty or not) and the sentinel list when there
    is none. *)
Lemma logDecision_declined (lg : Logger.t) (file : File) (o : Options.t)
    (reasons : option (list string)) (id now : string) :
  let e := fst (logDecision lg file o declined reasons id now) in
  In "ECOA" (regulations (compliance e))
  /\ In "Reg B" (regulations (compliance e))
  /\ humanReviewRequired (compliance e) = true
  /\ Obj.get (outputs e) "decision" = Some (JStr "declined")
  /\ Obj.get (outputs e) "adverseActionReasons"
     = Some (Json.strings match reasons with
                          | Some r => r
                          | None => ["Unspecified reason"]
                          end).
Proof.
  cbv zeta. destruct (logDecision_entry lg file o declined reasons id now)
    as [-> ->].
  cbn [merge_compliance decision_compliance regulations humanReviewRequired
       Partial.regulations Partial.humanReviewRequired is_declined orb].
  split; [apply in_or_app; right; now left|].
  split; [apply in_or_app; right; right; now left|].
  split; [reflexivity|].
  unfold decision_outputs. cbn [is_declined].
  split.
  - rewrite get_assign_other by discriminate. apply get_define_same.
  - apply get_assign_same. discriminate.
Qed.

(** C6 fails for a caller that passes an empty list of reasons: an empty
    array is truthy, so [options.declineReasons || [...]] keeps it, and
    the declined entry is stored with no adverse action reason at all. *)
Theorem logDecision_declined_empty_reasons :
  forall (lg : Logger.t) (file : File) (o : Options.t) (id now : string),
    let e := fst (logDecision lg file o declined (Some []) id now) in
    Obj.get (outputs e) "decision" = Some (JStr "declined")
    /\ Obj.get (outputs e) "adverseActionReasons" = Some (JArr []).
Proof.
  intros lg file o id now e.
  destruct (logDecision_declined lg file o (Some []) id now)
    as (_ & _ & _ & H1 & H2).
  split; assumption.
Qed.

(** ** sanitizeInputs *)

(** What the loop stores under [key] for [value]. *)
Definition sanitizeValue (key : string) (value : JSON) : JSON :=
  if isSensitive key then JStr REDACTED
  else match value with
       | JArr _ | JObj _ => JObj (sanitizeInputs value)
       | _ => value
       end.

(** The same under a key that is not sensitive. *)
Definition sanitizeElement (value : JSON) : JSON :=
  match value with
  | JArr _ | JObj _ => JObj (sanitizeInputs value)
  | _ => value
  end.

Definition sanitizeEntry (kv : string * JSON) : string * JSON :=
  (fst kv, sanitizeValue (fst kv) (snd kv)).

Lemma sanitizeInputs_entries (v : JSON) :
  sanitizeInputs v = assign_all (map sanitizeEntry (Obj.entries v)).
Proof.
  destruct v as [ | b | n | s | items | props ]; try reflexivity.
  cbn [sanitizeInputs Obj.entries]. f_equal.
  generalize 0%N. induction items as [|x items IH]; intros i; [reflexivity|].
  cbn [Obj.index_from map]. rewrite <- IH. reflexivity.
Qed.

(** *** Index keys *)

Definition isDigit (c : ascii) : bool :=
  ((48 <=? Str.code c) && (Str.code c <=? 57))%N.

Fixpoint all_digits (s : string) : bool :=
  match s with
  | EmptyString => true
  | String c r => isDigit c && all_digits r
  end.

Lemma string_of_uint_digits (d : Decimal.uint) :
  all_digits (NilEmpty.string_of_uint d) = true.
Proof. induction d; cbn; auto. Qed.

Lemma index_key_digits (i : N) : all_digits (Json.index_key i) = true.
Proof. apply string_of_uint_digits. Qed.

Lemma index_key_inj (i j : N) : Json.index_key i = Json.index_key j -> i = j.
Proof.
  unfold Json.index_key. intros H.
  assert (E : Some (N.to_uint i) = Some (N.to_uint j)).
  { rewrite <- !NilEmpty.usu. now rewrite H. }
  injection E as E.
  rewrite <- (DecimalN.Unsigned.of_to i), <- (DecimalN.Unsigned.of_to j).
  now rewrite E.
Qed.

Lemma array_index_key (i : N) :
  Obj.array_index (Json.index_key i)
  = if (i <? 4294967295)%N then Some i else None.
Proof.
  unfold Obj.array_index. unfold Json.index_key at 1.
  rewrite NilEmpty.usu, DecimalN.Unsigned.of_to.
  now rewrite String.eqb_refl.
Qed.

Lemma index_key_not_proto (i : N) : Json.index_key i <> "__proto__".
Proof.
  intros H. pose proof (index_key_digits i) as D. rewrite H in D.
  discriminate.
Qed.

Lemma digit_cases (c : ascii) :
  isDigit c = true ->
  c = "0"%char \/ c = "1"%char \/ c = "2"%char \/ c = "3"%char
  \/ c = "4"%char \/ c = "5"%char \/ c = "6"%char \/ c = "7"%char
  \/ c = "8"%char \/ c = "9"%char.
Proof.
  unfold isDigit, Str.code. intros H. apply andb_prop in H as [H1 H2].
  apply N.leb_le in H1, H2.
  rewrite <- (ascii_N_embedding c).
  set (n := N_of_ascii c) in *.
  assert (E : (n = 48 \/ n = 49 \/ n = 50 \/ n = 51 \/ n = 52 \/ n = 53
               \/ n = 54 \/ n = 55 \/ n = 56 \/ n = 57)%N) by lia.
  repeat (destruct E as [E|E]; [rewrite E; tauto|]).
  rewrite E; tauto.
Qed.

Lemma lower_digits (s : string) :
  all_digits s = true -> Str.toLowerCase s = s.
Proof.
  unfold Str.toLowerCase. induction s as [|c s IH]; intros H; [reflexivity|].
  cbn [all_digits] in H. apply andb_prop in H as [Hc Hs].
  specialize (IH Hs).
  destruct (digit_cases c Hc) as [E|[E|[E|[E|[E|[E|[E|[E|[E|E]]]]]]]]];
    subst c; cbn; now rewrite IH.
Qed.

Definition starts_with_letter (s : string) : bool :=
  match s with
  | EmptyString => false
  | String c _ => negb (isDigit c)
  end.

Lemma includes_digits (s sub : string) :
  all_digits s = true -> starts_with_letter sub = true ->
  Str.includes s sub = false.
Proof.
  intros Hs Hsub. destruct sub as [|c0 sub]; [discriminate|].
  cbn in Hsub. apply negb_true_iff in Hsub.
  induction s as [|c s IH]; [reflexivity|].
  cbn [all_digits] in Hs. apply andb_prop in Hs as [Hc Hr].
  cbn [Str.includes String.prefix].
  destruct (ascii_dec c0 c) as [->|_]; [congruence|].
  cbn. now apply IH.
Qed.

Lemma digits_not_sensitive (s : string) :
  all_digits s = true -> isSensitive s = false.
Proof.
  intros H. unfold isSensitive. rewrite (lower_digits s H).
  unfold sensitiveKeys. cbn [existsb].
  rewrite !(includes_digits s _ H) by reflexivity. reflexivity.
Qed.

Lemma sanitizeValue_index (i : N) (v : JSON) :
  sanitizeValue (Json.index_key i) v = sanitizeElement v.
Proof.
  unfold sanitizeValue.
  now rewrite (digits_not_sensitive _ (index_key_digits i)).
Qed.

Lemma index_from_map (f : JSON -> JSON) (i : N) (items : list JSON) :
  map (fun kv => (fst kv, f (snd kv))) (Obj.index_from i items)
  = Obj.index_from i (map f items).
Proof.
  revert i; induction items as [|x items IH]; intros i; [reflexivity|].
  cbn. now rewrite IH.
Qed.

Lemma sanitize_index_from (i : N) (items : list JSON) :
  map sanitizeEntry (Obj.index_from i items)
  = Obj.index_from i (map sanitizeElement items).
Proof.
  revert i; induction items as [|x items IH]; intros i; [reflexivity|].
  cbn [Obj.index_from map]. rewrite IH. unfold sanitizeEntry at 1.
  cbn [fst snd]. now rewrite sanitizeValue_index.
Qed.

(** *** The sanitized array keeps its order *)

Definition indices_below (i : N) (o : JRecord) : Prop :=
  Forall (fun kv => exists m, fst kv = Json.index_key m /\ (m < i)%N) o.

Lemma has_indices_below (i : N) (o : JRecord) :
  indices_below i o -> Obj.has o (Json.index_key i) = false.
Proof.
  unfold Obj.has. induction 1 as [|kv o (m & E & L) _ IH]; [reflexivity|].
  cbn. rewrite IH, orb_false_r. apply String.eqb_neq.
  rewrite E. intros H. apply index_key_inj in H. lia.
Qed.

Lemma insert_indices_below (i : N) (v : JSON) (o : JRecord) :
  (i <? 4294967295)%N = true -> indices_below i o ->
  Obj.insert_index i (Json.index_key i) v o = o ++ [(Json.index_key i, v)].
Proof.
  intros B. induction 1 as [|kv o (m & E & L) _ IH]; [reflexivity|].
  cbn [Obj.insert_index app]. rewrite E, array_index_key.
  apply N.ltb_lt in B.
  replace (m <? 4294967295)%N with true by (symmetry; apply N.ltb_lt; lia).
  replace (m <? i)%N with true by (symmetry; now apply N.ltb_lt).
  now rewrite IH.
Qed.

Lemma assign_index_last (i : N) (v : JSON) (o : JRecord) :
  indices_below i o ->
  Obj.assign o (Json.index_key i) v = o ++ [(Json.index_key i, v)].
Proof.
  intros H. unfold Obj.assign.
  replace (String.eqb (Json.index_key i) "__proto__") with false
    by (symmetry; apply String.eqb_neq, index_key_not_proto).
  unfold Obj.define. rewrite (has_indices_below i o H), array_index_key.
  destruct (i <? 4294967295)%N eqn:B; [|reflexivity].
  now apply insert_indices_below.
Qed.

Lemma assign_indices (items : list JSON) (i : N) (o : JRecord) :
  indices_below i o ->
  fold_left (fun sanitized kv => Obj.assign sanitized (fst kv) (snd kv))
            (Obj.index_from i items) o
  = o ++ Obj.index_from i items.
Proof.
  revert i o; induction items as [|x items IH]; intros i o H.
  - cbn. now rewrite app_nil_r.
  - cbn [Obj.index_from fold_left fst snd].
    rewrite (assign_index_last i x o H).
    rewrite IH.
    + now rewrite <- app_assoc.
    + apply Forall_app. split.
      * eapply Forall_impl; [|exact H].
        intros kv (m & E & L). exists m. split; [exact E | lia].
      * constructor; [|constructor]. exists i. split; [reflexivity | lia].
Qed.

Lemma sanitizeInputs_array (items : list JSON) :
  sanitizeInputs (JArr items) = Obj.index_from 0 (map sanitizeElement items).
Proof.
  rewrite sanitizeInputs_entries. cbn [Obj.entries].
  rewrite sanitize_index_from. unfold assign_all.
  rewrite assign_indices by constructor. reflexivity.
Qed.

(** *** No array is left *)

Fixpoint no_array (v : JSON) : bool :=
  match v with
  | JArr _ => false
  | JObj props => forallb (fun kv => no_array (snd kv)) props
  | _ => true
  end.

Definition values (P : JSON -> Prop) (o : JRecord) : Prop :=
  Forall (fun kv => P (snd kv)) o.

Lemma values_insert (P : JSON -> Prop) (n : N) (k : string) (v : JSON)
    (o : JRecord) :
  P v -> values P o -> values P (Obj.insert_index n k v o).
Proof.
  intros Hv. induction 1 as [|kv o Hk Ho IH]; cbn.
  - repeat constructor. exact Hv.
  - destruct (Obj.array_index (fst kv)) as [m|]; [destruct (m <? n)%N|];
      repeat (constructor; auto).
Qed.

Lemma values_assign (P : JSON -> Prop) (o : JRecord) (k : string) (v : JSON) :
  P v -> values P o -> values P (Obj.assign o k v).
Proof.
  intros Hv Ho. unfold Obj.assign, Obj.define.
  destruct (String.eqb k "__proto__"); [exact Ho|].
  destruct (Obj.has o k).
  - unfold Obj.replace, values. apply Forall_map.
    eapply Forall_impl; [|exact Ho].
    intros kv H. now destruct (String.eqb (fst kv) k).
  - destruct (Obj.array_index k).
    + now apply values_insert.
    + apply Forall_app. split; [exact Ho|]. now repeat constructor.
Qed.

Lemma values_assign_all (P : JSON -> Prop) (kvs : JRecord) :
  values P kvs -> values P (assign_all kvs).
Proof.
  unfold assign_all. assert (H0 : values P []) by constructor.
  revert H0. generalize (@nil (string * JSON)) as acc.
  induction kvs as [|kv kvs IH]; intros acc Ha H; [exact Ha|].
  inversion H; subst. cbn [fold_left]. apply IH; [|assumption].
  now apply values_assign.
Qed.

Lemma sanitizeInputs_no_array (v : JSON) :
  no_array (JObj (sanitizeInputs v)) = true.
Proof.
  induction v as [ | b | n | s | items IH | props IH ] using JSON_induction;
    try reflexivity.
  - cbn [no_array]. apply forallb_forall. apply Forall_forall.
    rewrite sanitizeInputs_entries. cbn [Obj.entries].
    apply (values_assign_all (fun x => no_array x = true)).
    apply Forall_map. apply Forall_forall. intros [k x] Hin.
    assert (Hx : In x items).
    { clear IH. revert Hin. generalize 0%N.
      induction items as [|y items IHi]; intros i Hin; [contradiction|].
      cbn in Hin. destruct Hin as [E|Hin]; [injection E as _ <-; now left|].
      right. now apply (IHi (N.succ i)). }
    rewrite Forall_forall in IH. specialize (IH x Hx).
    cbn [sanitizeEntry fst snd]. unfold sanitizeValue.
    destruct (isSensitive k); [reflexivity|].
    destruct x; try reflexivity; exact IH.
  - cbn [no_array]. apply forallb_forall. apply Forall_forall.
    rewrite sanitizeInputs_entries. cbn [Obj.entries].
    apply (values_assign_all (fun x => no_array x = true)).
    apply Forall_map. eapply Forall_impl; [|exact IH].
    intros [k x] Hx. cbn [sanitizeEntry fst snd] in *. unfold sanitizeValue.
    destruct (isSensitive k); [reflexivity|].
    destruct x; try reflexivity; exact Hx.
Qed.

(** *** Reading the sanitized mapping *)

Lemma get_fold_assign (kvs : JRecord) (o : JRecord) (k : string) (w : JSON) :
  k <> "__proto__" ->
  (forall v, In (k, v) kvs -> v = w) ->
  In k (map fst kvs) \/ Obj.get o k = Some w ->
  Obj.get (fold_left (fun sanitized kv => Obj.assign sanitized (fst kv) (snd kv))
                     kvs o) k
  = Some w.
Proof.
  intros N. revert o; induction kvs as [|[a x] kvs IH]; intros o Hall Hk.
  - destruct Hk as [[]|Hk]. exact Hk.
  - cbn [fold_left fst snd]. apply IH.
    + intros v Hv. apply Hall. now right.
    + destruct (String.eqb_spec a k) as [->|Na].
      * right. rewrite (Hall x (or_introl eq_refl)).
        now apply get_assign_same.
      * destruct Hk as [[E|Hk]|Hk]; [contradiction | now left |].
        right. rewrite get_assign_other by congruence. exact Hk.
Qed.

Lemma get_In (o : JRecord) (k : string) (v : JSON) :
  Obj.get o k = Some v -> In (k, v) o.
Proof.
  induction o as [|[a x] o IH]; [discriminate|]. cbn.
  destruct (String.eqb_spec a k) as [->|_].
  - intros E. injection E as ->. now left.
  - intros E. right. now apply IH.
Qed.

Lemma NoDup_unique (o : JRecord) (k : string) (v v' : JSON) :
  NoDup (map fst o) -> In (k, v) o -> In (k, v') o -> v = v'.
Proof.
  induction o as [|[a x] o IH]; [contradiction|].
  cbn. intros D H H'. inversion D as [|? ? Hn D']; subst.
  destruct H as [E|H], H' as [E'|H'].
  - congruence.
  - injection E as -> ->. exfalso. apply Hn.
    now apply (in_map fst) in H'.
  - injection E' as -> ->. exfalso. apply Hn.
    now apply (in_map fst) in H.
  - now apply IH.
Qed.

Lemma index_from_keys (items : list JSON) (i : N) (k : string) (v : JSON) :
  In (k, v) (Obj.index_from i items) ->
  In v items /\ exists m, k = Json.index_key m /\ (i <= m)%N.
Proof.
  revert i; induction items as [|x items IH]; intros i H; [contradiction|].
  cbn in H. destruct H as [E|H].
  - injection E as <- <-. split; [now left|]. exists i. split; [reflexivity|lia].
  - destruct (IH _ H) as [Hin (m & E & L)]. split; [now right|].
    exists m. split; [exact E | lia].
Qed.

Lemma index_from_NoDup (items : list JSON) (i : N) :
  NoDup (map fst (Obj.index_from i items)).
Proof.
  revert i; induction items as [|x items IH]; intros i; cbn; constructor.
  - intros H. apply in_map_iff in H as ([k v] & E & H). cbn in E. subst k.
    apply index_from_keys in H as [_ (m & E & L)].
    apply index_key_inj in E. lia.
  - apply IH.
Qed.

(** The own keys of every mapping are distinct, as in every JavaScript
    object. *)
Fixpoint distinct_keys (v : JSON) : Prop :=
  match v with
  | JObj props =>
      NoDup (map fst props)
      /\ (fix all (l : JRecord) : Prop :=
            match l with
            | [] => True
            | kv :: r => distinct_keys (snd kv) /\ all r
            end) props
  | JArr items =>
      (fix all (l : list JSON) : Prop :=
         match l with
         | [] => True
         | x :: r => distinct_keys x /\ all r
         end) items
  | _ => True
  end.

Lemma distinct_keys_entries (v : JSON) :
  distinct_keys v ->
  NoDup (map fst (Obj.entries v))
  /\ forall k x, In (k, x) (Obj.entries v) -> distinct_keys x.
Proof.
  destruct v as [ | b | n | s | items | props ]; cbn [Obj.entries];
    try (intros _; split; [constructor | contradiction]).
  - intros H. split; [apply index_from_NoDup|].
    intros k x Hin. apply index_from_keys in Hin as [Hin _].
    cbn in H. induction items as [|y items IH]; [contradiction|].
    destruct H as [Hy Hr]. destruct Hin as [<-|Hin]; [exact Hy | now apply IH].
  - intros [D H]. split; [exact D|].
    intros k x Hin. clear D.
    induction props as [|kv props IH]; [contradiction|].
    destruct H as [Hy Hr]. destruct Hin as [->|Hin]; [exact Hy | now apply IH].
Qed.

(** The value reached from [v] through the keys of [path], an array being
    read by position. *)
Fixpoint lookup (path : list string) (v : JSON) : option JSON :=
  match path with
  | [] => Some v
  | k :: rest =>
      match Obj.get (Obj.entries v) k with
      | Some w => lookup rest w
      | None => None
      end
  end.

Definition plain_key (k : string) : Prop :=
  isSensitive k = false /\ k <> "__proto__".

Lemma get_sanitized (v : JSON) (k : string) (x : JSON) :
  distinct_keys v -> k <> "__proto__" ->
  Obj.get (Obj.entries v) k = Some x ->
  Obj.get (sanitizeInputs v) k = Some (sanitizeValue k x).
Proof.
  intros D N G. destruct (distinct_keys_entries v D) as [ND _].
  apply get_In in G.
  rewrite sanitizeInputs_entries. unfold assign_all.
  apply get_fold_assign; [exact N | |].
  - intros y Hy. apply in_map_iff in Hy as ([a z] & E & Hz).
    unfold sanitizeEntry in E. cbn in E. injection E as -> <-.
    now rewrite (NoDup_unique _ _ _ _ ND Hz G).
  - left. rewrite map_map. cbn.
    change k with (fst (k, x)). now apply in_map.
Qed.

Lemma lookup_sanitized (path : list string) (v w : JSON) :
  distinct_keys v -> isObject v = true -> Forall plain_key path ->
  lookup path v = Some w ->
  lookup path (JObj (sanitizeInputs v)) = Some (sanitizeElement w).
Proof.
  revert v; induction path as [|k rest IH]; intros v D O P L.
  - cbn in *. injection L as <-. now destruct v.
  - inversion P as [|? ? [Hs Hp] P']; subst.
    cbn [lookup] in L |- *. cbn [Obj.entries].
    destruct (Obj.get (Obj.entries v) k) as [x|] eqn:G; [|discriminate].
    rewrite (get_sanitized v k x D Hp G). unfold sanitizeValue. rewrite Hs.
    destruct (distinct_keys_entries v D) as [_ Dx].
    specialize (Dx k x (get_In _ _ _ G)).
    destruct x as [ | b | n | s | items | props ];
      try (destruct rest; cbn in L |- *; [now injection L as <- | discriminate]).
    + apply (IH (JArr items) Dx eq_refl P' L).
    + apply (IH (JObj props) Dx eq_refl P' L).
Qed.

Lemma lookup_app (p q : list string) (v : JSON) :
  lookup (p ++ q) v
  = match lookup p v with Some w => lookup q w | None => None end.
Proof.
  revert v; induction p as [|k p IH]; intros v; [reflexivity|].
  cbn. destruct (Obj.get (Obj.entries v) k); [apply IH | reflexivity].
Qed.

Lemma lookup_distinct_keys (path : list string) (v w : JSON) :
  distinct_keys v -> lookup path v = Some w -> distinct_keys w.
Proof.
  revert v; induction path as [|k rest IH]; intros v D L.
  - cbn in L. now injection L as <-.
  - cbn in L. destruct (Obj.get (Obj.entries v) k) as [x|] eqn:G;
      [|discriminate].
    apply (IH x); [|exact L].
    destruct (distinct_keys_entries v D) as [_ Dx].
    apply (Dx k x). now apply get_In.
Qed.

Lemma proto_not_sensitive : isSensitive "__proto__" = false.
Proof. vm_compute. reflexivity. Qed.

(** Arrays in the inputs. [sanitizeInputs] turns an array into a
    mapping from the positions "0", "1", ... to the sanitized elements;
    its result holds no array at any depth; an array reached from the
    inputs through keys that are neither sensitive nor "__proto__" is
    found in the result, under the same keys, as that mapping; and a
    value reached through such keys and then a sensitive key is found
    in the result as "[REDACTED]" whatever it was. *)
Theorem sanitizeInputs_arrays_become_mappings :
  (forall items : list JSON,
      sanitizeInputs (JArr items)
      = Obj.index_from 0 (map sanitizeElement items))
  /\ (forall inputs : JSON, no_array (JObj (sanitizeInputs inputs)) = true)
  /\ (forall (inputs : JSON) (path : list string) (items : list JSON),
        distinct_keys inputs -> isObject inputs = true ->
        Forall plain_key path ->
        lookup path inputs = Some (JArr items) ->
        lookup path (JObj (sanitizeInputs inputs))
        = Some (JObj (Obj.index_from 0 (map sanitizeElement items))))
  /\ (forall (inputs : JSON) (path : list string) (k : string) (v : JSON),
        distinct_keys inputs -> isObject inputs = true ->
        Forall plain_key path ->
        lookup (path ++ [k]) inputs = Some v ->
        isSensitive k = true ->
        lookup (path ++ [k]) (JObj (sanitizeInputs inputs))
        = Some (JStr "[REDACTED]")).
Proof.
  split; [exact sanitizeInputs_array|].
  split; [exact sanitizeInputs_no_array|].
  split.
  - intros inputs path items D O P L.
    rewrite (lookup_sanitized path inputs (JArr items) D O P L).
    cbn [sanitizeElement]. now rewrite sanitizeInputs_array.
  - intros inputs path k v D O P L S.
    rewrite lookup_app in L |- *.
    destruct (lookup path inputs) as [parent|] eqn:Lp; [|discriminate].
    rewrite (lookup_sanitized path inputs parent D O P Lp).
    pose proof (lookup_distinct_keys path inputs parent D Lp) as Dp.
    cbn [lookup] in L |- *.
    destruct (Obj.get (Obj.entries parent) k) as [x|] eqn:G; [|discriminate].
    assert (N : k <> "__proto__").
    { intros ->. rewrite proto_not_sensitive in S. discriminate. }
    destruct parent as [ | b | n | s | items | props ]; try discriminate;
      cbn [sanitizeElement Obj.entries];
      rewrite (get_sanitized _ k x Dp N G); unfold sanitizeValue;
      now rewrite S.
Qed.

(** C10: where the code leaves what the claim states. The claim has the
    array under every key that is not sensitive returned as a mapping
    with the keys "0", "1", ...; for the inputs that [JSON.parse] makes
    of [{"__proto__": [1, 2]}] the key "__proto__" is not sensitive and
    holds an array, and the result of [sanitizeInputs] has no own
    property at all: the assignment [sanitized[key] = ...] went to the
    setter inherited from [Object.prototype]. Nothing of the array is in
    the result as [Object.entries] or [JSON.stringify] see it, so
    nothing of it is hashed or stored. *)
Lemma sanitizeInputs_proto_array_lost :
  let inputs := JObj [("__proto__", JArr [JNum 1; JNum 2])] in
  isSensitive "__proto__" = false
  /\ lookup ["__proto__"] inputs = Some (JArr [JNum 1; JNum 2])
  /\ sanitizeInputs inputs = []
  /\ lookup ["__proto__"] (JObj (sanitizeInputs inputs)) = None
  /\ Json.stringify (JObj (sanitizeInputs inputs)) = "{}".
Proof. vm_compute. repeat split. Qed.

Example sanitize_nested_array :
  sanitizeInputs
    (JObj [("borrower",
            JObj [("name", JStr "John");
                  ("socialSecurity", JStr "123-45-6789");
                  ("incomes", JArr [JNum 85000; JObj [("apiKey", JStr "k")]])]);
           ("ssn", JArr [JNum 1])])
  = [("borrower",
      JObj [("name", JStr "John");
            ("socialSecurity", JStr "[REDACTED]");
            ("incomes",
             JObj [("0", JNum 85000);
                   ("1", JObj [("apiKey", JStr "[REDACTED]")])])]);
     ("ssn", JStr "[REDACTED]")].
Proof. vm_compute. reflexivity. Qed.

(** ** The theorems at work on the sample log *)

(** The second entry with another previousHash, its entryHash kept. *)
Definition sample_relinked : AuditEntry :=
  mutate (SetPreviousHash (Some "00")) (fst sample_log2).

Definition sample_relinked_file : File :=
  [Stored (fst sample_log1); Stored sample_relinked; Stored (fst sample_log3)].





Lemma entry_hash_mismatch_record_witness :
  FileStorage.verifyIntegrity sample_clock sample_rewritten_file
    (Some "2026-01-02")
  = Some (Result.mk false 2 1 1
            [Failure.mk "id-2" "2026-01-02T00:00:00.000Z"
               "Entry hash mismatch - possible tampering"
               (entryHash (fst sample_log2))
               (Some (computeEntryHash sample_rewritten))]).
Proof.
  assert (H1 : FileStorage.toCheck sample_clock
                 (FileStorage.readAllEntries sample_rewritten_file)
                 (Some "2026-01-02")
               = [] ++ mkRef 1 sample_rewritten
                    :: [mkRef 2 (fst sample_log3)])
    by (vm_compute; reflexivity).
  assert (H2 : forall p,
             predecessor (FileStorage.readAllEntries sample_rewritten_file)
                         (mkRef 1 sample_rewritten) = Some p ->
             opt_str_eqb (previousHash (mkRef 1 sample_rewritten))
                         (entryHash p) = true).
  { assert (Ep : predecessor
                   (FileStorage.readAllEntries sample_rewritten_file)
                   (mkRef 1 sample_rewritten)
                 = Some (mkRef 0 (fst sample_log1)))
      by (vm_compute; reflexivity).
    intros p Hp. rewrite Ep in Hp. injection Hp as <-.
    vm_compute. reflexivity. }
  assert (H3 : opt_str_eqb
                 (Some (computeEntryHash (mkRef 1 sample_rewritten)))
                 (entryHash (mkRef 1 sample_rewritten)) = false)
    by (vm_compute; reflexivity).
  destruct (entry_hash_mismatch_record sample_clock sample_rewritten_file
              (Some "2026-01-02") [] [mkRef 2 (fst sample_log3)]
              (mkRef 1 sample_rewritten) H1 H2 H3)
    as [_ (fb & vb & fa & va & Hb & Ha & Hr)].
  assert (Eb : FileStorage.check_all
                 (FileStorage.readAllEntries sample_rewritten_file) []
               = Some ([], 0)) by (vm_compute; reflexivity).
  assert (Ea : FileStorage.check_all
                 (FileStorage.readAllEntries sample_rewritten_file)
                 [mkRef 2 (fst sample_log3)]
               = Some ([], 1)) by (vm_compute; reflexivity).
  rewrite Eb in Hb. rewrite Ea in Ha.
  injection Hb as <- <-. injection Ha as <- <-.
  rewrite Hr. vm_compute. reflexivity.
Defined.

Lemma previous_hash_mismatch_reported_once_witness :
  FileStorage.verifyIntegrity sample_clock sample_relinked_file
    (Some "2026-01-02")
  = Some (Result.mk false 2 1 1
            [Failure.mk "id-2" "2026-01-02T00:00:00.000Z"
               "Previous hash mismatch"
               (entryHash (fst sample_log1))
               (Some "00")]).
Proof.
  assert (H1 : FileStorage.toCheck sample_clock
                 (FileStorage.readAllEntries sample_relinked_file)
                 (Some "2026-01-02")
               = [] ++ mkRef 1 sample_relinked
                    :: [mkRef 2 (fst sample_log3)])
    by (vm_compute; reflexivity).
  assert (H2 : nth_error (FileStorage.readAllEntries sample_relinked_file) 0
               = Some (mkRef 0 (fst sample_log1)))
    by (vm_compute; reflexivity).
  assert (H3 : nth_error (FileStorage.readAllEntries sample_relinked_file) 1
               = Some (mkRef 1 sample_relinked))
    by (vm_compute; reflexivity).
  assert (H4 : opt_str_eqb (previousHash (mkRef 1 sample_relinked))
                           (entryHash (mkRef 0 (fst sample_log1))) = false)
    by (vm_compute; reflexivity).
  destruct (previous_hash_mismatch_reported_once sample_clock
              sample_relinked_file (Some "2026-01-02") []
              [mkRef 2 (fst sample_log3)] (mkRef 0 (fst sample_log1))
              (mkRef 1 sample_relinked) 0 H1 H2 H3 H4)
    as [_ (fb & vb & fa & va & Hb & Ha & Hr)].
  assert (Eb : FileStorage.check_all
                 (FileStorage.readAllEntries sample_relinked_file) []
               = Some ([], 0)) by (vm_compute; reflexivity).
  assert (Ea : FileStorage.check_all
                 (FileStorage.readAllEntries sample_relinked_file)
                 [mkRef 2 (fst sample_log3)]
               = Some ([], 1)) by (vm_compute; reflexivity).
  rewrite Eb in Hb. rewrite Ea in Ha.
  injection Hb as <- <-. injection Ha as <- <-.
  rewrite Hr. vm_compute. reflexivity.
Defined.

Lemma computeEntryHash_pure_hex64_witness :
  computeEntryHash (fst sample_log2)
  = computeEntryHash (with_entryHash (fst sample_log2) (Some "ff"))
  /\ String.length (computeEntryHash (fst sample_log2)) = 64
  /\ Hex.allLowerHex (computeEntryHash (fst sample_log2)) = true.
Proof.
  assert (H : with_entryHash (fst sample_log2) None
              = with_entryHash (with_entryHash (fst sample_log2) (Some "ff"))
                               None) by reflexivity.
  destruct (computeEntryHash_pure_hex64 (fst sample_log2)
              (with_entryHash (fst sample_log2) (Some "ff")) H)
    as (A & B & C & _).
  split; [exact A|]. split; [exact B | exact C].
Defined.

(* ================================================================== *)
(** * Further properties of the storage, the logger and the commands *)

(** ** What the verifier accepts *)

Lemma report_chain_nil (previous : option AuditEntry) (es : list AuditEntry) :
  report_chain previous es = [] -> chain_from previous es = true.
Proof.
  revert previous; induction es as [|e es IH]; intros previous H;
    [reflexivity|].
  cbn [report_chain] in H. apply app_eq_nil in H as [V R].
  cbn [chain_from]. rewrite (IH _ R), andb_true_r.
  unfold verdict in V. destruct previous as [p|].
  - destruct (chained p e); [|discriminate].
    now destruct (sealed e).
  - now destruct (sealed e).
Qed.

Lemma report_chain_length (previous : option AuditEntry) (es : list AuditEntry) :
  List.length (report_chain previous es) <= List.length es.
Proof.
  revert previous; induction es as [|e es IH]; intros previous; [apply le_n|].
  cbn [report_chain List.length]. rewrite length_app.
  pose proof (verdict_length previous e). specialize (IH (Some e)). lia.
Qed.

Lemma chain_from_unlinked (previous : option AuditEntry) (es : list AuditEntry) :
  chain_from previous es = true -> chain_from None es = true.
Proof.
  destruct es as [|e es]; [reflexivity|]. cbn [chain_from].
  intros H. apply andb_prop in H as [H H3]. apply andb_prop in H as [_ H2].
  now rewrite H2, H3.
Qed.

(** The flag [valid] of a verification of the whole log says exactly
    that every stored entry carries the hash of its own content and that
    every entry but the first carries the entryHash of the entry stored
    just before it. Nothing is asked of the previousHash of the first
    entry. *)
Theorem verifyIntegrity_valid_exactly_on_chains :
  forall (getTime : string -> option Z) (file : File),
  exists r : Result.t,
    FileStorage.verifyIntegrity getTime file None = Some r
    /\ Result.valid r = valid_chain (stored file)
    /\ Result.entriesChecked r = List.length (stored file).
Proof.
  intros getTime file. rewrite verifyIntegrity_whole. eexists.
  split; [reflexivity|]. split; [|reflexivity].
  cbn [Result.valid]. unfold valid_chain.
  destruct (chain_from None (stored file)) eqn:C.
  - now rewrite (chain_report _ _ C).
  - destruct (report_chain None (stored file)) eqn:R; [|reflexivity].
    apply report_chain_nil in R. congruence.
Qed.

(** Entries removed from the start of the log, from its end, or both, go
    unnoticed: when the whole log verifies, so does every run of
    consecutive entries of it stored alone. *)
Theorem verifyIntegrity_accepts_truncated_log :
  forall (getTime : string -> option Z) (file part : File)
         (before after : list AuditEntry) (r : Result.t),
    FileStorage.verifyIntegrity getTime file None = Some r ->
    Result.valid r = true ->
    stored file = before ++ stored part ++ after ->
    FileStorage.verifyIntegrity getTime part None
    = Some (Result.mk true (List.length (stored part))
              (List.length (stored part)) 0 []).
Proof.
  intros getTime file part before after r V T S.
  rewrite verifyIntegrity_whole in V. injection V as <-.
  cbn [Result.valid] in T.
  assert (C : chain_from None (stored file) = true).
  { apply report_chain_nil.
    destruct (report_chain None (stored file)); [reflexivity|discriminate]. }
  rewrite S, !chain_from_app in C.
  apply andb_prop in C as [_ C]. apply andb_prop in C as [C _].
  apply chain_from_unlinked in C.
  rewrite verifyIntegrity_whole, (chain_report _ _ C).
  cbn [List.length Nat.eqb]. now rewrite Nat.sub_0_r.
Qed.

(** An entry taken out between two others is noticed, at the entry that
    followed it, as long as the two entries that now meet do not carry
    the same entryHash: that entry alone is reported, with "Previous
    hash mismatch", and every other entry is counted valid. *)
Theorem verifyIntegrity_detects_removed_entry :
  forall (getTime : string -> option Z) (file : File)
         (pre post : list AuditEntry) (p e n : AuditEntry),
    valid_chain (pre ++ p :: e :: n :: post) = true ->
    entryHash p <> entryHash e ->
    stored file = pre ++ p :: n :: post ->
    FileStorage.verifyIntegrity getTime file None
    = Some (Result.mk false
              (List.length (pre ++ p :: n :: post))
              (List.length (pre ++ p :: n :: post) - 1)
              1
              [Failure.mk (auditId n) (timestamp n) "Previous hash mismatch"
                 (entryHash p) (previousHash n)]).
Proof.
  intros getTime file pre post p e n V D S.
  rewrite verifyIntegrity_whole, S.
  unfold valid_chain in V.
  replace (pre ++ p :: e :: n :: post)
    with ((pre ++ [p]) ++ e :: n :: post) in V
    by (now rewrite <- app_assoc).
  rewrite chain_from_app, last_or_snoc in V.
  apply andb_prop in V as [V1 V2].
  cbn [chain_from] in V2.
  apply andb_prop in V2 as [V2 V3]. apply andb_prop in V3 as [V3 V4].
  apply andb_prop in V3 as [Cn Sn]. apply andb_prop in V2 as [Ce _].
  assert (R : report_chain None (pre ++ p :: n :: post)
              = [Failure.mk (auditId n) (timestamp n) "Previous hash mismatch"
                   (entryHash p) (previousHash n)]).
  { replace (pre ++ p :: n :: post) with ((pre ++ [p]) ++ n :: post)
      by (now rewrite <- app_assoc).
    rewrite report_chain_app, last_or_snoc, (chain_report _ _ V1).
    cbn [app report_chain]. rewrite (chain_report _ _ V4), app_nil_r.
    unfold verdict.
    assert (X : chained p n = false).
    { unfold chained in *. apply opt_str_eqb_neq.
      apply opt_str_eqb_eq in Cn. rewrite Cn. congruence. }
    rewrite X. reflexivity. }
  rewrite R. reflexivity.
Qed.

(** A [fromDate] that [Date] cannot read makes every comparison with it
    false: no entry is checked and the log is reported valid, whatever
    it holds. *)
Theorem verifyIntegrity_unreadable_fromDate :
  forall (getTime : string -> option Z) (file : File) (d : string),
    Str.truthy d = true ->
    getTime d = None ->
    FileStorage.verifyIntegrity getTime file (Some d)
    = Some (Result.mk true 0 0 0 []).
Proof.
  intros getTime file d T N. rewrite verifyIntegrity_closed.
  unfold FileStorage.toCheck. cbn [FileStorage.given]. rewrite T, N.
  assert (E : filter (fun e : Ref =>
                        FileStorage.time_ge (getTime (timestamp e)) None)
                     (FileStorage.readAllEntries file) = []).
  { induction (FileStorage.readAllEntries file) as [|x l IH]; [reflexivity|].
    cbn [filter]. unfold FileStorage.time_ge at 1.
    now destruct (getTime (timestamp x)). }
  rewrite E. reflexivity.
Qed.

(** Entries written through the logger to a file that ends with a line
    feed never change what a verification of the whole log finds: the
    failures are those of the log as it was, and each new entry is
    checked and valid. *)
Theorem logging_preserves_failures :
  forall (getTime : string -> option Z) (file : File) (calls : list Call),
  terminated file = true ->
  exists r : Result.t,
    FileStorage.verifyIntegrity getTime file None = Some r
    /\ FileStorage.verifyIntegrity getTime (snd (perform_all file calls)) None
       = Some (Result.mk (Result.valid r)
                 (Result.entriesChecked r + List.length calls)
                 (Result.validEntries r + List.length calls)
                 (Result.invalidEntries r)
                 (Result.failures r)).
Proof.
  intros getTime file calls T. rewrite !verifyIntegrity_whole.
  eexists. split; [reflexivity|].
  cbn [Result.valid Result.entriesChecked Result.validEntries
       Result.invalidEntries Result.failures].
  destruct (perform_all_linked calls file T) as (S & L & H).
  rewrite S, report_chain_app.
  rewrite (chain_report _ _ (linked_chain (last_or None (stored file)) _ L H)).
  rewrite app_nil_r, length_app, perform_all_length.
  pose proof (report_chain_length None (stored file)).
  do 2 f_equal. lia.
Qed.

Lemma flat_map_filter {A B : Type} (g : A -> list B) (p : A -> bool)
    (q : B -> bool) (l : list A) :
  (forall a b, In b (g a) -> q b = p a) ->
  flat_map g (filter p l) = filter q (flat_map g l).
Proof.
  intros H. induction l as [|a l IH]; [reflexivity|].
  cbn [filter flat_map]. rewrite filter_app, <- IH.
  assert (G : filter q (g a) = if p a then g a else []).
  { specialize (H a). induction (g a) as [|b m IHm];
      [now destruct (p a)|].
    cbn [filter]. rewrite (H b (or_introl eq_refl)).
    assert (Hm : filter q m = if p a then m else [])
      by (apply IHm; intros b' Hb; apply H; now right).
    rewrite Hm. now destruct (p a). }
  rewrite G. now destruct (p a).
Qed.

Lemma verdict_timestamp (previous : option AuditEntry) (e : AuditEntry)
    (f : Failure.t) :
  In f (verdict previous e) -> Failure.timestamp f = timestamp e.
Proof.
  unfold verdict.
  destruct previous as [p|]; [destruct (chained p e)|]; try destruct (sealed e);
    cbn; intros H; try contradiction; destruct H as [<-|[]]; reflexivity.
Qed.

(** A verification from a date reports exactly those failures of the
    verification of the whole log whose entry is dated at or after
    [fromDate]; so a log that verifies as a whole verifies from every
    date. *)
Theorem verifyIntegrity_from_date_reports_later_failures :
  forall (getTime : string -> option Z) (file : File)
         (fromDate : option string),
  exists whole dated : Result.t,
    FileStorage.verifyIntegrity getTime file None = Some whole
    /\ FileStorage.verifyIntegrity getTime file fromDate = Some dated
    /\ Result.failures dated
       = match FileStorage.given fromDate with
         | Some d =>
             filter (fun f : Failure.t =>
                       FileStorage.time_ge (getTime (Failure.timestamp f))
                                           (getTime d))
                    (Result.failures whole)
         | None => Result.failures whole
         end
    /\ (Result.valid whole = true -> Result.valid dated = true).
Proof.
  intros getTime file fromDate. rewrite !verifyIntegrity_closed.
  do 2 eexists. split; [reflexivity|]. split; [reflexivity|].
  cbn [Result.failures Result.valid].
  unfold FileStorage.toCheck at 1 3 4. cbn [FileStorage.given].
  unfold FileStorage.toCheck.
  destruct (FileStorage.given fromDate) as [d|]; [|split; [reflexivity|auto]].
  assert (E : report (FileStorage.readAllEntries file)
                (filter (fun e : Ref =>
                           FileStorage.time_ge (getTime (timestamp e))
                                               (getTime d))
                        (FileStorage.readAllEntries file))
              = filter (fun f : Failure.t =>
                          FileStorage.time_ge (getTime (Failure.timestamp f))
                                              (getTime d))
                       (report (FileStorage.readAllEntries file)
                               (FileStorage.readAllEntries file))).
  { unfold report. apply flat_map_filter.
    intros a b Hb. now rewrite (verdict_timestamp _ _ _ Hb). }
  rewrite E. split; [reflexivity|].
  destruct (report (FileStorage.readAllEntries file)
                   (FileStorage.readAllEntries file)); [reflexivity|discriminate].
Qed.

Lemma chain_sealed (previous : option AuditEntry) (es : list AuditEntry) :
  chain_from previous es = true -> Forall (fun e => sealed e = true) es.
Proof.
  revert previous; induction es as [|e es IH]; intros previous H;
    [constructor|].
  cbn [chain_from] in H. apply andb_prop in H as [H H3].
  apply andb_prop in H as [_ H2]. constructor; [exact H2 | now apply (IH (Some e))].
Qed.

Lemma getById_stored (file : File) (id : string) (r : Ref) :
  FileStorage.getById file id = Some r ->
  In (val r) (stored file) /\ auditId r = id.
Proof.
  unfold FileStorage.getById. intros H. apply find_some in H as [H E].
  apply String.eqb_eq in E. split; [|exact E].
  rewrite readAllEntries_refs in H.
  rewrite <- (refs_from_val (stored file) 0). now apply in_map.
Qed.

Lemma getById_some (file : File) (e : AuditEntry) :
  In e (stored file) ->
  exists r, FileStorage.getById file (auditId e) = Some r.
Proof.
  intros H. unfold FileStorage.getById.
  destruct (find (fun x : Ref => String.eqb (auditId x) (auditId e))
                 (FileStorage.readAllEntries file)) as [r|] eqn:F;
    [now exists r|].
  exfalso. rewrite readAllEntries_refs in F.
  rewrite <- (refs_from_val (stored file) 0) in H.
  apply in_map_iff in H as (x & <- & Hx).
  apply (find_none _ _ F) in Hx. now rewrite String.eqb_refl in Hx.
Qed.

(** When [auditctl verify] passes on a log, [auditctl replay] passes for
    the id of every entry stored in it; and a replay passes exactly when
    the oldest entry with that id carries the hash of its own content,
    whatever its link to the entry before. *)
Theorem replay_passes_where_verify_passes :
  forall (getTime : string -> option Z) (file : File),
    (Verify.exit_status getTime file None = 0%Z ->
     forall e : AuditEntry,
       In e (stored file) ->
       Replay.exit_status (Replay.run file (auditId e)) = 0%Z)
    /\ (forall id : string,
          Replay.exit_status (Replay.run file id) = 0%Z
          <-> exists r : Ref,
                FileStorage.getById file id = Some r /\ sealed r = true).
Proof.
  intros getTime file. split.
  - unfold Verify.exit_status. rewrite verifyIntegrity_whole.
    cbn [Result.valid]. intros V e H.
    assert (C : chain_from None (stored file) = true).
    { apply report_chain_nil.
      destruct (report_chain None (stored file)); [reflexivity|discriminate]. }
    apply chain_sealed in C. rewrite Forall_forall in C.
    destruct (getById_some file e H) as [r G].
    unfold Replay.run. rewrite G. cbn [Replay.exit_status Replay.hashValid].
    apply getById_stored in G as [G _]. apply C in G.
    unfold sealed in G. now rewrite G.
  - intros id. unfold Replay.run.
    destruct (FileStorage.getById file id) as [r|].
    + cbn [Replay.exit_status Replay.hashValid]. fold (sealed r). split.
      * intros H. exists r. split; [reflexivity|].
        now destruct (sealed r).
      * intros (r' & E & S). injection E as <-. now rewrite S.
    + cbn. split; [discriminate|]. intros (r & E & _). discriminate.
Qed.

(** ** Appending only *)

(** On a file that ends with a line feed, calls of the logger only
    append: the file as it was, unreadable lines included, is the
    beginning of the file afterwards, each call adds one line, the line
    of the entry it returns, and the number of entries grows by the
    number of calls. *)
Theorem logging_only_appends :
  forall (getTime : string -> option Z) (file : File) (calls : list Call),
    terminated file = true ->
    snd (perform_all file calls)
    = file ++ map Stored (fst (perform_all file calls))
    /\ List.length (fst (perform_all file calls)) = List.length calls
    /\ FileStorage.count getTime (snd (perform_all file calls)) None
       = FileStorage.count getTime file None + List.length calls.
Proof.
  intros getTime file calls T.
  assert (A : snd (perform_all file calls)
              = file ++ map Stored (fst (perform_all file calls))).
  { revert file T; induction calls as [|c calls IH]; intros file T.
    - cbn. now rewrite app_nil_r.
    - cbn [perform_all fst snd map].
      rewrite IH by apply perform_terminates.
      rewrite (perform_appends file c T) at 1. now rewrite <- app_assoc. }
  split; [exact A|]. split; [apply perform_all_length|].
  cbn [FileStorage.count].
  destruct (perform_all_linked calls file T) as (S & _).
  rewrite !readAllEntries_refs, !refs_from_length, S, length_app.
  now rewrite perform_all_length.
Qed.

(** ** Appending after a line that no line feed ends *)

Lemma append_unterminated (file : File) (text : string)
    (parsed : option AuditEntry) (entry : AuditEntry) :
  FileStorage.append (file ++ [Unterminated text parsed]) entry
  = file ++ [if Str.jsonBlank text then Stored entry
             else Malformed (text ++ entry_text entry)].
Proof.
  induction file as [|l file IH]; [reflexivity|].
  cbn [app]. rewrite <- IH.
  destruct (file ++ [Unterminated text parsed]) as [|l' rest] eqn:F.
  - destruct file; discriminate F.
  - now destruct l.
Qed.

(** When the file does not end with a line feed and its last line holds
    more than white space of JSON, the entry that [log] returns is not
    in the log afterwards. Its text continues that last line, the
    reading loop skips the whole line with a warning, and what is read
    from the file is what the lines before it hold: an entry that the
    unterminated line held is lost with the new one, and every
    verification gives the result it gives on those lines alone. *)
Theorem log_after_unterminated_line_is_lost :
  forall (getTime : string -> option Z) (lg : Logger.t) (file : File)
         (text : string) (parsed : option AuditEntry) (o : Options.t)
         (id now : string) (fromDate : option string),
    Str.jsonBlank text = false ->
    let done := log lg (file ++ [Unterminated text parsed]) o id now in
    snd done = file ++ [Malformed (text ++ entry_text (fst done))]
    /\ FileStorage.readAllEntries (snd done) = FileStorage.readAllEntries file
    /\ FileStorage.warningsPrinted (snd done)
       = FileStorage.warningsPrinted file
         ++ [warning (text ++ entry_text (fst done))]
    /\ FileStorage.verifyIntegrity getTime (snd done) fromDate
       = FileStorage.verifyIntegrity getTime file fromDate.
Proof.
  intros getTime lg file text parsed o id now fromDate B done.
  assert (A : snd done = file ++ [Malformed (text ++ entry_text (fst done))]).
  { unfold done, log. cbn [fst snd]. now rewrite append_unterminated, B. }
  assert (R : FileStorage.readAllEntries (snd done)
              = FileStorage.readAllEntries file).
  { rewrite !readAllEntries_refs, A, stored_app. cbn. now rewrite app_nil_r. }
  split; [exact A|]. split; [exact R|]. split.
  - rewrite !warningsPrinted_malformed, A. unfold malformed.
    rewrite flat_map_app, map_app. reflexivity.
  - now rewrite !verifyIntegrity_closed, R.
Qed.

(** ** Looking entries up *)

Lemma find_refs_from (id : string) (es : list AuditEntry) (i : nat) :
  match find (fun e : Ref => String.eqb (auditId e) id) (refs_from i es) with
  | Some r =>
      exists before after,
        es = before ++ val r :: after
        /\ oid r = i + List.length before
        /\ auditId r = id
        /\ Forall (fun e => auditId e <> id) before
  | None => Forall (fun e => auditId e <> id) es
  end.
Proof.
  revert i; induction es as [|e es IH]; intros i; [constructor|].
  cbn [refs_from find val].
  destruct (String.eqb_spec (auditId e) id) as [E|N].
  - exists [], es. cbn. repeat split; [lia | exact E | constructor].
  - specialize (IH (S i)).
    destruct (find (fun e0 : Ref => String.eqb (auditId e0) id)
                   (refs_from (S i) es)) as [r|].
    + destruct IH as (before & after & -> & O & A & F).
      exists (e :: before), after. cbn [app List.length].
      repeat split; [lia | exact A | now constructor].
    + now constructor.
Qed.

(** [getById] returns the oldest stored entry with that auditId, and
    nothing exactly when no stored entry has it; lines that do not parse
    are passed over. *)
Theorem getById_oldest_match :
  forall (file : File) (id : string),
    match FileStorage.getById file id with
    | Some r =>
        exists before after,
          stored file = before ++ val r :: after
          /\ auditId r = id
          /\ Forall (fun e => auditId e <> id) before
    | None => Forall (fun e => auditId e <> id) (stored file)
    end.
Proof.
  intros file id. unfold FileStorage.getById. rewrite readAllEntries_refs.
  pose proof (find_refs_from id (stored file) 0) as H.
  destruct (find (fun e : Ref => String.eqb (auditId e) id)
                 (refs_from 0 (stored file))) as [r|]; [|exact H].
  destruct H as (before & after & S & _ & A & F).
  now exists before, after.
Qed.

Lemma find_app_none {A : Type} (p : A -> bool) (l l' : list A) :
  find p l = None -> find p (l ++ l') = find p l'.
Proof.
  induction l as [|x l IH]; [reflexivity|]. cbn.
  destruct (p x); [discriminate | exact IH].
Qed.

Lemma find_none_refs (id : string) (es : list AuditEntry) (i : nat) :
  Forall (fun e => auditId e <> id) es ->
  find (fun e : Ref => String.eqb (auditId e) id) (refs_from i es) = None.
Proof.
  intros F. revert i. induction F as [|e es N F IH]; intros i; [reflexivity|].
  cbn [refs_from find val].
  destruct (String.eqb_spec (auditId e) id); [contradiction | apply IH].
Qed.

(** On a file that ends with a line feed, an entry logged under an
    auditId that no stored entry has yet is the one that [getById]
    returns for it afterwards. *)
Theorem logged_entry_found_by_id :
  forall (file : File) (c : Call),
    terminated file = true ->
    Forall (fun e => auditId e <> auditId (fst (perform file c)))
           (stored file) ->
    option_map val
      (FileStorage.getById (snd (perform file c))
                           (auditId (fst (perform file c))))
    = Some (fst (perform file c)).
Proof.
  intros file c T F.
  unfold FileStorage.getById.
  rewrite readAllEntries_refs, (perform_appends file c T), stored_app.
  cbn [stored flat_map app as_read]. rewrite refs_from_app.
  rewrite find_app_none by (now apply find_none_refs).
  cbn [refs_from find val]. now rewrite String.eqb_refl.
Qed.

(** ** The last entry *)

Definition is_stored (l : Line) : bool :=
  match as_read l with Stored _ => true | _ => false end.

Lemma stored_unreadable (junk : File) :
  Forall (fun l => is_stored l = false) junk -> stored junk = [].
Proof.
  induction 1 as [|l junk H _ IH]; [reflexivity|].
  unfold stored in *. cbn [flat_map]. rewrite IH.
  unfold is_stored in H. now destruct (as_read l).
Qed.

(** After an append to a file that ends with a line feed,
    [getLastEntry] returns the entry appended, also when lines that hold
    no entry (blank or not valid JSON) follow it: the next [log] links
    to the last entry that can be read. *)
Theorem getLastEntry_after_append :
  forall (file : File) (e : AuditEntry) (junk : File),
    terminated file = true ->
    Forall (fun l => is_stored l = false) junk ->
    option_map val (FileStorage.getLastEntry (FileStorage.append file e ++ junk))
    = Some e
    /\ forall (lg : Logger.t) (o : Options.t) (id now : string),
         previousHash
           (fst (log lg (FileStorage.append file e ++ junk) o id now))
         = entryHash e.
Proof.
  intros file e junk T J.
  assert (S : stored (FileStorage.append file e ++ junk) = stored file ++ [e]).
  { rewrite (append_terminated file e T).
    rewrite !stored_app, (stored_unreadable junk J), app_nil_r. reflexivity. }
  split.
  - now rewrite getLastEntry_last, S, last_or_snoc.
  - intros lg o id now.
    destruct (log_links lg (FileStorage.append file e ++ junk) o id now)
      as (P & _).
    now rewrite P, S, last_hash_snoc.
Qed.

(** ** Pages of a query *)

(** The same filters with another page. *)
Definition with_page (o : Query.t) (offset limit : option Z) : Query.t :=
  Query.mk (Query.loanId o) (Query.tool o) (Query.command o)
    (Query.operator o) (Query.sessionId o) (Query.startDate o)
    (Query.endDate o) (Query.hasRiskFlags o) (Query.humanReviewRequired o)
    limit offset.

Lemma In_firstn {A : Type} (n : nat) (l : list A) (x : A) :
  In x (firstn n l) -> In x l.
Proof.
  intros H. rewrite <- (firstn_skipn n l). apply in_or_app. now left.
Qed.

Lemma In_skipn {A : Type} (n : nat) (l : list A) (x : A) :
  In x (skipn n l) -> In x l.
Proof.
  intros H. rewrite <- (firstn_skipn n l). apply in_or_app. now right.
Qed.

Lemma In_slice {A : Type} (l : list A) (first last : Z) (x : A) :
  In x (FileStorage.slice l first last) -> In x l.
Proof.
  unfold FileStorage.slice. intros H.
  apply In_firstn in H. now apply In_skipn in H.
Qed.

Lemma slice_length {A : Type} (l : list A) (first n : Z) :
  (0 < n)%Z ->
  (Z.of_nat (List.length (FileStorage.slice l first (first + n))) <= n)%Z.
Proof.
  intros H. unfold FileStorage.slice. rewrite length_firstn.
  set (len := Z.of_nat (List.length l)).
  assert (0 <= len)%Z by (unfold len; lia).
  destruct (first <? 0)%Z eqn:E1; destruct (first + n <? 0)%Z eqn:E2;
    rewrite ?Z.ltb_lt, ?Z.ltb_ge in *; lia.
Qed.

(** With indices that are not negative, [slice] is [firstn] of [skipn]. *)
Lemma slice_plain {A : Type} (l : list A) (i n : nat) :
  FileStorage.slice l (Z.of_nat i) (Z.of_nat i + Z.of_nat n)
  = firstn n (skipn i l).
Proof.
  unfold FileStorage.slice.
  set (len := List.length l).
  replace (Z.of_nat i <? 0)%Z with false by (symmetry; apply Z.ltb_ge; lia).
  replace (Z.of_nat i + Z.of_nat n <? 0)%Z with false
    by (symmetry; apply Z.ltb_ge; lia).
  destruct (Nat.le_gt_cases len i) as [Hle|Hgt].
  - replace (Z.to_nat (Z.min (Z.of_nat i) (Z.of_nat len))) with len by lia.
    rewrite !skipn_all2 by (fold len; lia). now rewrite !firstn_nil.
  - replace (Z.to_nat (Z.min (Z.of_nat i) (Z.of_nat len))) with i by lia.
    destruct (Nat.le_gt_cases (i + n) len) as [H|H].
    + f_equal. lia.
    + rewrite !firstn_all2; [reflexivity | |];
        rewrite length_skipn; fold len; lia.
Qed.

Lemma firstn_add {A : Type} (b c : nat) (l : list A) :
  firstn (b + c) l = firstn b l ++ firstn c (skipn b l).
Proof.
  revert l; induction b as [|b IH]; intros l; [reflexivity|].
  destruct l as [|x l]; [now rewrite !firstn_nil|].
  cbn. now rewrite IH.
Qed.

Lemma skipn_add {A : Type} (a b : nat) (l : list A) :
  skipn (a + b) l = skipn b (skipn a l).
Proof.
  revert l; induction a as [|a IH]; intros l; [reflexivity|].
  destruct l as [|x l]; [now rewrite !skipn_nil|].
  cbn. apply IH.
Qed.

Lemma filter_refs (p : AuditEntry -> bool) (es : list AuditEntry) (i : nat) :
  map val (filter (fun r : Ref => p r) (refs_from i es)) = filter p es.
Proof.
  revert i; induction es as [|e es IH]; intros i; [reflexivity|].
  cbn [refs_from filter val]. destruct (p e); cbn [map val]; now rewrite IH.
Qed.

Lemma matches_page (getTime : string -> option Z) (o : Query.t)
    (offset limit : option Z) (e : AuditEntry) :
  matches getTime (with_page o offset limit) e = matches getTime o e.
Proof. reflexivity. Qed.

(** Every entry that [query] returns is an entry of the file that
    satisfies all the filters that are set; a positive limit bounds the
    number of entries returned, whatever the offset. *)
Theorem query_returns_matching_entries :
  forall (getTime : string -> option Z) (file : File) (o : Query.t),
    Forall (fun r : Ref =>
              In (val r) (stored file) /\ matches getTime o r = true)
           (FileStorage.query getTime file o)
    /\ (forall n : Z,
          Query.limit o = Some n -> (0 < n)%Z ->
          (Z.of_nat (List.length (FileStorage.query getTime file o)) <= n)%Z).
Proof.
  intros getTime file o. rewrite query_filter_page. cbv zeta. split.
  - apply Forall_forall. intros r H. apply In_slice in H.
    apply filter_In in H as [H M]. split; [|exact M].
    rewrite readAllEntries_refs in H.
    rewrite <- (refs_from_val (stored file) 0). now apply in_map.
  - intros n L P. unfold page_limit. rewrite L.
    replace (n =? 0)%Z with false by (symmetry; apply Z.eqb_neq; lia).
    now apply slice_length.
Qed.

(** Pages that follow one another add up: the page of [b] entries at
    offset [a] followed by the page of [c] entries at offset [a + b] is
    the page of [b + c] entries at offset [a]. *)
Theorem query_pages_add_up :
  forall (getTime : string -> option Z) (file : File) (o : Query.t)
         (a b c : Z),
    (0 <= a)%Z -> (0 < b)%Z -> (0 < c)%Z ->
    FileStorage.query getTime file (with_page o (Some a) (Some b))
    ++ FileStorage.query getTime file (with_page o (Some (a + b)%Z) (Some c))
    = FileStorage.query getTime file (with_page o (Some a) (Some (b + c)%Z)).
Proof.
  intros getTime file o a b c Ha Hb Hc. rewrite !query_filter_page. cbv zeta.
  unfold page_offset, page_limit. cbn [with_page Query.offset Query.limit].
  replace (b =? 0)%Z with false by (symmetry; apply Z.eqb_neq; lia).
  replace (c =? 0)%Z with false by (symmetry; apply Z.eqb_neq; lia).
  replace (b + c =? 0)%Z with false by (symmetry; apply Z.eqb_neq; lia).
  assert (E : forall off lim,
             filter (fun r : Ref => matches getTime (with_page o off lim) r)
                    (FileStorage.readAllEntries file)
             = filter (fun r : Ref => matches getTime o r)
                      (FileStorage.readAllEntries file)) by reflexivity.
  rewrite !E.
  set (m := filter (fun r : Ref => matches getTime o r)
                   (FileStorage.readAllEntries file)).
  rewrite <- (Z2Nat.id a), <- (Z2Nat.id b), <- (Z2Nat.id c) by lia.
  generalize (Z.to_nat a), (Z.to_nat b), (Z.to_nat c). intros i j k.
  rewrite (slice_plain m i j).
  replace (Z.of_nat j + Z.of_nat k)%Z with (Z.of_nat (j + k)) by lia.
  rewrite (slice_plain m i (j + k)).
  replace (Z.of_nat i + Z.of_nat j)%Z with (Z.of_nat (i + j)) by lia.
  rewrite (slice_plain m (i + j) k).
  now rewrite firstn_add, skipn_add.
Qed.

(** [count] with options is the size of the page that [query] returns
    for them, not the number of matching entries: it is never more than
    the number of entries stored and, with a positive limit and an offset
    that is not negative, it is the smaller of the limit and of what the
    matches leave after the offset. *)
Theorem count_with_options_is_page_size :
  forall (getTime : string -> option Z) (file : File) (o : Query.t),
    FileStorage.count getTime file (Some o)
    <= FileStorage.count getTime file None
    /\ (forall n : Z,
          Query.limit o = Some n -> (0 < n)%Z -> (0 <= page_offset o)%Z ->
          Z.of_nat (FileStorage.count getTime file (Some o))
          = Z.min n
              (Z.max (Z.of_nat (List.length
                                  (filter (matches getTime o) (stored file)))
                      - page_offset o) 0)).
Proof.
  intros getTime file o. cbn [FileStorage.count].
  rewrite query_filter_page. cbv zeta.
  rewrite <- (filter_refs (matches getTime o) (stored file) 0), length_map.
  rewrite <- readAllEntries_refs.
  set (m := filter (fun r : Ref => matches getTime o r)
                   (FileStorage.readAllEntries file)).
  split.
  - unfold FileStorage.slice. rewrite length_firstn, length_skipn.
    pose proof (filter_length_le (fun r : Ref => matches getTime o r)
                  (FileStorage.readAllEntries file)).
    fold m in H. lia.
  - intros n L P O. unfold page_limit. rewrite L.
    replace (n =? 0)%Z with false by (symmetry; apply Z.eqb_neq; lia).
    rewrite <- (Z2Nat.id (page_offset o)), <- (Z2Nat.id n) by lia.
    rewrite slice_plain, length_firstn, length_skipn. lia.
Qed.

Lemma filter_none {A : Type} (p : A -> bool) (l : list A) :
  (forall x, p x = false) -> filter p l = [].
Proof.
  intros H. induction l as [|x l IH]; [reflexivity|].
  cbn. now rewrite H.
Qed.

(** A start or end date that [Date] cannot read makes a query return
    nothing, with no error: every comparison with it is false. *)
Theorem query_unreadable_date_is_empty :
  forall (getTime : string -> option Z) (file : File) (o : Query.t)
         (d : string),
    Str.truthy d = true ->
    getTime d = None ->
    Query.startDate o = Some d \/ Query.endDate o = Some d ->
    FileStorage.query getTime file o = []
    /\ FileStorage.count getTime file (Some o) = 0.
Proof.
  intros getTime file o d T N H.
  assert (Q : FileStorage.query getTime file o = []).
  { rewrite query_filter_page. cbv zeta.
    rewrite filter_none; [apply slice_nil|].
    intros x. unfold matches.
    destruct H as [H|H]; rewrite H; cbn [FileStorage.given]; rewrite T, N.
    - replace (FileStorage.time_ge (getTime (timestamp x)) None) with false
        by (unfold FileStorage.time_ge; now destruct (getTime (timestamp x))).
      now rewrite ?andb_false_r.
    - replace (FileStorage.time_le (getTime (timestamp x)) None) with false
        by (unfold FileStorage.time_le; now destruct (getTime (timestamp x))).
      now rewrite ?andb_false_r. }
  split; [exact Q|]. cbn [FileStorage.count]. now rewrite Q.
Qed.

Lemma query_append (getTime : string -> option Z) (file : File)
    (e : AuditEntry) (o : Query.t) :
  terminated file = true ->
  Query.offset o = None ->
  Query.limit o = None ->
  map val (FileStorage.query getTime (FileStorage.append file e) o)
  = map val (FileStorage.query getTime file o)
    ++ (if matches getTime o e then [e] else []).
Proof.
  intros T O L. rewrite !query_filter_page. cbv zeta.
  unfold page_offset, page_limit. rewrite O, L.
  rewrite !(slice_all _ 0) by lia. cbn [Z.to_nat skipn].
  rewrite !readAllEntries_refs, !filter_refs.
  rewrite (append_terminated file e T), stored_app, filter_app.
  cbn [stored flat_map app filter as_read]. now destruct (matches getTime o e).
Qed.

(** With no page asked for, an append to a file that ends with a line
    feed adds the new entry at the end of the result of a query when it
    matches the filters, and changes nothing when it does not. *)
Theorem query_after_append :
  forall (getTime : string -> option Z) (file : File) (e : AuditEntry)
         (o : Query.t),
    terminated file = true ->
    Query.offset o = None ->
    Query.limit o = None ->
    map val (FileStorage.query getTime (FileStorage.append file e) o)
    = map val (FileStorage.query getTime file o)
      ++ (if matches getTime o e then [e] else []).
Proof. exact query_append. Qed.

(** ** The logger *)

Lemma or_else_str_truthy (a : option string) (b : string) :
  Str.truthy b = true -> Str.truthy (or_else_str a b) = true.
Proof.
  intros H. unfold or_else_str. destruct a as [s|]; [|exact H].
  destruct (Str.truthy s) eqn:T; [exact T | exact H].
Qed.

Lemma create_operator (d s : option string) :
  Str.truthy (Logger.defaultOperator (Logger.create d s)) = true.
Proof. now apply or_else_str_truthy. Qed.

(** Every entry names an operator: a logger made by the constructor, or
    by [startSession], which calls it, has a default operator that is not
    empty, and [log] falls back on it when the options give none or an
    empty one. *)
Theorem logged_operator_is_never_empty :
  forall (d s : option string) (file : File) (o : Options.t)
         (decision : Decision) (reasons : option (list string))
         (id now : string),
    Str.truthy (operator (fst (log (Logger.create d s) file o id now))) = true
    /\ Str.truthy
         (operator (fst (logDecision (Logger.create d s) file o decision
                                     reasons id now))) = true.
Proof.
  intros d s file o decision reasons id now.
  split; apply or_else_str_truthy, create_operator.
Qed.

(** The filter of a query for the entries of one session. *)
Definition by_session (s : string) : Query.t :=
  Query.mk None None None None (Some s) None None None None None None.

(** A logger returned by [startSession] is bound to the session asked
    for, or to a fresh one when none or an empty one was asked for; an
    entry that it logs without a sessionId of its own carries that
    session and, on a file that ends with a line feed, is the last entry
    that a query for the session returns afterwards. *)
Theorem session_entries_are_found_by_session :
  forall (getTime : string -> option Z) (lg : Logger.t)
         (sid : option string) (fresh : string) (file : File)
         (o : Options.t) (id now : string),
    Str.truthy fresh = true ->
    FileStorage.given (Options.sessionId o) = None ->
    let session := startSession lg sid fresh in
    let s := or_else_str sid fresh in
    let done := log session file o id now in
    getSessionId session = Some s
    /\ sessionId (fst done) = Some s
    /\ (terminated file = true ->
        map val (FileStorage.query getTime (snd done) (by_session s))
        = map val (FileStorage.query getTime file (by_session s))
          ++ [fst done]).
Proof.
  intros getTime lg sid fresh file o id now F G session s done.
  assert (T : Str.truthy s = true) by now apply or_else_str_truthy.
  assert (S : sessionId (fst done) = Some s).
  { unfold done, log, seal. cbn [fst sessionId with_entryHash].
    unfold entryWithoutHash. cbn [sessionId].
    unfold FileStorage.given in G. unfold or_else_opt_str.
    destruct (Options.sessionId o) as [x|]; [|reflexivity].
    destruct (Str.truthy x); [discriminate | reflexivity]. }
  split; [reflexivity|]. split; [exact S|]. intros Tf.
  unfold done at 1, log. cbn [snd]. fold done.
  change (seal _) with (fst done).
  rewrite query_append by (exact Tf || reflexivity). f_equal.
  unfold matches, by_session.
  cbn [Query.loanId Query.tool Query.command Query.operator Query.sessionId
       Query.startDate Query.endDate Query.hasRiskFlags
       Query.humanReviewRequired FileStorage.given].
  rewrite T, S. cbn [opt_str_eqb andb]. now rewrite String.eqb_refl.
Qed.

Definition caller_regulations (o : Options.t) : list string :=
  match Options.compliance o with
  | Some p => match Partial.regulations p with Some r => r | None => [] end
  | None => []
  end.

(** [logDecision] records the decision under the key "decision" of the
    outputs, over what the caller may have put there, keeps every other
    output of the caller (for a decline, but for adverseActionReasons),
    and adds "ECOA" and "Reg B" after the caller's regulations for every
    decision, declined or not, whether the caller listed them or not. *)
Theorem logDecision_keeps_caller_outputs :
  forall (lg : Logger.t) (file : File) (o : Options.t) (d : Decision)
         (reasons : option (list string)) (id now : string),
    let e := fst (logDecision lg file o d reasons id now) in
    Obj.get (outputs e) "decision" = Some (JStr (decision_name d))
    /\ (forall k : string,
          k <> "decision" -> k <> "adverseActionReasons" ->
          Obj.get (outputs e) k = Obj.get (Options.outputs o) k)
    /\ (is_declined d = false ->
        Obj.get (outputs e) "adverseActionReasons"
        = Obj.get (Options.outputs o) "adverseActionReasons")
    /\ regulations (compliance e) = caller_regulations o ++ ["ECOA"; "Reg B"].
Proof.
  intros lg file o d reasons id now e.
  destruct (logDecision_entry lg file o d reasons id now) as [O C].
  fold e in O, C. rewrite O, C. unfold decision_outputs.
  split; [|split; [|split]].
  - destruct (is_declined d).
    + rewrite get_assign_other by discriminate. apply get_define_same.
    + apply get_define_same.
  - intros k K1 K2. destruct (is_declined d).
    + rewrite get_assign_other by congruence.
      apply get_define_other. congruence.
    + apply get_define_other. congruence.
  - intros ->. apply get_define_other. discriminate.
  - reflexivity.
Qed.

(** ** Redaction at every depth *)

Definition is_marker (v : JSON) : bool :=
  match v with
  | JStr s => String.eqb s REDACTED
  | _ => false
  end.

(** No sensitive key, at any depth, holds anything but the marker. *)
Fixpoint redacted (v : JSON) : bool :=
  match v with
  | JObj props =>
      forallb (fun kv => if isSensitive (fst kv) then is_marker (snd kv)
                         else redacted (snd kv))
              props
  | JArr items => forallb redacted items
  | _ => true
  end.

Definition members (P : string -> JSON -> Prop) (o : JRecord) : Prop :=
  Forall (fun kv => P (fst kv) (snd kv)) o.

Lemma members_insert (P : string -> JSON -> Prop) (n : N) (k : string)
    (v : JSON) (o : JRecord) :
  P k v -> members P o -> members P (Obj.insert_index n k v o).
Proof.
  intros Hv. induction 1 as [|kv o Hk Ho IH]; cbn.
  - repeat constructor. exact Hv.
  - destruct (Obj.array_index (fst kv)) as [m|]; [destruct (m <? n)%N|];
      repeat (constructor; auto).
Qed.

Lemma members_assign (P : string -> JSON -> Prop) (o : JRecord) (k : string)
    (v : JSON) :
  P k v -> members P o -> members P (Obj.assign o k v).
Proof.
  intros Hv Ho. unfold Obj.assign, Obj.define.
  destruct (String.eqb k "__proto__"); [exact Ho|].
  destruct (Obj.has o k).
  - unfold Obj.replace, members. apply Forall_map.
    eapply Forall_impl; [|exact Ho].
    intros kv H. destruct (String.eqb_spec (fst kv) k) as [->|]; assumption.
  - destruct (Obj.array_index k).
    + now apply members_insert.
    + apply Forall_app. split; [exact Ho|]. now repeat constructor.
Qed.

Lemma members_assign_all (P : string -> JSON -> Prop) (kvs : JRecord) :
  members P kvs -> members P (assign_all kvs).
Proof.
  unfold assign_all. assert (H0 : members P []) by constructor.
  revert H0. generalize (@nil (string * JSON)) as acc.
  induction kvs as [|kv kvs IH]; intros acc Ha H; [exact Ha|].
  inversion H; subst. cbn [fold_left]. apply IH; [|assumption].
  now apply members_assign.
Qed.

Lemma sanitized_members (v : JSON) :
  (forall k x, In (k, x) (Obj.entries v) ->
               redacted (JObj (sanitizeInputs x)) = true) ->
  redacted (JObj (sanitizeInputs v)) = true.
Proof.
  intros IH. cbn [redacted]. apply forallb_forall. apply Forall_forall.
  rewrite sanitizeInputs_entries.
  apply (members_assign_all
           (fun k x => (if isSensitive k then is_marker x else redacted x)
                       = true)).
  apply Forall_map. apply Forall_forall. intros [k x] Hin.
  cbn [sanitizeEntry fst snd]. unfold sanitizeValue.
  destruct (isSensitive k); [reflexivity|].
  specialize (IH k x Hin).
  destruct x; try reflexivity; exact IH.
Qed.

Lemma index_from_In (items : list JSON) (i : N) (k : string) (x : JSON) :
  In (k, x) (Obj.index_from i items) -> In x items.
Proof.
  revert i; induction items as [|y items IH]; intros i Hin; [contradiction|].
  cbn in Hin. destruct Hin as [E|Hin]; [injection E as _ <-; now left|].
  right. now apply (IH (N.succ i)).
Qed.

Lemma sanitizeInputs_redacted (v : JSON) :
  redacted (JObj (sanitizeInputs v)) = true.
Proof.
  induction v as [ | b | n | s | items IH | props IH ] using JSON_induction;
    try reflexivity; apply sanitized_members; cbn [Obj.entries].
  - intros k x Hin. apply index_from_In in Hin.
    rewrite Forall_forall in IH. now apply IH.
  - intros k x Hin. rewrite Forall_forall in IH.
    apply (IH (k, x) Hin).
Qed.

(** The inputs of every entry that [log] or [logDecision] writes are
    redacted at every depth: a key that contains one of the sensitive
    names, in whatever letter case, holds the marker ["[REDACTED]"] and
    nothing else, in the record itself and in every mapping or array
    nested in it; and no array is left in them. The outputs are stored
    as they were given. *)
Theorem logged_inputs_are_redacted :
  forall (file : File) (c : Call),
    redacted (JObj (inputs (fst (perform file c)))) = true
    /\ no_array (JObj (inputs (fst (perform file c)))) = true.
Proof.
  intros file c.
  destruct c; split;
    first [apply sanitizeInputs_redacted | apply sanitizeInputs_no_array].
Qed.

(** ** The keys of the sanitized record *)

Lemma has_cons (kv : string * JSON) (o : JRecord) (k : string) :
  Obj.has (kv :: o) k = String.eqb (fst kv) k || Obj.has o k.
Proof. reflexivity. Qed.

Lemma has_insert (o : JRecord) (n : N) (k k' : string) (v : JSON) :
  Obj.has (Obj.insert_index n k v o) k' = String.eqb k k' || Obj.has o k'.
Proof.
  induction o as [|kv o IH]; [reflexivity|]. cbn [Obj.insert_index].
  destruct (Obj.array_index (fst kv)) as [m|]; [destruct (m <? n)%N|];
    rewrite ?has_cons, ?IH; cbn [fst];
    destruct (String.eqb (fst kv) k'), (String.eqb k k'); reflexivity.
Qed.

Lemma has_replace (o : JRecord) (k k' : string) (v : JSON) :
  Obj.has (Obj.replace o k v) k' = Obj.has o k'.
Proof.
  unfold Obj.has, Obj.replace. induction o as [|kv o IH]; [reflexivity|].
  cbn. rewrite IH. now destruct (String.eqb (fst kv) k).
Qed.

Lemma has_assign (o : JRecord) (k k' : string) (v : JSON) :
  Obj.has (Obj.assign o k v) k'
  = (negb (String.eqb k "__proto__") && String.eqb k k') || Obj.has o k'.
Proof.
  unfold Obj.assign, Obj.define.
  destruct (String.eqb k "__proto__"); [reflexivity|]. cbn [negb andb].
  destruct (Obj.has o k) eqn:H.
  - rewrite has_replace. destruct (String.eqb_spec k k') as [<-|];
      [now rewrite H | reflexivity].
  - destruct (Obj.array_index k); [apply has_insert|].
    unfold Obj.has. rewrite existsb_app. cbn. rewrite orb_false_r.
    apply orb_comm.
Qed.

Lemma has_fold_assign (kvs o : JRecord) (k : string) :
  k <> "__proto__" ->
  Obj.has (fold_left (fun sanitized kv => Obj.assign sanitized (fst kv) (snd kv))
                     kvs o) k
  = Obj.has o k || Obj.has kvs k.
Proof.
  intros N. revert o; induction kvs as [|kv kvs IH]; intros o;
    [now rewrite orb_false_r|].
  cbn [fold_left]. rewrite IH, has_assign.
  unfold Obj.has at 4. cbn [existsb].
  destruct (String.eqb_spec (fst kv) k) as [E|]; cbn.
  - rewrite E. destruct (String.eqb_spec k "__proto__"); [contradiction|].
    cbn. now rewrite orb_true_r.
  - rewrite andb_false_r. reflexivity.
Qed.

Lemma has_proto_fold (kvs o : JRecord) :
  Obj.has o "__proto__" = false ->
  Obj.has (fold_left (fun sanitized kv => Obj.assign sanitized (fst kv) (snd kv))
                     kvs o) "__proto__" = false.
Proof.
  revert o; induction kvs as [|kv kvs IH]; intros o H; [exact H|].
  cbn [fold_left]. apply IH. rewrite has_assign, H, orb_false_r.
  now destruct (String.eqb (fst kv) "__proto__").
Qed.

(** [sanitizeInputs] keeps the keys of its argument: the result has a
    key exactly when the argument has it, but for the key ["__proto__"],
    which the result never has. *)
Theorem sanitizeInputs_keeps_keys :
  forall (v : JSON) (k : string),
    Obj.has (sanitizeInputs v) k
    = negb (String.eqb k "__proto__") && Obj.has (Obj.entries v) k.
Proof.
  intros v k. rewrite sanitizeInputs_entries. unfold assign_all.
  assert (M : forall kvs, Obj.has (map sanitizeEntry kvs) k = Obj.has kvs k).
  { intros kvs. unfold Obj.has. induction kvs as [|kv kvs IH]; [reflexivity|].
    cbn. now rewrite IH. }
  destruct (String.eqb_spec k "__proto__") as [->|N].
  - cbn [negb andb]. now apply has_proto_fold.
  - rewrite has_fold_assign by exact N. cbn. apply M.
Qed.

(** ** Sanitizing twice *)

(** [a] comes before [b] in property order. *)
Definition precedes (a b : string) : Prop :=
  match Obj.array_index a, Obj.array_index b with
  | Some n, Some m => (n < m)%N
  | Some _, None => True
  | None, Some _ => False
  | None, None => True
  end.

(** The keys of an object that assignments have built: array indices in
    ascending order, then the other keys; no key twice; no "__proto__". *)
Fixpoint property_order (keys : list string) : Prop :=
  match keys with
  | [] => True
  | k :: r =>
      k <> "__proto__" /\ ~ In k r /\ Forall (precedes k) r
      /\ property_order r
  end.

Lemma has_In (o : JRecord) (k : string) :
  Obj.has o k = true <-> In k (map fst o).
Proof.
  unfold Obj.has. rewrite existsb_exists. split.
  - intros (kv & H & E). apply String.eqb_eq in E as <-. now apply in_map.
  - intros H. apply in_map_iff in H as (kv & <- & H).
    exists kv. split; [exact H | apply String.eqb_refl].
Qed.

Lemma has_not_In (o : JRecord) (k : string) :
  Obj.has o k = false <-> ~ In k (map fst o).
Proof.
  rewrite <- has_In. destruct (Obj.has o k); split; congruence.
Qed.

Lemma replace_keys (o : JRecord) (k : string) (v : JSON) :
  map fst (Obj.replace o k v) = map fst o.
Proof.
  unfold Obj.replace. rewrite map_map. apply map_ext.
  intros kv. now destruct (String.eqb (fst kv) k).
Qed.

Lemma insert_keys_In (o : JRecord) (n : N) (k k' : string) (v : JSON) :
  In k' (map fst (Obj.insert_index n k v o)) <-> k = k' \/ In k' (map fst o).
Proof.
  rewrite <- !has_In, has_insert.
  destruct (String.eqb_spec k k'), (Obj.has o k'); cbn; intuition congruence.
Qed.

Lemma array_index_some (k : string) (n : N) :
  Obj.array_index k = Some n -> k = Json.index_key n.
Proof.
  unfold Obj.array_index.
  destruct (NilEmpty.uint_of_string k) as [d|]; [|discriminate].
  destruct (String.eqb_spec (Json.index_key (N.of_uint d)) k) as [E|];
    [|discriminate].
  cbn [andb]. destruct (N.of_uint d <? 4294967295)%N; [|discriminate].
  intros H. injection H as <-. now symmetry.
Qed.

Lemma property_order_insert (o : JRecord) (n : N) (k : string) (v : JSON) :
  Obj.array_index k = Some n -> k <> "__proto__" -> ~ In k (map fst o) ->
  property_order (map fst o) ->
  property_order (map fst (Obj.insert_index n k v o)).
Proof.
  intros A P. induction o as [|kv o IH]; intros N O.
  - cbn. repeat split; auto.
  - cbn [map property_order] in O. destruct O as (Pk & Nk & Fk & Ok).
    assert (Nr : ~ In k (map fst o)) by (intros H; apply N; now right).
    assert (Ne : fst kv <> k) by (intros H; apply N; now left).
    cbn [Obj.insert_index].
    destruct (Obj.array_index (fst kv)) as [m|] eqn:Am;
      [destruct (m <? n)%N eqn:L|].
    + cbn [map property_order]. split; [exact Pk|]. split; [|split].
      * rewrite insert_keys_In. intros [H|H]; [congruence | contradiction].
      * apply Forall_forall. intros x Hx. apply insert_keys_In in Hx.
        destruct Hx as [<-|Hx].
        -- unfold precedes. rewrite Am, A. now apply N.ltb_lt.
        -- rewrite Forall_forall in Fk. now apply Fk.
      * now apply IH.
    + cbn [map fst property_order]. split; [exact P|]. split; [exact N|].
      split; [|repeat split; assumption].
      assert (Lt : (n < m)%N).
      { apply N.ltb_ge in L. destruct (N.eq_dec n m) as [->|]; [|lia].
        exfalso. apply Ne.
        now rewrite (array_index_some _ _ Am), (array_index_some _ _ A). }
      constructor.
      * unfold precedes. now rewrite A, Am.
      * eapply Forall_impl; [|exact Fk]. intros x. unfold precedes.
        rewrite A, Am. destruct (Obj.array_index x); [lia | auto].
    + cbn [map fst property_order]. split; [exact P|]. split; [exact N|].
      split; [|repeat split; assumption].
      constructor.
      * unfold precedes. now rewrite A, Am.
      * eapply Forall_impl; [|exact Fk]. intros x. unfold precedes.
        rewrite A, Am. destruct (Obj.array_index x); [contradiction | auto].
Qed.

Lemma property_order_last (keys : list string) (k : string) :
  Obj.array_index k = None -> k <> "__proto__" -> ~ In k keys ->
  property_order keys -> property_order (keys ++ [k]).
Proof.
  intros A P. induction keys as [|a keys IH]; intros N O.
  - cbn. repeat split; auto.
  - cbn [property_order] in O. destruct O as (Pa & Na & Fa & Oa).
    cbn [app property_order]. split; [exact Pa|]. split; [|split].
    + intros H. apply in_app_or in H as [H|[H|[]]]; [contradiction|].
      apply N. now left.
    + apply Forall_app. split; [exact Fa|]. constructor; [|constructor].
      unfold precedes. rewrite A. now destruct (Obj.array_index a).
    + apply IH; [|exact Oa]. intros H. apply N. now right.
Qed.

Lemma property_order_assign (o : JRecord) (k : string) (v : JSON) :
  property_order (map fst o) -> property_order (map fst (Obj.assign o k v)).
Proof.
  intros O. unfold Obj.assign, Obj.define.
  destruct (String.eqb_spec k "__proto__") as [|P]; [exact O|].
  destruct (Obj.has o k) eqn:H.
  - now rewrite replace_keys.
  - apply has_not_In in H.
    destruct (Obj.array_index k) as [n|] eqn:A.
    + now apply property_order_insert.
    + rewrite map_app. now apply property_order_last.
Qed.

Lemma property_order_assign_all (kvs : JRecord) :
  property_order (map fst (assign_all kvs)).
Proof.
  unfold assign_all.
  assert (H0 : property_order (map fst (@nil (string * JSON)))) by exact I.
  revert H0. generalize (@nil (string * JSON)) as acc.
  induction kvs as [|kv kvs IH]; intros acc Ha; [exact Ha|].
  cbn [fold_left]. apply IH. now apply property_order_assign.
Qed.

Lemma insert_after (p : JRecord) (n : N) (k : string) (v : JSON) :
  Forall (fun a => precedes (fst a) k) p -> Obj.array_index k = Some n ->
  ~ In k (map fst p) ->
  Obj.insert_index n k v p = p ++ [(k, v)].
Proof.
  intros F A. induction F as [|a p Ha F IH]; intros Nk; [reflexivity|].
  cbn [Obj.insert_index app]. unfold precedes in Ha. rewrite A in Ha.
  destruct (Obj.array_index (fst a)) as [m|]; [|contradiction].
  replace (m <? n)%N with true by (symmetry; now apply N.ltb_lt).
  rewrite IH; [reflexivity|]. intros H. apply Nk. now right.
Qed.

Lemma assign_after (p : JRecord) (k : string) (v : JSON) :
  Forall (fun a => precedes (fst a) k) p -> k <> "__proto__" ->
  ~ In k (map fst p) ->
  Obj.assign p k v = p ++ [(k, v)].
Proof.
  intros F P N. unfold Obj.assign, Obj.define.
  destruct (String.eqb_spec k "__proto__") as [|_]; [contradiction|].
  rewrite (proj2 (has_not_In p k) N).
  destruct (Obj.array_index k) as [n|] eqn:A; [|reflexivity].
  now apply insert_after.
Qed.

Lemma property_order_app (p q : list string) :
  property_order (p ++ q) ->
  property_order q
  /\ forall a b, In a p -> In b q -> a <> b /\ precedes a b.
Proof.
  induction p as [|x p IH]; intros O; [split; [exact O | contradiction]|].
  cbn [app property_order] in O. destruct O as (_ & Nx & Fx & O).
  destruct (IH O) as [Oq H]. split; [exact Oq|].
  intros a b [<-|Ha] Hb; [|now apply H].
  split.
  - intros ->. apply Nx. apply in_or_app. now right.
  - rewrite Forall_forall in Fx. apply Fx. apply in_or_app. now right.
Qed.

Lemma assign_in_order (q p : JRecord) :
  property_order (map fst (p ++ q)) ->
  fold_left (fun sanitized kv => Obj.assign sanitized (fst kv) (snd kv)) q p
  = p ++ q.
Proof.
  revert p; induction q as [|[k v] q IH]; intros p O;
    [now rewrite app_nil_r|].
  cbn [fold_left fst snd].
  pose proof O as O'. rewrite map_app in O'.
  apply property_order_app in O' as [Oq H].
  cbn [map fst property_order] in Oq. destruct Oq as (P & _).
  rewrite assign_after.
  - rewrite IH; rewrite <- app_assoc; [reflexivity | exact O].
  - apply Forall_forall. intros a Ha.
    apply (H (fst a) k); [now apply in_map | now left].
  - exact P.
  - intros Hk. destruct (H k k Hk (or_introl eq_refl)) as [N _]. now apply N.
Qed.

Lemma assign_all_settled (o : JRecord) :
  property_order (map fst o) -> assign_all o = o.
Proof. intros O. unfold assign_all. now apply (assign_in_order o []). Qed.

Lemma sanitizeValue_twice (k : string) (y : JSON) :
  sanitizeInputs (JObj (sanitizeInputs y)) = sanitizeInputs y ->
  sanitizeValue k (sanitizeValue k y) = sanitizeValue k y.
Proof.
  intros IH. unfold sanitizeValue.
  destruct (isSensitive k) eqn:S; [reflexivity|].
  destruct y; try reflexivity; now rewrite IH.
Qed.

Lemma sanitize_again (v : JSON) :
  (forall k y, In (k, y) (Obj.entries v) ->
               sanitizeInputs (JObj (sanitizeInputs y)) = sanitizeInputs y) ->
  sanitizeInputs (JObj (sanitizeInputs v)) = sanitizeInputs v.
Proof.
  intros IH.
  rewrite (sanitizeInputs_entries (JObj (sanitizeInputs v))).
  cbn [Obj.entries].
  assert (M : members (fun k x => sanitizeValue k x = x) (sanitizeInputs v)).
  { rewrite sanitizeInputs_entries. apply members_assign_all.
    apply Forall_map. apply Forall_forall. intros [k y] Hin.
    cbn [sanitizeEntry fst snd]. apply sanitizeValue_twice.
    now apply (IH k y). }
  assert (E : map sanitizeEntry (sanitizeInputs v) = sanitizeInputs v).
  { rewrite <- (map_id (sanitizeInputs v)) at 2. apply map_ext_in.
    intros [k x] Hin. unfold members in M. rewrite Forall_forall in M.
    specialize (M _ Hin). cbn [fst snd] in M.
    unfold sanitizeEntry. cbn [fst snd]. now rewrite M. }
  rewrite E. apply assign_all_settled.
  rewrite sanitizeInputs_entries. apply property_order_assign_all.
Qed.

(** Sanitizing is idempotent: the sanitized record, sanitized again, is
    itself, whatever the inputs. *)
Theorem sanitizeInputs_idempotent :
  forall v : JSON,
    sanitizeInputs (JObj (sanitizeInputs v)) = sanitizeInputs v.
Proof.
  induction v as [ | b | n | s | items IH | props IH ] using JSON_induction;
    try reflexivity; apply sanitize_again; cbn [Obj.entries].
  - intros k y Hin. apply index_from_In in Hin.
    rewrite Forall_forall in IH. now apply IH.
  - intros k y Hin. rewrite Forall_forall in IH. apply (IH (k, y) Hin).
Qed.

(** ** The line that [append] writes *)

(** No character below the space. *)
Fixpoint plain (s : string) : bool :=
  match s with
  | EmptyString => true
  | String c r => (32 <=? Str.code c)%N && plain r
  end.

Lemma plain_append (s t : string) :
  plain (s ++ t) = plain s && plain t.
Proof.
  induction s as [|c s IH]; [reflexivity|]. cbn. now rewrite IH, andb_assoc.
Qed.

Lemma plain_concat (sep : string) (l : list string) :
  plain sep = true -> Forall (fun s => plain s = true) l ->
  plain (String.concat sep l) = true.
Proof.
  intros S. induction 1 as [|x l Hx Hl IH]; [reflexivity|].
  cbn [String.concat]. destruct l as [|y l]; [exact Hx|].
  now rewrite !plain_append, Hx, S, IH.
Qed.

Lemma plain_digits (s : string) : all_digits s = true -> plain s = true.
Proof.
  induction s as [|c s IH]; [reflexivity|]. cbn.
  intros H. apply andb_prop in H as [D H]. rewrite (IH H), andb_true_r.
  unfold isDigit in D. apply andb_prop in D as [D _].
  apply N.leb_le in D. apply N.leb_le. lia.
Qed.

Lemma plain_number (n : Z) : plain (Json.number n) = true.
Proof.
  unfold Json.number. destruct (Z.to_int n) as [d|d]; cbn;
    apply plain_digits, string_of_uint_digits.
Qed.

Lemma plain_escape (c : ascii) : plain (Json.escape c) = true.
Proof. destruct c as [[] [] [] [] [] [] [] []]; reflexivity. Qed.

Lemma plain_quote (s : string) : plain (Json.quote s) = true.
Proof.
  unfold Json.quote. cbn [plain]. rewrite plain_append. cbn.
  rewrite andb_true_r. induction s as [|c s IH]; [reflexivity|].
  cbn [Json.escape_all]. now rewrite plain_append, plain_escape, IH.
Qed.

Lemma plain_stringify (v : JSON) : plain (Json.stringify v) = true.
Proof.
  induction v as [ | b | n | s | items IH | props IH ] using JSON_induction.
  - reflexivity.
  - now destruct b.
  - apply plain_number.
  - apply plain_quote.
  - cbn [Json.stringify]. rewrite !plain_append. cbn.
    rewrite andb_true_r. apply plain_concat; [reflexivity|].
    now apply Forall_map.
  - cbn [Json.stringify]. rewrite !plain_append. cbn.
    rewrite andb_true_r. apply plain_concat; [reflexivity|].
    apply Forall_map. eapply Forall_impl; [|exact IH].
    intros [k x] H. cbn [fst snd] in H.
    change (plain (Json.quote k ++ ":" ++ Json.stringify x) = true).
    now rewrite !plain_append, plain_quote, H.
Qed.

(** The line written for an entry holds no control character, so no
    line feed and no carriage return: whatever the strings of the entry
    contain, the entry takes one line of the file; so does the text that
    is hashed. *)
Theorem appended_line_has_no_line_break :
  forall e : AuditEntry,
    plain (entry_text e) = true /\ plain (canonical e) = true.
Proof. intros e. split; apply plain_stringify. Qed.

(** ** The exports *)

Lemma stringify_indented_compact (v : JSON) (indent : string) :
  stringify_indented "" indent v = Json.stringify v.
Proof.
  revert indent.
  induction v as [ | b | n | s | items IH | props IH ] using JSON_induction;
    intros indent; try reflexivity.
  - cbn [stringify_indented Json.stringify Str.truthy].
    assert (E : map (stringify_indented "" (indent ++ "")%string) items
                = map Json.stringify items).
    { apply map_ext_in. intros x Hx. rewrite Forall_forall in IH.
      now apply IH. }
    rewrite E. now destruct (map Json.stringify items).
  - cbn [stringify_indented Json.stringify Str.truthy].
    assert (E : map (fun kv : string * JSON =>
                       (Json.quote (fst kv) ++ ":" ++ ""
                        ++ stringify_indented "" (indent ++ "") (snd kv))%string)
                    props
                = map (fun kv => (Json.quote (fst kv) ++ ":"
                                  ++ Json.stringify (snd kv))%string) props).
    { apply map_ext_in. intros x Hx. rewrite Forall_forall in IH.
      now rewrite (IH x Hx). }
    rewrite E.
    now destruct (map (fun kv => (Json.quote (fst kv) ++ ":"
                                  ++ Json.stringify (snd kv))%string) props).
Qed.

Example indented_sample :
  stringify_indented "  " ""
    (JArr [JNum 1; JArr []; JArr [JBool true; JNull]])
  = ("[" ++ newline ++ "  1," ++ newline ++ "  []," ++ newline
     ++ "  [" ++ newline ++ "    true," ++ newline ++ "    null" ++ newline
     ++ "  ]" ++ newline ++ "]")%string.
Proof. vm_compute. reflexivity. Qed.


Lemma summarize_folds (native_source : string -> string)
    (entries : list AuditEntry) :
  ExportFormats.summarize native_source entries
  = (fold_left (ExportFormats.increment native_source) (map tool entries) [],
     fold_left (ExportFormats.increment native_source)
               (flat_map (fun e => regulations (compliance e)) entries) []).
Proof.
  unfold ExportFormats.summarize.
  generalize (@nil (string * JSON)) at 1 3 as a.
  generalize (@nil (string * JSON)) as b.
  induction entries as [|e entries IH]; intros b a; [reflexivity|].
  cbn [fold_left map flat_map fst snd]. rewrite IH.
  now rewrite fold_left_app.
Qed.

(** The number stored under a key after [c] more increments. *)
Definition counted (v : option JSON) (c : nat) : option JSON :=
  match c with
  | 0 => v
  | S _ =>
      Some (JNum (match v with Some (JNum n) => n | _ => 0 end + Z.of_nat c))
  end.

Lemma increment_counts (native_source : string -> string) (t : string)
    (keys : list string) (acc : JRecord) :
  ExportFormats.inherited native_source t = None ->
  Obj.get acc t = None \/ (exists n, Obj.get acc t = Some (JNum n)) ->
  Obj.get (fold_left (ExportFormats.increment native_source) keys acc) t
  = counted (Obj.get acc t) (count_occ string_dec keys t).
Proof.
  intros I. assert (P : t <> "__proto__").
  { intros ->. discriminate I. }
  revert acc; induction keys as [|k keys IH]; intros acc A; [reflexivity|].
  cbn [fold_left count_occ].
  destruct (string_dec k t) as [->|N].
  - assert (G : exists n,
               Obj.get (ExportFormats.increment native_source acc t) t
               = Some (JNum n)
               /\ n = (match Obj.get acc t with Some (JNum m) => m | _ => 0 end
                       + 1)%Z).
    { unfold ExportFormats.increment. rewrite get_assign_same by exact P.
      destruct A as [A|[n A]]; rewrite A; [rewrite I|]; eexists;
        split; reflexivity. }
    destruct G as (n & G & E). rewrite IH by (right; now exists n).
    rewrite G. unfold counted.
    destruct (count_occ string_dec keys t) as [|c]; f_equal; f_equal; lia.
  - rewrite IH.
    + unfold ExportFormats.increment. now rewrite get_assign_other by congruence.
    + unfold ExportFormats.increment. now rewrite get_assign_other by congruence.
Qed.

Lemma increment_proto (native_source : string -> string)
    (keys : list string) (acc : JRecord) :
  Obj.get acc "__proto__" = None ->
  Obj.get (fold_left (ExportFormats.increment native_source) keys acc)
          "__proto__" = None.
Proof.
  revert acc; induction keys as [|k keys IH]; intros acc A; [exact A|].
  cbn [fold_left]. apply IH. unfold ExportFormats.increment.
  destruct (String.eqb_spec k "__proto__") as [->|N].
  - unfold Obj.assign. cbn. exact A.
  - now rewrite get_assign_other by congruence.
Qed.

(** In the OCC export, [summary.byTool] holds for a tool the number of
    exported entries of that tool, and [summary.byRegulation] for a
    regulation the number of times the entries list it, as long as the
    name is not one that every object inherits ("constructor",
    "toString", "__proto__" and the like); a tool or a regulation named
    "__proto__" is never counted. *)
Theorem occ_summary_counts :
  forall (native_source : string -> string) (entries : list AuditEntry),
    (forall t : string,
        ExportFormats.inherited native_source t = None ->
        Obj.get (fst (ExportFormats.summarize native_source entries)) t
        = counted None (count_occ string_dec (map tool entries) t)
        /\ Obj.get (snd (ExportFormats.summarize native_source entries)) t
           = counted None
               (count_occ string_dec
                  (flat_map (fun e => regulations (compliance e)) entries) t))
    /\ Obj.get (fst (ExportFormats.summarize native_source entries))
               "__proto__" = None
    /\ Obj.get (snd (ExportFormats.summarize native_source entries))
               "__proto__" = None.
Proof.
  intros native_source entries. rewrite summarize_folds. cbn [fst snd].
  split; [|split].
  - intros t I.
    split; rewrite (increment_counts native_source t _ [] I);
      try reflexivity; now left.
  - now apply increment_proto.
  - now apply increment_proto.
Qed.

Lemma get_prop_other (k k' : string) (v : option JSON) (o : JRecord) :
  k <> k' -> Obj.get (Json.prop k' v ++ o) k = Obj.get o k.
Proof.
  intros N. destruct v as [x|]; [|reflexivity]. cbn.
  destruct (String.eqb_spec k' k); [congruence | reflexivity].
Qed.

Lemma get_prop_same (k : string) (v : JSON) (o : JRecord) :
  Obj.get (Json.prop k (Some v) ++ o) k = Some v.
Proof. cbn. now rewrite String.eqb_refl. Qed.

Lemma get_has (o : JRecord) (k : string) (v : JSON) :
  Obj.get o k = Some v -> Obj.has o k = true.
Proof.
  unfold Obj.has. induction o as [|[a x] o IH]; [discriminate|]. cbn.
  destruct (String.eqb a k); [reflexivity | exact IH].
Qed.

(** Every entry that [logDecision] writes counts as a decision for the
    CFPB export: wherever it stands among the exported entries, its
    record is in the export, with the decision logged and with
    [ecoapCompliant] true. *)
Theorem logged_decision_is_exported :
  forall (lg : Logger.t) (file : File) (o : Options.t) (d : Decision)
         (reasons : option (list string)) (id now exportDate : string)
         (before after : list AuditEntry),
    let e := fst (logDecision lg file o d reasons id now) in
    ExportFormats.is_decision e = true
    /\ Obj.get (ExportFormats.cfpb_entry e) "decision"
       = Some (JStr (decision_name d))
    /\ Obj.get (ExportFormats.cfpb_entry e) "ecoapCompliant"
       = Some (JBool true)
    /\ exists exported : list JSON,
         Obj.get (ExportFormats.cfpb_output exportDate (before ++ e :: after))
                 "entries" = Some (JArr exported)
         /\ In (JObj (ExportFormats.cfpb_entry e)) exported
         /\ Obj.get (ExportFormats.cfpb_output exportDate
                                                (before ++ e :: after))
                    "totalDecisions"
            = Some (JNum (Z.of_nat (List.length exported))).
Proof.
  intros lg file o d reasons id now exportDate before after e.
  destruct (logDecision_entry lg file o d reasons id now) as [O C].
  fold e in O, C.
  assert (G : Obj.get (outputs e) "decision" = Some (JStr (decision_name d))).
  { rewrite O. unfold decision_outputs. destruct (is_declined d).
    - rewrite get_assign_other by discriminate. apply get_define_same.
    - apply get_define_same. }
  assert (D : ExportFormats.is_decision e = true)
    by (apply (get_has _ _ _ G)).
  split; [exact D|]. split; [|split].
  - unfold ExportFormats.cfpb_entry. cbn [app Obj.get String.eqb Ascii.eqb Bool.eqb].
    rewrite get_prop_other by discriminate. rewrite G. apply get_prop_same.
  - unfold ExportFormats.cfpb_entry. cbn [app Obj.get String.eqb Ascii.eqb Bool.eqb].
    rewrite !get_prop_other by discriminate.
    cbn [Obj.get String.eqb Ascii.eqb Bool.eqb]. do 2 f_equal.
    rewrite C. cbn [merge_compliance decision_compliance regulations
                    Partial.regulations].
    rewrite existsb_app. cbn. apply orb_true_r.
  - eexists. split; [reflexivity|]. split.
    + apply in_map_iff. exists e. split; [reflexivity|].
      apply filter_In. split; [|exact D]. apply in_or_app. right. now left.
    + cbn [ExportFormats.cfpb_output Obj.get String.eqb Ascii.eqb Bool.eqb].
      now rewrite length_map.
Qed.

(** ** The CSV export *)

(** A reader of CSV text (RFC 4180): a field ends at a comma and a
    record at a line feed, except between double quotes, where two
    double quotes stand for one. [field] is the field being read,
    [record] holds the fields of the record before it and [records] the
    records before that. *)
Fixpoint csv_read_from (quoted : bool) (field : string) (record : list string)
    (records : list (list string)) (s : string) : list (list string) :=
  match s with
  | EmptyString => records ++ [record ++ [field]]
  | String c r =>
      if quoted then
        if Ascii.eqb c Json.dquote then
          match r with
          | String c' r' =>
              if Ascii.eqb c' Json.dquote
              then csv_read_from true
                     (field ++ String Json.dquote EmptyString)%string
                     record records r'
              else csv_read_from false field record records r
          | EmptyString => csv_read_from false field record records r
          end
        else csv_read_from true (field ++ String c EmptyString)%string
               record records r
      else if Ascii.eqb c Json.dquote then
        csv_read_from true field record records r
      else if Ascii.eqb c "," then
        csv_read_from false EmptyString (record ++ [field]) records r
      else if Ascii.eqb c (ascii_of_N 10) then
        csv_read_from false EmptyString [] (records ++ [record ++ [field]]) r
      else csv_read_from false (field ++ String c EmptyString)%string
             record records r
  end.

Definition csv_read (s : string) : list (list string) :=
  csv_read_from false EmptyString [] [] s.

(** A character that a cell written without quotes can hold. *)
Definition cell_char (c : ascii) : bool :=
  negb (Ascii.eqb c Json.dquote || Ascii.eqb c ","
        || Ascii.eqb c (ascii_of_N 10) || Ascii.eqb c (ascii_of_N 13)).

Fixpoint plain_cell (s : string) : bool :=
  match s with
  | EmptyString => true
  | String c r => cell_char c && plain_cell r
  end.

Fixpoint no_quote (s : string) : bool :=
  match s with
  | EmptyString => true
  | String c r => negb (Ascii.eqb c Json.dquote) && no_quote r
  end.

(** The values of the fifteen columns of an entry. *)
Definition csv_fields (e : AuditEntry) : list string :=
  [ auditId e;
    timestamp e;
    tool e;
    command e;
    toolVersion e;
    operator e;
    or_else_str (loanId e) EmptyString;
    or_else_str (sessionId e) EmptyString;
    rationale e;
    String.concat "; " (warnings e);
    String.concat "; " (regulations (compliance e));
    String.concat "; " (riskFlags (compliance e));
    if humanReviewRequired (compliance e) then "true" else "false";
    or_else_str (option_map Json.number (durationMs e)) EmptyString;
    or_else_str (entryHash e) EmptyString ].

(** The cells that [formatAsCSV] writes as they are hold no comma, double
    quote or line break, and the ones it puts between quotes without
    doubling their quotes hold no double quote. *)
Definition csv_safe (e : AuditEntry) : bool :=
  forallb plain_cell
    [ auditId e; timestamp e; tool e; command e; toolVersion e; operator e;
      or_else_str (loanId e) EmptyString;
      or_else_str (sessionId e) EmptyString;
      or_else_str (entryHash e) EmptyString ]
  && forallb no_quote
       [ String.concat "; " (warnings e);
         String.concat "; " (regulations (compliance e));
         String.concat "; " (riskFlags (compliance e)) ].

Lemma append_empty (s : string) : (s ++ EmptyString)%string = s.
Proof. induction s as [|c s IH]; cbn; [reflexivity | now rewrite IH]. Qed.

Lemma append_snoc (f : string) (c : ascii) (s : string) :
  ((f ++ String c EmptyString) ++ s)%string = (f ++ String c s)%string.
Proof. now rewrite append_assoc. Qed.

Lemma read_plain (s : string) :
  forall f rec recs t,
    plain_cell s = true ->
    csv_read_from false f rec recs (s ++ t)
    = csv_read_from false (f ++ s) rec recs t.
Proof.
  induction s as [|c s IH]; intros f rec recs t H.
  - now rewrite append_empty.
  - cbn [plain_cell] in H. apply andb_prop in H as [C H].
    unfold cell_char in C. apply negb_true_iff in C.
    apply orb_false_elim in C as [C _]. apply orb_false_elim in C as [C Hl].
    apply orb_false_elim in C as [Hq Hc].
    cbn [append csv_read_from]. rewrite Hq, Hc, Hl.
    now rewrite (IH _ rec recs t H), append_snoc.
Qed.

(** What follows a closing quote is no quote. *)
Definition closes (t : string) : Prop :=
  match t with
  | EmptyString => True
  | String c _ => Ascii.eqb c Json.dquote = false
  end.

Lemma read_quoted (s : string) :
  forall f rec recs t,
    closes t ->
    csv_read_from true f rec recs
      (Csv.double_quotes s ++ String Json.dquote t)
    = csv_read_from false (f ++ s) rec recs t.
Proof.
  induction s as [|c s IH]; intros f rec recs t H.
  - rewrite append_empty. cbn [Csv.double_quotes append csv_read_from].
    rewrite Ascii.eqb_refl.
    destruct t as [|c' t']; [reflexivity|]. unfold closes in H. now rewrite H.
  - cbn [Csv.double_quotes]. destruct (Ascii.eqb c Json.dquote) eqn:E.
    + apply Ascii.eqb_eq in E as ->.
      cbn [append csv_read_from]. rewrite !Ascii.eqb_refl.
      now rewrite (IH _ rec recs t H), append_snoc.
    + cbn [append csv_read_from]. rewrite E.
      now rewrite (IH _ rec recs t H), append_snoc.
Qed.

Lemma double_quotes_plain (s : string) :
  no_quote s = true -> Csv.double_quotes s = s.
Proof.
  induction s as [|c s IH]; [reflexivity|]. cbn.
  intros H. apply andb_prop in H as [C H]. apply negb_true_iff in C.
  now rewrite C, (IH H).
Qed.

(** What follows a cell: the end of the text, a comma or a line feed. *)
Definition separated (t : string) : Prop :=
  match t with
  | EmptyString => True
  | String c _ => c = ","%char \/ c = ascii_of_N 10
  end.

Lemma separated_closes (t : string) : separated t -> closes t.
Proof. destruct t as [|c t]; [easy|]. intros [->| ->]; reflexivity. Qed.

(** The reader makes [value] of the cell [text]. *)
Definition reads (text value : string) : Prop :=
  forall rec recs t,
    separated t ->
    csv_read_from false EmptyString rec recs (text ++ t)
    = csv_read_from false value rec recs t.

Lemma reads_plain (s : string) : plain_cell s = true -> reads s s.
Proof. intros H rec recs t _. now rewrite (read_plain s _ rec recs t H). Qed.

Lemma reads_doubled (s : string) :
  reads (Csv.cell (Csv.double_quotes s)) s.
Proof.
  intros rec recs t S. unfold Csv.cell.
  cbn [append]. rewrite append_assoc. cbn [append csv_read_from].
  rewrite Ascii.eqb_refl.
  now rewrite (read_quoted s _ rec recs t (separated_closes t S)).
Qed.

Lemma reads_quoted (s : string) : no_quote s = true -> reads (Csv.cell s) s.
Proof.
  intros H. rewrite <- (double_quotes_plain s H) at 1. apply reads_doubled.
Qed.

Lemma read_row (texts values : list string) :
  Forall2 reads texts values -> texts <> [] ->
  forall rec recs,
    csv_read_from false EmptyString rec recs (String.concat "," texts)
    = recs ++ [rec ++ values]
    /\ forall t,
         csv_read_from false EmptyString rec recs
           (String.concat "," texts ++ String (ascii_of_N 10) t)
         = csv_read_from false EmptyString [] (recs ++ [rec ++ values]) t.
Proof.
  induction 1 as [|x v texts values R F IH]; [easy|]. intros _ rec recs.
  destruct F as [|y w texts values Ry F].
  - cbn [String.concat]. split.
    + rewrite <- (append_empty x) at 1. now rewrite (R rec recs EmptyString I).
    + intros t. rewrite R by (now right). reflexivity.
  - assert (N : y :: texts <> []) by discriminate.
    specialize (IH N (rec ++ [v]) recs).
    rewrite <- app_assoc in IH. cbn [app] in IH. destruct IH as [A B].
    change (String.concat "," (x :: y :: texts))
      with (x ++ "," ++ String.concat "," (y :: texts))%string.
    split.
    + rewrite R by (now left).
      cbn [append csv_read_from]. exact A.
    + intros t. rewrite !append_assoc.
      rewrite R by (now left).
      cbn [append csv_read_from]. apply B.
Qed.

(** The reader makes [record] of the line [line]. *)
Definition reads_row (line : string) (record : list string) : Prop :=
  exists texts,
    texts <> [] /\ line = String.concat "," texts /\ Forall2 reads texts record.

Lemma read_lines (lines : list string) (records : list (list string)) :
  Forall2 reads_row lines records -> lines <> [] ->
  forall recs,
    csv_read_from false EmptyString [] recs (String.concat newline lines)
    = recs ++ records.
Proof.
  induction 1 as [|l r lines records (texts & N & -> & R) F IH]; [easy|].
  intros _ recs. destruct F as [|l' r' lines records R' F].
  - cbn [String.concat]. apply (read_row texts r R N [] recs).
  - change (String.concat newline (String.concat "," texts :: l' :: lines))
      with (String.concat "," texts
              ++ String (ascii_of_N 10) (String.concat newline (l' :: lines)))%string.
    destruct (read_row texts r R N [] recs) as [_ B]. rewrite B.
    cbn [app]. rewrite IH by discriminate.
    now rewrite <- app_assoc.
Qed.

Lemma plain_cell_digits (s : string) : all_digits s = true -> plain_cell s = true.
Proof.
  induction s as [|c s IH]; [reflexivity|]. cbn [all_digits plain_cell].
  intros H. apply andb_prop in H as [D H]. rewrite (IH H), andb_true_r.
  unfold isDigit in D. apply andb_prop in D as [D1 D2].
  apply N.leb_le in D1. apply N.leb_le in D2.
  unfold cell_char. apply negb_true_iff.
  repeat (apply orb_false_intro); apply Ascii.eqb_neq; intros ->;
    vm_compute in D1, D2; try (now apply D1); try (now apply D2).
Qed.

Lemma plain_cell_number (n : Z) : plain_cell (Json.number n) = true.
Proof.
  unfold Json.number. destruct (Z.to_int n) as [d|d]; cbn;
    apply plain_cell_digits, string_of_uint_digits.
Qed.

Lemma reads_fields (e : AuditEntry) :
  csv_safe e = true -> Forall2 reads (Csv.row e) (csv_fields e).
Proof.
  unfold csv_safe. cbn [forallb]. intros H.
  repeat (apply andb_prop in H; destruct H as [?H H]).
  repeat match goal with
         | X : (_ && _)%bool = true |- _ => apply andb_prop in X; destruct X
         end.
  unfold Csv.row, csv_fields.
  repeat (apply Forall2_cons); try apply Forall2_nil;
    try (apply reads_plain; assumption);
    try (apply reads_quoted; assumption);
    try apply reads_doubled.
  - apply reads_plain. now destruct (humanReviewRequired (compliance e)).
  - apply reads_plain. destruct (durationMs e) as [n|]; [|reflexivity].
    cbn [option_map or_else_str].
    destruct (Str.truthy (Json.number n)); [apply plain_cell_number | reflexivity].
Qed.

Lemma reads_headers : reads_row (String.concat "," Csv.headers) Csv.headers.
Proof.
  exists Csv.headers. split; [discriminate|]. split; [reflexivity|].
  unfold Csv.headers. repeat (apply Forall2_cons); try apply Forall2_nil;
    apply reads_plain; reflexivity.
Qed.

(** The CSV export reads back. When the cells that [formatAsCSV] writes
    without quotes (identifiers, timestamp, tool, command, version,
    operator, entry hash) hold no comma, double quote or line break, and
    the warnings, regulations and risk flags hold no double quote, a CSV
    reader makes of the exported text the header record followed by one
    record of fifteen fields for each entry, in order, and the ninth
    field is the rationale of the entry whatever commas, quotes or line
    breaks the rationale holds. *)
Theorem csv_export_reads_back :
  forall entries : list AuditEntry,
    forallb csv_safe entries = true ->
    csv_read (Csv.formatAsCSV entries) = Csv.headers :: map csv_fields entries.
Proof.
  intros entries H. unfold csv_read, Csv.formatAsCSV.
  rewrite (read_lines _ (Csv.headers :: map csv_fields entries));
    [reflexivity | | discriminate].
  constructor; [apply reads_headers|].
  induction entries as [|e entries IH]; [constructor|].
  cbn [forallb] in H. apply andb_prop in H as [S H].
  cbn [map]. constructor; [|apply (IH H)].
  exists (Csv.row e). split; [discriminate|]. split; [reflexivity|].
  now apply reads_fields.
Qed.

(** ** The further theorems at work on the sample log *)

Lemma sample_chain : valid_chain (stored sample_file) = true.
Proof. vm_compute. reflexivity. Qed.

Lemma sample_hashes_differ :
  entryHash (fst sample_log1) <> entryHash (fst sample_log2).
Proof. vm_compute. discriminate. Qed.

Lemma verifyIntegrity_detects_removed_entry_witness :
  FileStorage.verifyIntegrity sample_clock
    [Stored (fst sample_log1); Stored (fst sample_log3)] None
  = Some (Result.mk false 2 1 1
            [Failure.mk "id-3" "2026-01-03T00:00:00.000Z"
               "Previous hash mismatch"
               (entryHash (fst sample_log1))
               (previousHash (fst sample_log3))]).
Proof.
  apply (verifyIntegrity_detects_removed_entry sample_clock
           [Stored (fst sample_log1); Stored (fst sample_log3)] [] []
           (fst sample_log1) (fst sample_log2) (fst sample_log3)).
  - exact sample_chain.
  - exact sample_hashes_differ.
  - reflexivity.
Defined.

Lemma query_unreadable_date_is_empty_witness :
  FileStorage.query sample_clock sample_file
    (Query.mk None None None None None (Some "soon") None None None None None)
  = [].
Proof.
  apply (query_unreadable_date_is_empty sample_clock sample_file
           (Query.mk None None None None None (Some "soon") None None None
                     None None) "soon"); [reflexivity | reflexivity |].
  now left.
Defined.

Lemma verifyIntegrity_accepts_truncated_log_witness :
  FileStorage.verifyIntegrity sample_clock [Stored (fst sample_log2)] None
  = Some (Result.mk true 1 1 0 []).
Proof.
  apply (verifyIntegrity_accepts_truncated_log sample_clock sample_file
           [Stored (fst sample_log2)] [fst sample_log1] [fst sample_log3]
           (Result.mk true 3 3 0 [])).
  - exact sample_file_is_valid.
  - reflexivity.
  - reflexivity.
Defined.

Lemma verifyIntegrity_unreadable_fromDate_witness :
  FileStorage.verifyIntegrity sample_clock sample_rewritten_file
    (Some "yesterday")
  = Some (Result.mk true 0 0 0 []).
Proof.
  apply (verifyIntegrity_unreadable_fromDate sample_clock
           sample_rewritten_file "yesterday"); reflexivity.
Defined.

Definition sample_call : Call :=
  CallLog sample_logger (sample_options "dti" 7083)
          "id-2" "2026-01-02T00:00:00.000Z".

Lemma logged_entry_found_by_id_witness :
  option_map val
    (FileStorage.getById (snd (perform (snd sample_log1) sample_call)) "id-2")
  = Some (fst (perform (snd sample_log1) sample_call)).
Proof.
  apply (logged_entry_found_by_id (snd sample_log1) sample_call);
    [reflexivity|].
  constructor; [|constructor]. cbn [auditId]. discriminate.
Defined.

Lemma getLastEntry_after_append_witness :
  option_map val
    (FileStorage.getLastEntry
       (FileStorage.append [] (fst sample_log1) ++ [Blank; Malformed "{"]))
  = Some (fst sample_log1).
Proof.
  apply (getLastEntry_after_append [] (fst sample_log1) [Blank; Malformed "{"]);
    [reflexivity|].
  repeat constructor.
Defined.

Lemma query_pages_add_up_witness :
  FileStorage.query sample_clock sample_file
    (with_page (by_session "s") (Some 0%Z) (Some 1%Z))
  ++ FileStorage.query sample_clock sample_file
       (with_page (by_session "s") (Some (0 + 1)%Z) (Some 2%Z))
  = FileStorage.query sample_clock sample_file
      (with_page (by_session "s") (Some 0%Z) (Some (1 + 2)%Z)).
Proof.
  apply (query_pages_add_up sample_clock sample_file (by_session "s") 0 1 2);
    lia.
Defined.

Lemma query_after_append_witness :
  map val (FileStorage.query sample_clock
             (FileStorage.append (snd sample_log1) (fst sample_log2))
             (by_session "s"))
  = map val (FileStorage.query sample_clock (snd sample_log1) (by_session "s"))
    ++ (if matches sample_clock (by_session "s") (fst sample_log2)
        then [fst sample_log2] else []).
Proof.
  apply (query_after_append sample_clock (snd sample_log1) (fst sample_log2)
           (by_session "s")); reflexivity.
Defined.

Lemma session_entries_are_found_by_session_witness :
  getSessionId (startSession sample_logger None "session-1")
  = Some "session-1"
  /\ sessionId (fst (log (startSession sample_logger None "session-1") []
                         (sample_options "dti" 7083) "id-9"
                         "2026-01-02T00:00:00.000Z"))
     = Some "session-1"
  /\ map val
       (FileStorage.query sample_clock
          (snd (log (startSession sample_logger None "session-1") []
                    (sample_options "dti" 7083) "id-9"
                    "2026-01-02T00:00:00.000Z"))
          (by_session "session-1"))
     = map val (FileStorage.query sample_clock [] (by_session "session-1"))
       ++ [fst (log (startSession sample_logger None "session-1") []
                    (sample_options "dti" 7083) "id-9"
                    "2026-01-02T00:00:00.000Z")].
Proof.
  destruct (session_entries_are_found_by_session sample_clock sample_logger
              None "session-1" [] (sample_options "dti" 7083) "id-9"
              "2026-01-02T00:00:00.000Z" eq_refl eq_refl)
    as (A & B & C).
  split; [exact A|]. split; [exact B | exact (C eq_refl)].
Defined.

Lemma logging_preserves_failures_witness :
  exists r : Result.t,
    FileStorage.verifyIntegrity sample_clock sample_rewritten_file None
    = Some r
    /\ FileStorage.verifyIntegrity sample_clock
         (snd (perform_all sample_rewritten_file [sample_call])) None
       = Some (Result.mk (Result.valid r)
                 (Result.entriesChecked r + 1) (Result.validEntries r + 1)
                 (Result.invalidEntries r) (Result.failures r)).
Proof.
  apply (logging_preserves_failures sample_clock sample_rewritten_file
           [sample_call]).
  reflexivity.
Defined.

Lemma logging_only_appends_witness :
  snd (perform_all [Blank; Malformed "{"] [sample_call])
  = [Blank; Malformed "{"]
    ++ map Stored (fst (perform_all [Blank; Malformed "{"] [sample_call])).
Proof.
  apply (logging_only_appends sample_clock [Blank; Malformed "{"]
           [sample_call]).
  reflexivity.
Defined.

(** A rationale with a comma and with double quotes. *)
Definition sample_quoted_rationale : string :=
  ("DTI 43%, see " ++ String Json.dquote ("ATR" ++ String Json.dquote "."))%string.

Definition sample_export : list AuditEntry :=
  [mutate (SetRationale sample_quoted_rationale) (fst sample_log1);
   fst sample_log2].

Lemma sample_export_safe : forallb csv_safe sample_export = true.
Proof. vm_compute. reflexivity. Qed.

Lemma csv_export_reads_back_witness :
  csv_read (Csv.formatAsCSV sample_export)
  = Csv.headers :: map csv_fields sample_export.
Proof. apply (csv_export_reads_back sample_export sample_export_safe). Defined.

Lemma log_after_unterminated_line_is_lost_witness :
  FileStorage.readAllEntries
    (snd (log sample_logger (snd sample_log1 ++ [Unterminated "{" None])
            (sample_options "dti" 7083) "id-2" "2026-01-02T00:00:00.000Z"))
  = FileStorage.readAllEntries (snd sample_log1).
Proof.
  apply (log_after_unterminated_line_is_lost sample_clock sample_logger
           (snd sample_log1) "{" None (sample_options "dti" 7083) "id-2"
           "2026-01-02T00:00:00.000Z" None eq_refl).
Defined.
